(** * Verification of the balance-scanning engine of lost_tokens_cli

    A shallow embedding of [src/functions.js]: the JavaScript Number and
    String built-ins the code relies on, [numberWithCommas],
    [getTokenInfo], [getBalanceOf], the worker pool of [distributeTasks],
    [findBalances], [processOneToken] and [formatTokenResult], followed by
    the theorems about them. *)

From Stdlib Require Import ZArith Lia List Bool Ascii String SpecFloat.
From stdpp Require Import base option list gmap strings pretty sorting.

Local Open Scope Z_scope.

(** ** JavaScript numbers

    A finite IEEE-754 binary64 value is an integer multiple of the
    smallest subnormal, 2^-1074.  [Finite k] stands for the double
    k * 2^-1074; a double has at most 53 significant bits, so [k] is
    m * 2^s with m < 2^53, and is smaller than 2^2098 in absolute value.
    The sign of a zero is not represented: no operation of the program
    observes it (comparison, multiplication, subtraction and toString
    treat -0 as 0, and the only divisors are the powers of ten
    [Number(`1e${decimals}`)]). *)
Module JS.

Inductive Number : Type :=
  | NaN
  | Infinity (negative : bool)
  | Finite (k : Z).

Definition quantum_bits : Z := 1074.
Definition overflow_threshold : Z := 2 ^ 2098.

(** Nearest integer to a/d for a >= 0 and d > 0, ties to even. *)
Definition rne (a d : Z) : Z :=
  let q := a / d in
  let r := a mod d in
  if 2 * r <? d then q
  else if d <? 2 * r then q + 1
  else if Z.even q then q else q + 1.

(** Number of low bits a value of that magnitude drops to keep a 53-bit
    significand. *)
Definition ulp_shift (k : Z) : Z := Z.max 0 (Z.log2 k - 52).

(** Nearest multiple of the quantum with a 53-bit significand to the
    rational a/d (in quantum units), a >= 0 and d > 0. *)
Definition round_pos (a d : Z) : Z :=
  let s := ulp_shift (a / d) in
  rne a (d * 2 ^ s) * 2 ^ s.

(** Round-to-nearest-even of n/d quanta, with overflow to infinity. *)
Definition round_q (n d : Z) : Number :=
  let k := round_pos (Z.abs n) d in
  if overflow_threshold <=? k then Infinity (n <? 0)
  else Finite (Z.sgn n * k).

(** [Number(b)] for a BigInt [b]. *)
Definition ofBigInt (z : Z) : Number := round_q (z * 2 ^ quantum_bits) 1.

(** [Number(`1e${d}`)] for a natural number [d]: the double nearest to
    10^d ([Infinity] from 1e309 on). *)
Definition parse_1e (d : nat) : Number :=
  round_q (10 ^ Z.of_nat d * 2 ^ quantum_bits) 1.

(** The literal [0.000001]. *)
Definition lit_1em6 : Number := round_q (2 ^ quantum_bits) 1000000.

(** [BigInt(x)]: a RangeError ([None]) unless [x] is an integer. *)
Definition toBigInt (x : Number) : option Z :=
  match x with
  | Finite k =>
      if k mod 2 ^ quantum_bits =? 0 then Some (k / 2 ^ quantum_bits) else None
  | _ => None
  end.

Definition mul (x y : Number) : Number :=
  match x, y with
  | NaN, _ | _, NaN => NaN
  | Infinity s, Infinity t => Infinity (xorb s t)
  | Infinity s, Finite k | Finite k, Infinity s =>
      if k =? 0 then NaN else Infinity (xorb s (k <? 0))
  | Finite a, Finite b => round_q (a * b) (2 ^ quantum_bits)
  end.

Definition div (x y : Number) : Number :=
  match x, y with
  | NaN, _ | _, NaN => NaN
  | Infinity _, Infinity _ => NaN
  | Infinity s, Finite k => Infinity (xorb s (k <? 0))
  | Finite _, Infinity _ => Finite 0
  | Finite a, Finite b =>
      if b =? 0 then (if a =? 0 then NaN else Infinity (a <? 0))
      else round_q (Z.sgn b * a * 2 ^ quantum_bits) (Z.abs b)
  end.

Definition sub (x y : Number) : Number :=
  match x, y with
  | NaN, _ | _, NaN => NaN
  | Infinity s, Infinity t => if eqb s t then NaN else Infinity s
  | Infinity s, Finite _ => Infinity s
  | Finite _, Infinity t => Infinity (negb t)
  | Finite a, Finite b => round_q (a - b) 1
  end.

(** [x < y]; false as soon as one side is NaN. *)
Definition ltb (x y : Number) : bool :=
  match x, y with
  | NaN, _ | _, NaN => false
  | Infinity s, Infinity t => s && negb t
  | Infinity s, Finite _ => s
  | Finite _, Infinity t => negb t
  | Finite a, Finite b => a <? b
  end.

(** *** Number.prototype.toString, radix 10 *)

(** Is k * 2^-1074 >= 10^e ? *)
Definition ge_pow10 (k e : Z) : bool :=
  if 0 <=? e then 10 ^ e * 2 ^ quantum_bits <=? k
  else 2 ^ quantum_bits <=? k * 10 ^ (- e).

Fixpoint find_exp10 (fuel : nat) (k e : Z) : Z :=
  match fuel with
  | O => e
  | S fuel' => if ge_pow10 k e then e else find_exp10 fuel' k (e - 1)
  end.

(** The [n] of the language definition: 10^(n-1) <= value < 10^n.  The
    search for n - 1 starts just above log10 of the value, estimated from
    its binary logarithm (log10 2 < 0.30103). *)
Definition dec_exponent (k : Z) : Z :=
  let start := (Z.log2 k - 1073) * 30103 / 100000 + 1 in
  find_exp10 8 k start + 1.

(** Twice the gap to the next double above and below, in quanta halves:
    the rounding interval of [k] is (2k - below, 2k + above) / 2. *)
Definition gap_above (k : Z) : Z := 2 ^ ulp_shift k.
Definition gap_below (k : Z) : Z :=
  if (k =? 2 ^ Z.log2 k) && (0 <? ulp_shift k)
  then 2 ^ (ulp_shift k - 1) else 2 ^ ulp_shift k.

(** Does the decimal c * 10^e read back as the double [k]? *)
Definition reads_back (k c e : Z) : bool :=
  let A := c * 10 ^ Z.max e 0 * 2 ^ (quantum_bits + 1) in
  let B := 10 ^ Z.max (- e) 0 in
  let lo := (2 * k - gap_below k) * B in
  let hi := (2 * k + gap_above k) * B in
  if Z.even (k / 2 ^ ulp_shift k) then (lo <=? A) && (A <=? hi)
  else (lo <? A) && (A <? hi).

(** Distance from c * 10^e to [k], on the scale of [reads_back]. *)
Definition dec_distance (k c e : Z) : Z :=
  Z.abs (c * 10 ^ Z.max e 0 * 2 ^ (quantum_bits + 1)
         - 2 * k * 10 ^ Z.max (- e) 0).

(** The best decimal with [p] digits, if one reads back as [k]. *)
Definition digits_at (k n : Z) (p : Z) : option Z :=
  let e := n - p in
  let c0 := (2 * k * 10 ^ Z.max (- e) 0)
            / (10 ^ Z.max e 0 * 2 ^ (quantum_bits + 1)) in
  let c1 := c0 + 1 in
  match reads_back k c0 e, reads_back k c1 e with
  | true, true =>
      let d0 := dec_distance k c0 e in
      let d1 := dec_distance k c1 e in
      if d0 <? d1 then Some c0
      else if d1 <? d0 then Some c1
      else if Z.even c0 then Some c0 else Some c1
  | true, false => Some c0
  | false, true => Some c1
  | false, false => None
  end.

Fixpoint shortest_from (fuel : nat) (k n p : Z) : Z * Z :=
  match fuel with
  | O => (0, p)
  | S fuel' =>
      match digits_at k n p with
      | Some c => (c, p)
      | None => shortest_from fuel' k n (p + 1)
      end
  end.

(** Shortest digit string [s] with its length [p] and the exponent [n]. *)
Definition shortest (k : Z) : Z * Z * Z :=
  let n := dec_exponent k in
  let '(c, p) := shortest_from 17 k n 1 in
  if c =? 10 ^ p then (c / 10, p, n + 1) else (c, p, n).

Definition digits_of (c : Z) : string := pretty (Z.to_N c).

Fixpoint zeros (n : nat) : string :=
  match n with O => EmptyString | S n' => String "0" (zeros n') end.

Fixpoint take_str (n : nat) (s : string) : string :=
  match n, s with
  | S n', String c s' => String c (take_str n' s')
  | _, _ => EmptyString
  end.

Fixpoint drop_str (n : nat) (s : string) : string :=
  match n, s with
  | S n', String _ s' => drop_str n' s'
  | _, _ => s
  end.

Definition toString_pos (k : Z) : string :=
  let '(c, p, n) := shortest k in
  let ds := digits_of c in
  if (p <=? n) && (n <=? 21) then
    ds +:+ zeros (Z.to_nat (n - p))
  else if (0 <? n) && (n <=? 21) then
    take_str (Z.to_nat n) ds +:+ "." +:+ drop_str (Z.to_nat n) ds
  else if (-6 <? n) && (n <=? 0) then
    "0." +:+ zeros (Z.to_nat (- n)) +:+ ds
  else
    let ex := (if 0 <=? n - 1 then "+" else "-") +:+ digits_of (Z.abs (n - 1)) in
    if p =? 1 then ds +:+ "e" +:+ ex
    else take_str 1 ds +:+ "." +:+ drop_str 1 ds +:+ "e" +:+ ex.

Definition toString (x : Number) : string :=
  match x with
  | NaN => "NaN"
  | Infinity false => "Infinity"
  | Infinity true => "-Infinity"
  | Finite k =>
      if k =? 0 then "0"
      else if k <? 0 then "-" +:+ toString_pos (- k)
      else toString_pos k
  end.

(** *** The same doubles in the standard library's IEEE-754 format

    [SpecFloat] specifies binary64 on sign, significand and exponent; the
    properties section checks the operations above against it. *)
Definition to_spec (x : Number) : spec_float :=
  match x with
  | NaN => S754_nan
  | Infinity s => S754_infinity s
  | Finite k =>
      if k =? 0 then S754_zero false
      else
        let s := ulp_shift (Z.abs k) in
        S754_finite (k <? 0) (Z.to_pos (Z.abs k / 2 ^ s)) (s - quantum_bits)
  end.

End JS.

(** ** JavaScript strings and arrays: the built-ins of [numberWithCommas]
    and of the record sort *)
Module Str.

Definition is_digit (c : ascii) : bool :=
  let n := nat_of_ascii c in (48 <=? n)%nat && (n <=? 57)%nat.

(** The class \w of regular expressions. *)
Definition is_word (c : ascii) : bool :=
  let n := nat_of_ascii c in
  is_digit c || ((65 <=? n)%nat && (n <=? 90)%nat)
  || ((97 <=? n)%nat && (n <=? 122)%nat) || (n =? 95)%nat.

(** [s.split(".")]: never empty. *)
Fixpoint split_dot (s : string) : list string :=
  match s with
  | EmptyString => [EmptyString]
  | String c s' =>
      if Ascii.eqb c "." then EmptyString :: split_dot s'
      else match split_dot s' with
           | p :: ps => String c p :: ps
           | [] => [String c EmptyString]
           end
  end.

(** [parts.join(".")]. *)
Fixpoint join_dot (parts : list string) : string :=
  match parts with
  | [] => EmptyString
  | [p] => p
  | p :: ps => p +:+ "." +:+ join_dot ps
  end.

Fixpoint digit_run (s : string) : nat :=
  match s with
  | String c s' => if is_digit c then S (digit_run s') else O
  | EmptyString => O
  end.

(** The lookahead (?=(\d{3})+(?!\d)): the digits that follow form one or
    more groups of three. *)
Definition groups_of_three_ahead (s : string) : bool :=
  let r := digit_run s in (0 <? r)%nat && (r mod 3 =? 0)%nat.

(** \B between the previous character and the next one. *)
Definition not_word_boundary (prev next : option ascii) : bool :=
  eqb (from_option is_word false prev) (from_option is_word false next).

(** [s.replace(/\B(?=(\d{3})+(?!\d))/g, ",")], scanning [s] with the
    character before the current position. *)
Fixpoint insert_commas (prev : option ascii) (s : string) : string :=
  match s with
  | EmptyString => EmptyString
  | String c s' =>
      let rest := String c (insert_commas (Some c) s') in
      if not_word_boundary prev (Some c) && groups_of_three_ahead s
      then String "," rest else rest
  end.

(** [s.substring(0, 2)]. *)
Definition substring_0_2 (s : string) : string := JS.take_str 2 s.

End Str.

(** ** numberWithCommas (functions.js, lines 41-49) *)
Definition numberWithCommas (x : JS.Number) : string :=
  if JS.ltb x JS.lit_1em6 then "0.00"
  else
    let parts := Str.split_dot (JS.toString x) in
    let parts :=
      match parts with
      | p0 :: rest => Str.insert_commas None p0 :: rest
      | [] => []
      end in
    let parts :=
      match parts with
      | p0 :: p1 :: rest => p0 :: Str.substring_0_2 p1 :: rest
      | _ => parts
      end in
    Str.join_dot parts.

(** ** Records and results *)

(** A record pushed by [findBalances]; [contract] is [contractList[i]],
    undefined ([None]) past the end of the list. *)
Record BalanceRecord : Type := mkRecord {
  amount : Z;
  roundedAmount : JS.Number;
  dollarValue : string;
  contract : option string
}.

(** The object returned by [getTokenInfo].  [ticker] and [valid] are
    variables declared without a value: [None] is undefined.  [decimals]
    is an integer, as the contract reports it (a uint8 in the ERC-20
    interface). *)
Record TokenInfo : Type := mkTokenInfo {
  address : string;
  ticker : option string;
  valid : option bool;
  decimals : nat;
  price : JS.Number
}.

(** The object returned by [processOneToken]; a null ticker is [None]. *)
Record ScanResult : Type := mkScanResult {
  tokenAddress : string;
  res_ticker : option string;
  res_decimals : nat;
  res_price : JS.Number;
  records : list BalanceRecord
}.

(** ** Aggregation: the second half of findBalances (lines 251-271) *)

(** BigInt division: a RangeError ([None]) on a zero divisor, otherwise
    the quotient rounded towards zero. *)
Definition bigint_div (a b : Z) : option Z :=
  if b =? 0 then None else Some (Z.quot a b).

(** One turn of the loop [for (let i = 0; i < balances.length; i++)]:
    the record pushed for [balances[i]], nothing for a balance that is not
    positive, [None] when the turn throws. *)
Definition format_balance (tokenObject : TokenInfo) (contractList : list string)
    (i : nat) (balance : Z) : option (list BalanceRecord) :=
  if 0 <? balance then
    divisor ← JS.toBigInt (JS.parse_1e (decimals tokenObject));
    q ← bigint_div balance divisor;
    let amount := JS.ofBigInt q in
    let dollarValue := numberWithCommas (JS.mul amount (price tokenObject)) in
    Some [mkRecord balance amount dollarValue (contractList !! i)]
  else Some [].

Fixpoint format_balances (tokenObject : TokenInfo) (contractList : list string)
    (i : nat) (balances : list Z) : option (list BalanceRecord) :=
  match balances with
  | [] => Some []
  | b :: bs =>
      r ← format_balance tokenObject contractList i b;
      rs ← format_balances tokenObject contractList (S i) bs;
      Some (r ++ rs)
  end.

(** The comparator [function(a, b) {return b.roundedAmount - a.roundedAmount}]. *)
Definition compare_records (a b : BalanceRecord) : JS.Number :=
  JS.sub (roundedAmount b) (roundedAmount a).

(** Array.prototype.sort reads the comparator's result as a sign, a NaN
    as zero; [after a b] says the comparator puts [a] after [b]. *)
Definition after (a b : BalanceRecord) : bool :=
  JS.ltb (JS.Finite 0) (compare_records a b).

(** Array.prototype.sort is a stable sort: here by insertion, each record
    going before the first one it does not have to follow. *)
Fixpoint sort_insert (x : BalanceRecord) (l : list BalanceRecord) : list BalanceRecord :=
  match l with
  | [] => [x]
  | y :: l' => if after x y then y :: sort_insert x l' else x :: l
  end.

Definition Array_sort (l : list BalanceRecord) : list BalanceRecord :=
  foldr sort_insert [] l.

(** The records [findBalances] returns for the balances it obtained. *)
Definition aggregate (tokenObject : TokenInfo) (contractList : list string)
    (balances : list Z) : option (list BalanceRecord) :=
  Array_sort <$> format_balances tokenObject contractList 0 balances.

(** ** formatTokenResult (lines 329-358) *)

Record Report : Type := mkReport { resStr : string; asDollar : JS.Number }.

Definition nl : string := String (ascii_of_nat 10) EmptyString.

(** Template literals print an undefined value as "undefined". *)
Definition show_contract (c : option string) : string := default "undefined" c.

Definition record_line (tick : string) (record : BalanceRecord) : string :=
  "Contract " +:+ show_contract (contract record) +:+ " => "
  +:+ numberWithCommas (roundedAmount record) +:+ " " +:+ tick
  +:+ " ( $" +:+ dollarValue record +:+ " )".

(** The loop over [res.records], on the pair (localStr, sum). *)
Definition format_step (tick : string) (acc : string * Z) (record : BalanceRecord)
    : string * Z :=
  let '(localStr, sum) := acc in
  (localStr +:+ record_line tick record +:+ nl, sum + amount record).

Definition format_loop (tick : string) (rs : list BalanceRecord) : string * Z :=
  fold_left (format_step tick) rs (EmptyString, 0).

(** The total the header shows, [Number(sum) / Number(`1e${res.decimals}`)]. *)
Definition header_total (res : ScanResult) : JS.Number :=
  JS.div (JS.ofBigInt (snd (format_loop (default "" (res_ticker res)) (records res))))
         (JS.parse_1e (res_decimals res)).

Definition divider : string :=
  nl +:+ "-----------------------------------------------" +:+ nl.

Definition minus_one : JS.Number := JS.ofBigInt (-1).

Definition number_eqb (x y : JS.Number) : bool :=
  match x, y with
  | JS.Finite a, JS.Finite b => a =? b
  | JS.Infinity s, JS.Infinity t => eqb s t
  | _, _ => false
  end.

Definition formatTokenResult (res : ScanResult) : Report :=
  match res_ticker res with
  | None | Some EmptyString =>
      mkReport ("??? [" +:+ tokenAddress res +:+ "] - unknown token" +:+ nl)
               (JS.Finite 0)
  | Some tick =>
      if number_eqb (res_price res) minus_one then
        mkReport (tick +:+ " [" +:+ tokenAddress res
                  +:+ "]: not checked - no price found" +:+ nl) (JS.Finite 0)
      else
        let '(localStr, sum) := format_loop tick (records res) in
        let roundedAmount := JS.div (JS.ofBigInt sum) (JS.parse_1e (res_decimals res)) in
        let asDollar := JS.mul roundedAmount (res_price res) in
        let header := tick +:+ " [" +:+ tokenAddress res +:+ "]: "
                      +:+ numberWithCommas roundedAmount +:+ " tokens lost / $"
                      +:+ numberWithCommas asDollar in
        mkReport (header +:+ divider +:+ localStr) asDollar
  end.

(** ** The outside world

    Contract calls and HTTP requests are answered by an oracle.  [None]
    is a rejected promise (a network error, a revert, a malformed
    response).  A balance query is asked again after a failure, so its
    answer depends on the attempt, counted from 0. *)

(** The state of the promise an async function returned. *)
Inductive Outcome (A : Type) : Type :=
  | Fulfilled (a : A)
  | Rejected
  | Pending.
Arguments Fulfilled {A} a.
Arguments Rejected {A}.
Arguments Pending {A}.

(** A web3 contract handle: the provider it is connected to and the token
    contract it is bound to. *)
Record Contract : Type := mkContract {
  clientUrl : string;
  boundTo : string
}.

(** The properties [price] and [USD] of a JSON value: one that is absent
    or null is [None]. *)
Record PriceObj : Type := mkPriceObj {
  po_price : option JS.Number;
  po_USD : option JS.Number
}.

(** What [req.json()] resolves with: [null], whose properties cannot be
    read, or a value with its properties [price] and [USD] (a JSON number,
    string, boolean or array has neither). *)
Inductive Json : Type :=
  | JsonNull
  | JsonValue (o : PriceObj).

Record World : Type := mkWorld {
  call_symbol : string → option string;
  call_ticker : string → option string;
  (** the bytes32 symbol after hexToAscii and the removal of NULs *)
  call_symbol32 : string → option string;
  call_decimals : string → option nat;
  (** status and body of a response; the body is [None] when [req.json()]
      throws *)
  fetch : string → option (nat * option Json);
  call_balanceOf : Contract → string → nat → option Z;
  (** [token.methods.balanceOf(address)] throws: web3 does not accept the
      argument, and no call is made *)
  balanceOf_throws : Contract → string → bool
}.

(** What the program asks of the outside, in the order it asks. *)
Inductive Event : Type :=
  | CallSymbol (token : string)
  | CallTicker (token : string)
  | CallSymbol32 (token : string)
  | CallDecimals (token : string)
  | Fetch (url : string)
  | BalanceOf (token : Contract) (address : string)
  | SetTimeout (ms : nat).

Definition is_balance_query (e : Event) : bool :=
  match e with BalanceOf _ _ => true | _ => false end.

(** The constants of [./const] and the environment the module reads when
    it is loaded. *)
Record Config : Type := mkConfig {
  chain : string;
  ethRpcArray : list string;
  excludedMap : gmap string (list string)
}.

(** ** getTokenInfo (lines 58-139) *)

(** [!ticker] *)
Definition falsy (t : option string) : bool :=
  match t with
  | None | Some EmptyString => true
  | Some _ => false
  end.

Definition absolutewallet_url (cfg : Config) (contractAddress : string) : string :=
  "https://api-data.absolutewallet.com/api/v1/currencies/minimal/"
  +:+ chain cfg +:+ "/" +:+ contractAddress +:+ "?fiat=USD".

Definition cryptocompare_url (tick : option string) : string :=
  "https://min-api.cryptocompare.com/data/price?fsym="
  +:+ default "undefined" tick +:+ "&tsyms=USD".

(** [try { const req = await fetch(url); if (req.status === 200)
    priceObj = await req.json() } catch (e) {}] *)
Definition try_fetch (W : World) (url : string) (priceObj : Json) : Json :=
  match fetch W url with
  | Some (status, Some body) => if (status =? 200)%nat then body else priceObj
  | _ => priceObj
  end.

(** [x === 0] *)
Definition is_zero (x : option JS.Number) : bool :=
  match x with Some (JS.Finite 0) => true | _ => false end.

(** [priceObj['price'] ?? priceObj['USD'] ?? 0] *)
Definition price_of (priceObj : PriceObj) : JS.Number :=
  match po_price priceObj with
  | Some p => p
  | None => default (JS.Finite 0) (po_USD priceObj)
  end.

(** The symbol lookups (lines 63-95): [symbol()], then [ticker()] and the
    bytes32 [symbol()] while the ticker is falsy.  The result is the
    ticker, [validToken] and the calls made. *)
Definition read_ticker (W : World) (contractAddress : string)
    : option string * option bool * list Event :=
  let '(ticker, validToken) :=
    match call_symbol W contractAddress with
    | Some t => (Some t, Some true)
    | None => (None, None)
    end in
  let t1 := [CallSymbol contractAddress] in
  let '(ticker, validToken, t2) :=
    if falsy ticker then
      match call_ticker W contractAddress with
      | Some t => (Some t, Some true, [CallTicker contractAddress])
      | None => (ticker, validToken, [CallTicker contractAddress])
      end
    else (ticker, validToken, []) in
  let '(ticker, validToken, t3) :=
    if falsy ticker then
      match call_symbol32 W contractAddress with
      | Some t => (Some t, Some true, [CallSymbol32 contractAddress])
      | None => (Some "unknown", Some false, [CallSymbol32 contractAddress])
      end
    else (ticker, validToken, []) in
  (ticker, validToken, t1 ++ t2 ++ t3).

(** The price requests (lines 103-130) and the reads of [priceObj] outside
    the [try] blocks: [priceObj.price] at line 119 and
    [priceObj['price']] in the returned object throw a TypeError when
    [priceObj] is [null], which rejects the promise of [getTokenInfo].
    The result is the price, if it can be read, and the requests made. *)
Definition read_price (cfg : Config) (W : World) (contractAddress : string)
    (ticker : option string) (validToken : option bool)
    : option JS.Number * list Event :=
  let priceObj := JsonValue (mkPriceObj (Some (JS.Finite 0)) (Some (JS.Finite 0))) in
  let '(priceObj, t) :=
    match validToken with
    | Some true =>
        let url1 := absolutewallet_url cfg contractAddress in
        match try_fetch W url1 priceObj with
        | JsonNull => (JsonNull, [Fetch url1])
        | JsonValue o =>
            if is_zero (po_price o) then
              let url2 := cryptocompare_url ticker in
              (try_fetch W url2 (JsonValue o), [Fetch url1; Fetch url2])
            else (JsonValue o, [Fetch url1])
        end
    | _ => (priceObj, [])
    end in
  match priceObj with
  | JsonNull => (None, t)
  | JsonValue o => (Some (price_of o), t)
  end.

Definition getTokenInfo (cfg : Config) (W : World) (contractAddress : string)
    : Outcome TokenInfo * list Event :=
  let '(ticker, validToken, t1) := read_ticker W contractAddress in
  let decimals :=
    match call_decimals W contractAddress with
    | Some d => d
    | None => 18%nat
    end in
  let '(price, t2) := read_price cfg W contractAddress ticker validToken in
  let t := t1 ++ [CallDecimals contractAddress] ++ t2 in
  match price with
  | None => (Rejected, t)
  | Some price =>
      (Fulfilled {| address := contractAddress;
                    ticker := ticker;
                    valid := validToken;
                    (* Number(decimals) || 18 *)
                    decimals := if (decimals =? 0)%nat then 18%nat else decimals;
                    price := price |},
       t)
  end.

(** ** getBalanceOf (lines 148-153) *)

(** [token.methods.balanceOf(address).call(...)] is evaluated first: when
    web3 does not accept the argument it throws before there is a promise
    to attach [.catch] to, no call is made, and the promise of
    [getBalanceOf] is rejected.  Otherwise the promise of the call is
    awaited; when it rejects, the handler calls [getBalanceOf] again with
    the same token and address, and its result is the result of that
    call.  [fuel] bounds the number of calls the model follows: after
    [fuel] failed calls the promise is still [Pending]. *)
Fixpoint getBalanceOf (W : World) (fuel : nat) (token : Contract) (address : string)
    (attempt : nat) : Outcome Z * list Event :=
  match fuel with
  | O => (Pending, [])
  | S fuel' =>
      if balanceOf_throws W token address then (Rejected, [])
      else
        match call_balanceOf W token address attempt with
        | Some balance => (Fulfilled balance, [BalanceOf token address])
        | None =>
            let '(r, t) := getBalanceOf W fuel' token address (S attempt) in
            (r, BalanceOf token address :: t)
        end
  end.

(** ** The store of arrays

    The address lists ([contractList], [localList], [taskQueue]) are
    JavaScript arrays: objects passed by reference and changed in place by
    [splice] and [shift].  They live in a heap; [[...a]] allocates a new
    array with the elements of [a]. *)
Definition loc : Type := nat.
Abbreviation Heap := (gmap nat (list string)).

Definition spread (h : Heap) (a : loc) : Heap * loc :=
  let l := fresh (dom h) in (<[l := h !!! a]> h, l).

(** [a.indexOf(x)], [None] for -1. *)
Fixpoint Array_indexOf (a : list string) (x : string) : option nat :=
  match a with
  | [] => None
  | y :: a' => if String.eqb y x then Some O else S <$> Array_indexOf a' x
  end.

(** [a.splice(index, 1)] *)
Definition Array_splice1 (a : list string) (index : nat) : list string :=
  delete index a.

(** ** The worker pool: distributeTasks, findAvailableWorker and
    executeTask (lines 164-226)

    The three functions are asynchronous and share the workers' [isBusy]
    flags.  The model is a machine whose state holds the distributor's
    variables, the balance queries in flight and the promises pushed on
    [completedTasks]; the event loop chooses what runs next: the
    distributor ([Resume]) or the handler of a settled balanceOf call
    ([Response j], for the j-th query in flight).

    [executeTask] resolves its promise and clears [isBusy] in the [then]
    of [getBalanceOf] only.  When [getBalanceOf] is rejected (web3 does
    not accept the address) there is no call to settle: the query stays
    in flight for ever, its worker busy and its promise pending. *)

Record Worker : Type := mkWorker {
  token : Contract;
  isBusy : bool
}.

(** The closure of a running [executeTask(worker, address)]: its worker
    (by position in [workers]), the position of its promise in
    [completedTasks], its address, and the number of failed calls. *)
Record Query : Type := mkQuery {
  q_worker : nat;
  q_slot : nat;
  q_address : string;
  q_attempt : nat
}.

(** Where the distributor is suspended: before a poll of the workers (the
    loop test and [findAvailableWorker], or its timer), with the index the
    poll resolved, or returned. *)
Inductive Control : Type :=
  | Polling
  | Found (availableWorkerIndex : nat)
  | Returned (balances : list Z).

Record State : Type := mkState {
  heap : Heap;
  taskQueue : loc;
  workers : list Worker;
  completedTasks : list (option Z);
  inflight : list Query;
  ctl : Control;
  trace : list Event
}.

Inductive Tick : Type :=
  | Resume
  | Response (j : nat).

(** [workers.findIndex(worker => !worker.isBusy)], [None] for -1. *)
Definition findIndex_idle (ws : list Worker) : option nat :=
  fst <$> list_find (λ w, isBusy w = false) ws.

(** [await Promise.all(completedTasks)]: the values, once every promise
    is resolved. *)
Definition Promise_all (ps : list (option Z)) : option (list Z) := mapM id ps.

Definition set_busy (b : bool) (w : Worker) : Worker := mkWorker (token w) b.

(** The distributor runs until it is suspended again.  Suspended on the
    poll: the loop ends on an empty queue and the promises are awaited;
    otherwise the poll resolves an idle worker's index or sets the timer.
    Suspended with an index: the task is shifted from the queue and
    [executeTask] marks the worker busy, issues the call (unless web3
    does not accept the address) and leaves its promise, which is pushed
    last on [completedTasks]. *)
Definition resume (W : World) (s : State) : option State :=
  match ctl s with
  | Polling =>
      match heap s !!! taskQueue s with
      | [] =>
          balances ← Promise_all (completedTasks s);
          Some (mkState (heap s) (taskQueue s) (workers s) (completedTasks s)
                        (inflight s) (Returned balances) (trace s))
      | _ :: _ =>
          match findIndex_idle (workers s) with
          | Some index =>
              Some (mkState (heap s) (taskQueue s) (workers s) (completedTasks s)
                            (inflight s) (Found index) (trace s))
          | None =>
              Some (mkState (heap s) (taskQueue s) (workers s) (completedTasks s)
                            (inflight s) Polling (trace s ++ [SetTimeout 10]))
          end
      end
  | Found index =>
      match heap s !!! taskQueue s, workers s !! index with
      | task :: rest, Some worker =>
          Some (mkState (<[taskQueue s := rest]> (heap s)) (taskQueue s)
                        (<[index := set_busy true worker]> (workers s))
                        (completedTasks s ++ [None])
                        (inflight s ++
                           [mkQuery index (length (completedTasks s)) task 0])
                        Polling
                        (trace s ++
                           if balanceOf_throws W (token worker) task then []
                           else [BalanceOf (token worker) task]))
      | _, _ => None
      end
  | Returned _ => None
  end.

(** The call of the j-th query in flight settles (there is none to settle
    when web3 did not accept the address).  Rejected: the handler calls
    [getBalanceOf] again, which issues the call again.  Fulfilled:
    [executeTask] marks its worker idle and resolves its promise. *)
Definition response (W : World) (j : nat) (s : State) : option State :=
  q ← inflight s !! j;
  worker ← workers s !! q_worker q;
  if balanceOf_throws W (token worker) (q_address q) then None else
  match call_balanceOf W (token worker) (q_address q) (q_attempt q) with
  | None =>
      Some (mkState (heap s) (taskQueue s) (workers s) (completedTasks s)
                    (<[j := mkQuery (q_worker q) (q_slot q) (q_address q)
                                      (S (q_attempt q))]> (inflight s))
                    (ctl s)
                    (trace s ++ [BalanceOf (token worker) (q_address q)]))
  | Some balance =>
      Some (mkState (heap s) (taskQueue s)
                    (<[q_worker q := set_busy false worker]> (workers s))
                    (<[q_slot q := Some balance]> (completedTasks s))
                    (delete j (inflight s))
                    (ctl s) (trace s))
  end.

Definition step (W : World) (t : Tick) (s : State) : option State :=
  match t with
  | Resume => resume W s
  | Response j => response W j s
  end.

(** A schedule is the list of choices of the event loop; a choice that
    cannot run (nothing to resume, no such query) is skipped. *)
Definition run (W : World) (schedule : list Tick) (s : State) : State :=
  fold_left (λ s t, default s (step W t s)) schedule s.

(** The state in which [distributeTasks(workers, contractList)] starts:
    [taskQueue] is a copy of the list, [completedTasks] is empty. *)
Definition distribute_init (h : Heap) (ws : list Worker) (contractList : loc)
    : State :=
  let '(h', taskQueue) := spread h contractList in
  mkState h' taskQueue ws [] [] Polling [].

Definition distributeTasks (W : World) (schedule : list Tick) (h : Heap)
    (ws : list Worker) (contractList : loc) : State :=
  run W schedule (distribute_init h ws contractList).

(** The value of the promise [distributeTasks] returned, if resolved. *)
Definition returned (s : State) : option (list Z) :=
  match ctl s with
  | Returned balances => Some balances
  | _ => None
  end.

(** ** findBalances (lines 236-272) *)

(** One worker per endpoint of [ethRpcArray] on chain 'eth', otherwise a
    single worker on the caller's connection [web3] (its provider URL). *)
Definition make_workers (cfg : Config) (web3 : string) (tokenObject : TokenInfo)
    : list Worker :=
  if String.eqb (chain cfg) "eth" then
    map (λ rpc, mkWorker (mkContract rpc (address tokenObject)) false)
        (ethRpcArray cfg)
  else [mkWorker (mkContract web3 (address tokenObject)) false].

Definition findBalances (cfg : Config) (W : World) (schedule : list Tick)
    (web3 : string) (h : Heap) (contractList : loc) (tokenObject : TokenInfo)
    : Outcome (list BalanceRecord) * Heap * list Event :=
  let workers := make_workers cfg web3 tokenObject in
  let s := distributeTasks W schedule h workers contractList in
  match returned s with
  | None => (Pending, heap s, trace s)
  | Some balances =>
      match aggregate tokenObject (heap s !!! contractList) balances with
      | Some records => (Fulfilled records, heap s, trace s)
      | None => (Rejected, heap s, trace s)
      end
  end.

(** The value of a fulfilled promise. *)
Definition fulfilled {A} (o : Outcome A) : option A :=
  match o with
  | Fulfilled a => Some a
  | _ => None
  end.

(** ** processOneToken (lines 284-320) *)

(** One turn of the loop [for (let ex of excluded)] on the array. *)
Definition exclude_one (localList : list string) (ex : string) : list string :=
  match Array_indexOf localList ex with
  | Some index => Array_splice1 localList index
  | None => localList
  end.

(** The same turn on the heap: [localList] is changed in place. *)
Definition exclude_in_place (localList : loc) (h : Heap) (ex : string) : Heap :=
  <[localList := exclude_one (h !!! localList) ex]> h.

(** [let localList = [...contractList]] and the exclusion loop: the heap
    and the working list the scan goes on with. *)
Definition working_list (cfg : Config) (h : Heap) (contractList : loc)
    (tokenAddress : string) : Heap * loc :=
  let '(h1, localList) := spread h contractList in
  match excludedMap cfg !! tokenAddress with
  | Some excluded => (fold_left (exclude_in_place localList) excluded h1, localList)
  | None => (h1, localList)
  end.

(** The array the scan goes on with. *)
Definition working_array (cfg : Config) (h : Heap) (contractList : loc)
    (tokenAddress : string) : list string :=
  (working_list cfg h contractList tokenAddress).1
    !!! (working_list cfg h contractList tokenAddress).2.

(** [!tokenObject.valid] *)
Definition not_valid (tokenObject : TokenInfo) : bool :=
  match valid tokenObject with
  | Some true => false
  | _ => true
  end.

Definition processOneToken (cfg : Config) (W : World) (schedule : list Tick)
    (web3 : string) (h : Heap) (contractList : loc) (tokenAddress : string)
    : Outcome ScanResult * Heap * list Event :=
  match getTokenInfo cfg W tokenAddress with
  | (Fulfilled tokenObject, t1) =>
      let '(h2, localList) := working_list cfg h contractList tokenAddress in
      if not_valid tokenObject then
        (Fulfilled (mkScanResult tokenAddress None 18 (JS.Finite 0) []), h2, t1)
      else
        let '(results, h3, t2) :=
          findBalances cfg W schedule web3 h2 localList tokenObject in
        match results with
        | Fulfilled results =>
            (Fulfilled (mkScanResult tokenAddress (ticker tokenObject)
                                     (decimals tokenObject) (price tokenObject)
                                     results), h3, t1 ++ t2)
        | Rejected => (Rejected, h3, t1 ++ t2)
        | Pending => (Pending, h3, t1 ++ t2)
        end
  | (Rejected, t1) => (Rejected, h, t1)
  | (Pending, t1) => (Pending, h, t1)
  end.

(** Number of elements of [l] equal to [a]. *)
Abbreviation occurrences a l := (count_occ String.string_dec l a).

(** ** checkEthAddress and parseAddress (lines 12-33)

    A string is the sequence of its code units, all below 256 here. *)

(** [web3.utils]: [toChecksumAddress] returns the checksummed address or
    throws ([None]). *)
Record Web3Utils : Type := mkWeb3Utils {
  toChecksumAddress : string → option string
}.

Definition checkEthAddress (web3 : Web3Utils) (address : string) : bool :=
  match toChecksumAddress web3 address with
  | Some _ => true
  | None => false
  end.

(** The separators of /\n|;|,|;\n|,\n/: a line feed, a semicolon or a
    comma.  The alternatives are tried from the left, so the last two
    never match: their first character already does. *)
Definition is_separator (c : ascii) : bool :=
  let n := nat_of_ascii c in
  (n =? 10)%nat || (n =? 59)%nat || (n =? 44)%nat.

(** [s.split(re)] for a regular expression that matches exactly the
    characters of [sep]: the pieces between the matches, never empty as a
    list. *)
Fixpoint String_split (sep : ascii → bool) (s : string) : list string :=
  match s with
  | EmptyString => [EmptyString]
  | String c s' =>
      if sep c then EmptyString :: String_split sep s'
      else match String_split sep s' with
           | p :: ps => String c p :: ps
           | [] => [String c EmptyString]
           end
  end.

(** White space and line terminators among the code units below 256: TAB,
    LF, VT, FF, CR, space and the no-break space. *)
Definition is_whitespace (c : ascii) : bool :=
  let n := nat_of_ascii c in
  ((9 <=? n)%nat && (n <=? 13)%nat) || (n =? 32)%nat || (n =? 160)%nat.

Fixpoint trim_start (s : string) : string :=
  match s with
  | String c s' => if is_whitespace c then trim_start s' else s
  | EmptyString => EmptyString
  end.

Fixpoint trim_end (s : string) : string :=
  match s with
  | String c s' =>
      match trim_end s' with
      | EmptyString => if is_whitespace c then EmptyString
                       else String c EmptyString
      | r => String c r
      end
  | EmptyString => EmptyString
  end.

(** [s.trim()] *)
Definition String_trim (s : string) : string := trim_end (trim_start s).

(** [a.join('\n')] *)
Fixpoint join_lines (a : list string) : string :=
  match a with
  | [] => EmptyString
  | [x] => x
  | x :: a' => x +:+ nl +:+ join_lines a'
  end.

(** The loop of [parseAddress]: the trimmed pieces [checkEthAddress]
    accepts, in order. *)
Fixpoint accepted (web3 : Web3Utils) (pieces : list string) : list string :=
  match pieces with
  | [] => []
  | l :: pieces' =>
      let name := String_trim l in
      if checkEthAddress web3 name then name :: accepted web3 pieces'
      else accepted web3 pieces'
  end.

Definition parseAddress (web3 : Web3Utils) (address : string) : string :=
  join_lines (accepted web3 (String_split is_separator address)).

Arguments is_whitespace : simpl never.
Arguments is_separator : simpl never.

(** No character of [s] satisfies [p]. *)
Fixpoint free_of (p : ascii → bool) (s : string) : Prop :=
  match s with
  | EmptyString => True
  | String c s' => p c = false ∧ free_of p s'
  end.

(** [s] with every separator replaced by a line feed. *)
Fixpoint with_line_feeds (s : string) : string :=
  match s with
  | EmptyString => EmptyString
  | String c s' =>
      String (if is_separator c then ascii_of_nat 10 else c) (with_line_feeds s')
  end.

(** ** Orders on numbers and records *)

(** The values [Number(b)] takes on BigInts that are not negative: the
    doubles that are not negative, and +Infinity. *)
Definition is_amount (x : JS.Number) : Prop :=
  match x with
  | JS.Finite k => 0 ≤ k
  | JS.Infinity negative => negative = false
  | JS.NaN => False
  end.

(** [a] does not come after [b] in descending order of roundedAmount. *)
Definition descending (a b : BalanceRecord) : Prop :=
  JS.ltb (roundedAmount a) (roundedAmount b) = false.

(** The double [x] is exactly the rational n/d. *)
Definition exact_quotient (x : JS.Number) (n d : Z) : Prop :=
  ∃ k, x = JS.Finite k ∧ k * d = n * 2 ^ JS.quantum_bits.

(** The sum of the raw amounts of the records, as an integer. *)
Definition total_amount (rs : list BalanceRecord) : Z :=
  foldr Z.add 0 (amount <$> rs).

(** ** The parts of a formatted number and the lines of a report *)

Definition is_dot (c : ascii) : bool := Ascii.eqb c ".".

(** The lines of the records of a report, in the order of the records. *)
Fixpoint record_lines (tick : string) (rs : list BalanceRecord) : string :=
  match rs with
  | [] => EmptyString
  | r :: rs' => record_line tick r +:+ nl +:+ record_lines tick rs'
  end.

(** ** Invariants of the worker pool *)

(** The balance query of contract handle [c] for address [a] settles with
    [v]: the call is made, fails some number of times and then answers
    [v]. *)
Definition settles (W : World) (c : Contract) (a : string) (v : Z) : Prop :=
  balanceOf_throws W c a = false
  ∧ ∃ M, (∀ k, (k < M)%nat → call_balanceOf W c a k = None)
         ∧ call_balanceOf W c a M = Some v.

(** What holds in every state of a run of [distributeTasks] over the
    addresses [input] with the workers [ws]. *)
Record pool_inv (W : World) (input : list string) (ws : list Worker)
    (s : State) : Prop := mkPoolInv {
  inv_tokens : token <$> workers s = token <$> ws;
  inv_queue : heap s !!! taskQueue s = drop (length (completedTasks s)) input;
  inv_len : (length (completedTasks s) ≤ length input)%nat;
  inv_slots : NoDup (q_slot <$> inflight s);
  inv_workers : NoDup (q_worker <$> inflight s);
  inv_query : ∀ q, q ∈ inflight s →
    input !! q_slot q = Some (q_address q)
    ∧ completedTasks s !! q_slot q = Some None
    ∧ ∃ w, workers s !! q_worker q = Some w ∧ isBusy w = true
           ∧ ∀ k, (k < q_attempt q)%nat →
                  call_balanceOf W (token w) (q_address q) k = None;
  inv_pending : ∀ i, completedTasks s !! i = Some None →
    ∃ q, q ∈ inflight s ∧ q_slot q = i;
  inv_resolved : ∀ i v, completedTasks s !! i = Some (Some v) →
    ∃ a c, input !! i = Some a ∧ c ∈ token <$> ws ∧ settles W c a v;
  inv_found : ∀ i, ctl s = Found i →
    heap s !!! taskQueue s ≠ []
    ∧ ∃ w, workers s !! i = Some w ∧ isBusy w = false;
  inv_returned : ∀ balances, ctl s = Returned balances →
    Promise_all (completedTasks s) = Some balances
    ∧ length (completedTasks s) = length input
}.

(** A worker is busy only while a query of its own is in flight. *)
Definition busy_inv (s : State) : Prop :=
  ∀ i w, workers s !! i = Some w → isBusy w = true →
         ∃ q, q ∈ inflight s ∧ q_worker q = i.

(** Every query in flight was issued: web3 accepted its address. *)
Definition issued (W : World) (s : State) : Prop :=
  ∀ q w, q ∈ inflight s → workers s !! q_worker q = Some w →
         balanceOf_throws W (token w) (q_address q) = false.

(** Every balance query of the pool over the list is made and answered in
    the end. *)
Definition responsive (W : World) (ws : list Worker) (input : list string) : Prop :=
  ∀ w a, w ∈ ws → a ∈ input →
         balanceOf_throws W (token w) a = false
         ∧ ∃ M, is_Some (call_balanceOf W (token w) a M).

(** ** Digit strings and the groups the commas cut them into *)

Fixpoint digits_only (s : string) : bool :=
  match s with
  | EmptyString => true
  | String c s' => Str.is_digit c && digits_only s'
  end.

Definition is_comma (c : ascii) : bool := Ascii.eqb c ",".

(** ** Requests of the worker pool *)

(** What a run of [distributeTasks] over the workers [ws] and the
    addresses [input] may ask: the balance of an address of the list from
    a contract handle of the pool, or the 10 ms timer of the poll. *)
Definition pool_event (ws : list Worker) (input : list string) (e : Event)
    : Prop :=
  match e with
  | BalanceOf c a => c ∈ token <$> ws ∧ a ∈ input
  | SetTimeout ms => ms = 10%nat
  | _ => False
  end.

(** A balance query that was made: web3 accepted its address. *)
Definition issued_event (W : World) (e : Event) : Prop :=
  match e with
  | BalanceOf c a => balanceOf_throws W c a = false
  | _ => True
  end.

(** The address a balance query asks for. *)
Definition queried_address (e : Event) : option string :=
  match e with
  | BalanceOf _ a => Some a
  | _ => None
  end.

(** The URL a price request goes to. *)
Definition fetched_url (e : Event) : option string :=
  match e with
  | Fetch url => Some url
  | _ => None
  end.

(** ** Worlds, configurations and inputs used to exercise the theorems *)
Module Sample.

(** An endpoint that rejects the first two calls of every balance query
    and then reports a balance that depends on the address only. *)
Definition balance_of (a : string) : Z := Z.of_nat (String.length a) * 10 ^ 18.

Definition flaky : World :=
  mkWorld (λ _, Some "TKN") (λ _, None) (λ _, None) (λ _, None) (λ _, None)
          (λ _ a k, if (k <? 2)%nat then None else Some (balance_of a))
          (λ _ _, false).

(** Endpoints that answer 7 at once, behind a web3 that accepts only
    addresses of three characters. *)
Definition picky : World :=
  mkWorld (λ _, Some "TKN") (λ _, None) (λ _, None) (λ _, None) (λ _, None)
          (λ _ _ _, Some 7)
          (λ _ a, negb (String.length a =? 3)%nat).

(** A contract none of whose symbol lookups answers. *)
Definition silent : World :=
  mkWorld (λ _, None) (λ _, None) (λ _, None) (λ _, Some 6%nat) (λ _, None)
          (λ _ _ _, Some 1) (λ _ _, false).

Definition rpc1 : Contract := mkContract "https://rpc.one" "0xT".

Definition cfg : Config :=
  mkConfig "eth" ["https://rpc.one"; "https://rpc.two"]
           {[ "0xT" := ["0xb"; "0xd"] ]}.

(** The same configuration with the exclusions listed the other way. *)
Definition cfg_swapped : Config :=
  mkConfig "eth" ["https://rpc.one"; "https://rpc.two"]
           {[ "0xT" := ["0xd"; "0xb"] ]}.

Definition addresses : list string := ["0xa"; "0xb"; "0xc"; "0xb"].

Definition store : Heap := {[ 0%nat := addresses ]}.

(** A list whose second address web3 does not accept. *)
Definition mixed : Heap := {[ 0%nat := ["0xa"; "0x"; "0xc"] ]}.

Definition pool : list Worker :=
  [mkWorker rpc1 false; mkWorker (mkContract "https://rpc.two" "0xT") false].

(** Endpoints that never answer for the address 0xc. *)
Definition deaf : World :=
  mkWorld (λ _, Some "TKN") (λ _, None) (λ _, None) (λ _, None) (λ _, None)
          (λ _ a _, if String.eqb a "0xc" then None else Some 1)
          (λ _ _, false).

(** Both workers take a task; the second worker's three calls settle
    before the first worker's; then the two remaining addresses are
    served the same way. *)
Definition out_of_order : list Tick :=
  [Resume; Resume; Resume; Resume;
   Response 1; Response 1; Response 1; Response 0; Response 0; Response 0;
   Resume; Resume; Resume; Resume;
   Response 1; Response 1; Response 1; Response 0; Response 0; Response 0;
   Resume].

(** The same, the first worker's calls settling first. *)
Definition in_order : list Tick :=
  [Resume; Resume; Resume; Resume;
   Response 0; Response 0; Response 0; Response 0; Response 0; Response 0;
   Resume; Resume; Resume; Resume;
   Response 0; Response 0; Response 0; Response 0; Response 0; Response 0;
   Resume].

(** A chain with a single endpoint, a ledger of four balances, and the
    schedule that serves the addresses one after the other. *)
Definition clo : Config := mkConfig "clo" [] ∅.

Definition ledger : World :=
  mkWorld (λ _, Some "TKN") (λ _, None) (λ _, None) (λ _, None) (λ _, None)
          (λ _ a _, if String.eqb a "0xa" then Some 5
                    else if String.eqb a "0xb" then Some 0
                    else if String.eqb a "0xc" then Some 100
                    else Some 3)
          (λ _ _, false).

Definition four : Heap := {[ 0%nat := ["0xa"; "0xb"; "0xc"; "0xd"] ]}.

Definition sequential : list Tick :=
  [Resume; Resume; Response 0; Resume; Resume; Response 0;
   Resume; Resume; Response 0; Resume; Resume; Response 0; Resume].

(** A token with 0 decimals and price 1. *)
Definition unit_token : TokenInfo :=
  mkTokenInfo "0xT" (Some "TKN") (Some true) 0 (JS.ofBigInt 1).

(** A token with 309 decimals and price 1. *)
Definition huge_decimals : TokenInfo :=
  mkTokenInfo "0xT" (Some "TKN") (Some true) 309 (JS.ofBigInt 1).

(** A token with 18 decimals and price 1.5. *)
Definition ether_like : TokenInfo :=
  mkTokenInfo "0xT" (Some "TKN") (Some true) 18 (JS.div (JS.ofBigInt 3) (JS.ofBigInt 2)).

(** A token with 20 decimals and price 1.5: the balances of [flaky], a
    few units of 10^18, are dust. *)
Definition dust_token : TokenInfo :=
  mkTokenInfo "0xT" (Some "TKN") (Some true) 20 (JS.div (JS.ofBigInt 3) (JS.ofBigInt 2)).

Definition ledger_records : list BalanceRecord :=
  Eval vm_compute in
    default [] (fulfilled (findBalances clo ledger sequential "web3" four
                                        0%nat unit_token).1.1).

Definition dust_records : list BalanceRecord :=
  Eval vm_compute in
    default [] (fulfilled (findBalances cfg flaky out_of_order "web3" store
                                        0%nat dust_token).1.1).

(** The raw balances 1000000000000000001 and 2000000000000000002 of a
    token with 18 decimals, as [findBalances] aggregates them, and the
    scan result made of them. *)
Definition wei_records : list BalanceRecord :=
  Eval vm_compute in
    default [] (aggregate ether_like ["0xa"; "0xb"]
                          [1000000000000000001; 2000000000000000002]).

Definition wei_result : ScanResult :=
  mkScanResult "0xT" (Some "TKN") 18 (price ether_like) wei_records.

(** Two balances of one token and a half each. *)
Definition halves_records : list BalanceRecord :=
  Eval vm_compute in
    default [] (aggregate ether_like ["0xa"; "0xb"]
                          [1500000000000000000; 1500000000000000000]).

Definition halves_result : ScanResult :=
  mkScanResult "0xT" (Some "TKN") 18 (price ether_like) halves_records.

(** A single balance just below 1.29 tokens. *)
Definition below_129_records : list BalanceRecord :=
  Eval vm_compute in
    default [] (aggregate ether_like ["0xa"] [1289999999999999999]).

Definition below_129_result : ScanResult :=
  mkScanResult "0xT" (Some "TKN") 18 (price ether_like) below_129_records.

(** A token with 18 decimals whose price service answered the JSON number
    1e999, which is read as Infinity. *)
Definition unbounded : TokenInfo :=
  mkTokenInfo "0xT" (Some "TKN") (Some true) 18 (JS.Infinity false).

(** A token with 23 decimals and price 1, every holder of which has the
    balance 10^23 - 1; no price request is answered. *)
Definition deep : TokenInfo :=
  mkTokenInfo "0xT" (Some "TKN") (Some true) 23 (JS.ofBigInt 1).

Definition brim : World :=
  mkWorld (λ _, Some "TKN") (λ _, None) (λ _, None) (λ _, Some 23%nat)
          (λ _, None) (λ _ _ _, Some (10 ^ 23 - 1)) (λ _ _, false).

(** A token whose first price service answers with the status 200 and the
    body null. *)
Definition void : World :=
  mkWorld (λ _, Some "TKN") (λ _, None) (λ _, None) (λ _, None)
          (λ url, if String.eqb url (absolutewallet_url clo "0xT")
                  then Some (200%nat, Some JsonNull)
                  else None)
          (call_balanceOf ledger) (λ _ _, false).

(** The token of [unit_token] without a price, and its records. *)
Definition unpriced : TokenInfo :=
  mkTokenInfo "0xT" (Some "TKN") (Some true) 0 (JS.Finite 0).

Definition unpriced_records : list BalanceRecord :=
  Eval vm_compute in
    default [] (fulfilled (findBalances clo ledger sequential "web3" four
                                        0%nat unpriced).1.1).

(** The records of the token 0xT of [cfg], whose exclusions are 0xb and
    0xd, over [addresses]. *)
Definition excluded_records : list BalanceRecord :=
  Eval vm_compute in
    default [] (records <$> fulfilled
      (processOneToken cfg flaky out_of_order "web3" store 0%nat "0xT").1.1).

(** A token whose symbol() and ticker() fail and whose bytes32 symbol is
    made of NUL characters, with the ledger's balances. *)
Definition nameless : World :=
  mkWorld (λ _, None) (λ _, None) (λ _, Some "") (λ _, None) (λ _, None)
          (call_balanceOf ledger) (λ _ _, false).

(** A checksum that accepts the strings of three characters, and a pasted
    list with white space, the three separators and a rejected entry. *)
Definition utils : Web3Utils :=
  mkWeb3Utils (λ s, if (String.length s =? 3)%nat then Some s else None).

Definition pasted : string := " 0xa;0xb," +:+ nl +:+ "wrong, 0xc ".

(** The Number 1234.5678. *)
Definition fraction : JS.Number :=
  JS.div (JS.ofBigInt 12345678) (JS.ofBigInt 10000).

(** A price service that answers the first request with 2 dollars. *)
Definition priced : World :=
  mkWorld (λ _, Some "TKN") (λ _, None) (λ _, None) (λ _, Some 0%nat)
          (λ url, if String.eqb url (absolutewallet_url cfg "0xT")
                  then Some (200%nat,
                             Some (JsonValue (mkPriceObj (Some (JS.ofBigInt 2))
                                                         None)))
                  else None)
          (λ _ _ _, Some 1) (λ _ _, false).

End Sample.

(** * Properties *)

(** ** getBalanceOf *)

Lemma getBalanceOf_failing W token address fuel attempt :
  balanceOf_throws W token address = false →
  (∀ k, (attempt ≤ k < attempt + fuel)%nat →
        call_balanceOf W token address k = None) →
  getBalanceOf W fuel token address attempt
  = (Pending, repeat (BalanceOf token address) fuel).
Proof.
  intros Hbuilt. revert attempt.
  induction fuel as [|fuel IH]; intros attempt Hfail; [done|].
  simpl. rewrite Hbuilt, (Hfail attempt) by lia.
  rewrite IH; [done|]. intros k Hk. apply Hfail. lia.
Qed.

Lemma getBalanceOf_succeeds W token address M v fuel attempt :
  balanceOf_throws W token address = false →
  (∀ k, (attempt ≤ k < attempt + M)%nat →
        call_balanceOf W token address k = None) →
  call_balanceOf W token address (attempt + M) = Some v →
  (M < fuel)%nat →
  getBalanceOf W fuel token address attempt
  = (Fulfilled v, repeat (BalanceOf token address) (S M)).
Proof.
  intros Hbuilt. revert attempt fuel.
  induction M as [|M IH]; intros attempt fuel Hfail Hok Hfuel.
  - destruct fuel as [|fuel]; [lia|]. simpl. rewrite Hbuilt.
    replace (attempt + 0)%nat with attempt in Hok by lia. by rewrite Hok.
  - destruct fuel as [|fuel]; [lia|]. simpl.
    rewrite Hbuilt, (Hfail attempt) by lia.
    rewrite (IH (S attempt) fuel); [done| |by replace (S attempt + M)%nat
      with (attempt + S M)%nat by lia|lia].
    intros k Hk. apply Hfail. lia.
Qed.

Lemma getBalanceOf_not_rejected W token address fuel attempt :
  balanceOf_throws W token address = false →
  (getBalanceOf W fuel token address attempt).1 ≠ Rejected.
Proof.
  intros Hbuilt. revert attempt.
  induction fuel as [|fuel IH]; intros attempt; [done|].
  simpl. rewrite Hbuilt.
  destruct (call_balanceOf W token address attempt); [done|].
  specialize (IH (S attempt)).
  by destruct (getBalanceOf W fuel token address (S attempt)).
Qed.

(** The claim C3 as it is stated fails for an address web3 does not accept
    as the argument of balanceOf: [token.methods.balanceOf(address)]
    throws before [.catch] is attached, and [getBalanceOf] is rejected
    without a call and without a retry, whatever the calls would
    answer. *)
Lemma getBalanceOf_rejects_refused_address :
  balanceOf_throws Sample.picky Sample.rpc1 "0x" = true
  ∧ call_balanceOf Sample.picky Sample.rpc1 "0x" 0 = Some 7
  ∧ getBalanceOf Sample.picky 3 Sample.rpc1 "0x" 0 = (Rejected, []).
Proof. by split_and!. Qed.

(** C3. For an address web3 accepts as the argument of balanceOf: if the
    balanceOf call of a worker's contract handle for the address fails M
    times and then succeeds with v, [getBalanceOf] fulfils with v after
    exactly M + 1 calls, each of them a balanceOf call on that same
    handle and address with no timer in between; as long as the calls
    fail (forever, if they all do) the promise stays pending after any
    number of calls, and no run of [getBalanceOf] rejects. *)
Theorem getBalanceOf_retries_until_success W token address M fuel :
  balanceOf_throws W token address = false →
  (∀ k, (k < M)%nat → call_balanceOf W token address k = None) →
  (∀ v, call_balanceOf W token address M = Some v → (M < fuel)%nat →
        getBalanceOf W fuel token address 0
        = (Fulfilled v, repeat (BalanceOf token address) (S M)))
  ∧ ((fuel ≤ M)%nat →
        getBalanceOf W fuel token address 0
        = (Pending, repeat (BalanceOf token address) fuel))
  ∧ (getBalanceOf W fuel token address 0).1 ≠ Rejected.
Proof.
  intros Hbuilt Hfail. split; [|split].
  - intros v Hv Hfuel. apply getBalanceOf_succeeds; [done| |done|done].
    intros k Hk. apply Hfail. lia.
  - intros Hfuel. apply getBalanceOf_failing; [done|].
    intros k Hk. apply Hfail. lia.
  - by apply getBalanceOf_not_rejected.
Qed.

Lemma getBalanceOf_retries_witness :
  getBalanceOf Sample.flaky 5 Sample.rpc1 "0xa" 0
  = (Fulfilled (3 * 10 ^ 18), repeat (BalanceOf Sample.rpc1 "0xa") 3).
Proof.
  refine (proj1 (getBalanceOf_retries_until_success
                   Sample.flaky Sample.rpc1 "0xa" 2 5 _ _) _ _ _).
  - reflexivity.
  - intros k Hk. simpl. destruct k as [|[|k]]; [reflexivity|reflexivity|lia].
  - reflexivity.
  - lia.
Defined.

(** ** Arrays and the exclusion loop *)

Lemma Array_indexOf_Some (a : list string) x i :
  Array_indexOf a x = Some i → a !! i = Some x.
Proof.
  revert i. induction a as [|y a IH]; intros i; simpl; [done|].
  destruct (String.eqb_spec y x) as [->|Hne].
  - by intros [= <-].
  - destruct (Array_indexOf a x) as [j|]; simpl; [|done].
    intros [= <-]. by apply IH.
Qed.

Lemma Array_indexOf_None (a : list string) x :
  Array_indexOf a x = None → x ∉ a.
Proof.
  induction a as [|y a IH]; simpl; [intros _; apply not_elem_of_nil|].
  destruct (String.eqb_spec y x) as [->|Hne]; [done|].
  destruct (Array_indexOf a x); simpl; [done|].
  intros _ [->|Hin]%elem_of_cons; [done|by apply IH].
Qed.

Lemma occurrences_notin a (l : list string) : a ∉ l → occurrences a l = 0%nat.
Proof. rewrite list_elem_of_In. apply count_occ_not_In. Qed.

Lemma occurrences_delete (l : list string) i x a :
  l !! i = Some x →
  occurrences a (delete i l)
  = if decide (a = x) then pred (occurrences a l) else occurrences a l.
Proof.
  revert i. induction l as [|y l IH]; intros [|i] Hi; simplify_eq/=.
  - destruct (String.string_dec x a), (decide (a = x)); simplify_eq/=; done.
  - rewrite (IH i Hi).
    destruct (String.string_dec y a) as [->|], (decide (a = x)) as [->|];
      try done.
    assert (0 < occurrences x l)%nat; [|lia].
    apply count_occ_In, list_elem_of_In. eapply list_elem_of_lookup_2, Hi.
Qed.

Lemma exclude_one_occurrences (l : list string) ex a :
  occurrences a (exclude_one l ex)
  = if decide (a = ex) then pred (occurrences a l) else occurrences a l.
Proof.
  unfold exclude_one, Array_splice1.
  destruct (Array_indexOf l ex) as [i|] eqn:Hi.
  - by apply occurrences_delete, Array_indexOf_Some.
  - apply Array_indexOf_None in Hi. case_decide as Ha; [|done].
    subst. by rewrite occurrences_notin.
Qed.

Lemma exclude_all_occurrences excluded (l : list string) a :
  occurrences a (fold_left exclude_one excluded l)
  = (occurrences a l - occurrences a excluded)%nat.
Proof.
  revert l. induction excluded as [|ex excluded IH]; intros l; simpl; [lia|].
  rewrite IH, exclude_one_occurrences.
  destruct (String.string_dec ex a), (decide (a = ex)); try congruence; lia.
Qed.

Lemma exclude_one_sublist (l : list string) ex : exclude_one l ex `sublist_of` l.
Proof.
  unfold exclude_one, Array_splice1.
  destruct (Array_indexOf l ex); [apply sublist_delete|done].
Qed.

Lemma exclude_all_sublist excluded (l : list string) :
  fold_left exclude_one excluded l `sublist_of` l.
Proof.
  revert l. induction excluded as [|ex excluded IH]; intros l; simpl; [done|].
  etrans; [apply IH|apply exclude_one_sublist].
Qed.

Lemma occurrences_NoDup a (l : list string) :
  NoDup l → occurrences a l = if decide (a ∈ l) then 1%nat else 0%nat.
Proof.
  induction 1 as [|x l Hx _ IH].
  { rewrite decide_False; [done|apply not_elem_of_nil]. }
  destruct (String.string_dec x a) as [->|Hne].
  - rewrite count_occ_cons_eq, occurrences_notin by done.
    rewrite decide_True; [done|apply elem_of_cons; by left].
  - rewrite count_occ_cons_neq, IH by done. destruct (decide (a ∈ l)).
    + rewrite decide_True; [done|apply elem_of_cons; by right].
    + rewrite decide_False; [done|].
      intros [->|Hin]%elem_of_cons; done.
Qed.

(** *** The same on the heap *)

Lemma spread_fresh (h : Heap) a : (spread h a).2 ∉ dom h.
Proof. apply is_fresh. Qed.

Lemma spread_copy (h : Heap) a : (spread h a).1 !!! (spread h a).2 = h !!! a.
Proof. unfold spread. simpl. apply lookup_total_insert_eq. Qed.

Lemma spread_frame (h : Heap) a l :
  is_Some (h !! l) → (spread h a).1 !! l = h !! l.
Proof.
  intros Hl. unfold spread. simpl. apply lookup_insert_ne.
  intros <-. by apply (is_fresh (dom h)), elem_of_dom.
Qed.

Lemma exclude_in_place_fold excluded localList (h : Heap) :
  fold_left (exclude_in_place localList) excluded h !!! localList
  = fold_left exclude_one excluded (h !!! localList)
  ∧ ∀ l, l ≠ localList →
      fold_left (exclude_in_place localList) excluded h !! l = h !! l.
Proof.
  revert h. induction excluded as [|ex excluded IH]; intros h; simpl; [done|].
  destruct (IH (exclude_in_place localList h ex)) as [-> Hframe]. split.
  - unfold exclude_in_place. by rewrite lookup_total_insert_eq.
  - intros l Hl. rewrite Hframe by done.
    unfold exclude_in_place. by rewrite lookup_insert_ne.
Qed.

Lemma working_array_eq cfg (h : Heap) contractList tokenAddress :
  working_array cfg h contractList tokenAddress
  = fold_left exclude_one (default [] (excludedMap cfg !! tokenAddress))
              (h !!! contractList).
Proof.
  unfold working_array, working_list.
  pose proof (spread_copy h contractList) as Hcopy.
  destruct (spread h contractList) as [h1 localList]. simpl in Hcopy.
  destruct (excludedMap cfg !! tokenAddress) as [excluded|]; simpl; [|done].
  by rewrite (proj1 (exclude_in_place_fold excluded localList h1)), Hcopy.
Qed.

Lemma working_list_frame cfg (h : Heap) contractList tokenAddress l :
  is_Some (h !! l) →
  (working_list cfg h contractList tokenAddress).1 !! l = h !! l.
Proof.
  intros Hl. unfold working_list.
  pose proof (spread_frame h contractList l Hl) as Hframe.
  pose proof (spread_fresh h contractList) as Hfresh.
  destruct (spread h contractList) as [h1 localList]. simpl in *.
  assert (l ≠ localList) by (intros ->; by apply Hfresh, elem_of_dom).
  destruct (excludedMap cfg !! tokenAddress) as [excluded|]; simpl; [|done].
  by rewrite (proj2 (exclude_in_place_fold excluded localList h1)).
Qed.



(** ** The worker pool *)

Lemma elem_of_delete_NoDup {A B} (f : A → B) (l : list A) j x y :
  NoDup (f <$> l) → l !! j = Some x →
  y ∈ delete j l ↔ y ∈ l ∧ f y ≠ f x.
Proof.
  intros Hnd Hj. rewrite delete_take_drop.
  rewrite <-(take_drop_middle l j x Hj) in Hnd.
  rewrite <-(take_drop_middle l j x Hj) at 3.
  rewrite fmap_app, fmap_cons in Hnd.
  apply NoDup_app in Hnd as (_ & Hdisj & [Hx _]%NoDup_cons).
  rewrite !elem_of_app, elem_of_cons. split.
  - intros [Hy|Hy]; (split; [tauto|]); intros Heq.
    + apply (Hdisj (f y)); [by apply list_elem_of_fmap_2|].
      rewrite Heq. apply elem_of_cons; by left.
    + apply Hx. rewrite <-Heq. by apply list_elem_of_fmap_2.
  - intros [[Hy|[->|Hy]] Hne]; tauto.
Qed.

Lemma elem_of_insert_inv {A} (l : list A) j x y :
  y ∈ <[j:=x]> l → y = x ∨ y ∈ l.
Proof.
  intros [i Hi]%list_elem_of_lookup.
  apply list_lookup_insert_Some in Hi as [(-> & -> & _)|[_ Hi]]; [by left|].
  right. by eapply list_elem_of_lookup_2.
Qed.

Lemma Promise_all_resolved (ps : list (option Z)) balances i :
  Promise_all ps = Some balances → ps !! i ≠ Some None.
Proof.
  intros Hall%mapM_Some_1 Hi.
  destruct (Forall2_lookup_l _ _ _ _ _ Hall Hi) as (v & _ & Hv). done.
Qed.

Lemma drop_cons_inv {A} (l : list A) n x rest :
  drop n l = x :: rest →
  l !! n = Some x ∧ drop (S n) l = rest ∧ (n < length l)%nat.
Proof.
  intros Hd.
  assert (Hn : l !! n = Some x).
  { rewrite <-(Nat.add_0_r n), <-lookup_drop. by rewrite Hd. }
  split; [done|]. split; [|by eapply lookup_lt_Some].
  apply (drop_S l x n) in Hn. rewrite Hd in Hn. by simplify_eq.
Qed.

Section pool.
Context (W : World) (input : list string) (ws : list Worker).

Lemma set_busy_tokens (l : list Worker) i w b :
  l !! i = Some w → token <$> <[i:=set_busy b w]> l = token <$> l.
Proof.
  intros Hi. rewrite list_fmap_insert. apply list_insert_id.
  by rewrite list_lookup_fmap, Hi.
Qed.

Lemma resume_inv s s' :
  resume W s = Some s' → pool_inv W input ws s → pool_inv W input ws s'.
Proof.
  intros Hstep [Htok Hq Hlen Hslots Hworkers Hquery Hpend Hres Hfound Hret].
  unfold resume in Hstep. destruct (ctl s) as [|index|balances] eqn:Hctl.
  - destruct (heap s !!! taskQueue s) as [|task rest] eqn:Hqueue.
    + destruct (Promise_all (completedTasks s)) as [balances|] eqn:Hall;
        simplify_eq/=.
      constructor; simpl; try (by rewrite ?Hqueue).
      intros ? [= <-]. split; [done|].
      symmetry in Hq. apply drop_nil_inv in Hq. lia.
    + destruct (findIndex_idle (workers s)) as [index|] eqn:Hfind;
        simplify_eq/=.
      * constructor; simpl; try (by rewrite ?Hqueue).
        intros ? [= <-]. split; [by rewrite Hqueue|].
        unfold findIndex_idle in Hfind.
        destruct (list_find _ (workers s)) as [[i w]|] eqn:Hlf;
          simplify_eq/=.
        apply list_find_Some in Hlf as (Hi & Hidle & _). eauto.
      * constructor; simpl; try (by rewrite ?Hqueue).
  - destruct (Hfound index eq_refl) as (_ & w & Hw & Hidle).
    destruct (heap s !!! taskQueue s) as [|task rest] eqn:Hqueue; [done|].
    rewrite Hw in Hstep. simplify_eq/=.
    symmetry in Hq. apply drop_cons_inv in Hq as (Htask & Hrest & Hn).
    assert (Hslot_lt : ∀ q, q ∈ inflight s →
              (q_slot q < length (completedTasks s))%nat).
    { intros q Hin. destruct (Hquery q Hin) as (_ & Hp & _).
      by eapply lookup_lt_Some. }
    assert (Hworker_ne : ∀ q, q ∈ inflight s → q_worker q ≠ index).
    { intros q Hin Heq.
      destruct (Hquery q Hin) as (_ & _ & w' & Hw' & Hb & _).
      rewrite Heq in Hw'. congruence. }
    constructor; simpl.
    + by rewrite set_busy_tokens.
    + rewrite lookup_total_insert_eq, length_app. simpl.
      by rewrite Nat.add_1_r.
    + rewrite length_app. simpl. lia.
    + rewrite fmap_app. simpl. apply NoDup_app. split; [done|].
      split; [|apply NoDup_singleton].
      intros x [q [-> Hin]]%list_elem_of_fmap_1 Hx%list_elem_of_singleton.
      specialize (Hslot_lt q Hin). lia.
    + rewrite fmap_app. simpl. apply NoDup_app. split; [done|].
      split; [|apply NoDup_singleton].
      intros x [q [-> Hin]]%list_elem_of_fmap_1 Hx%list_elem_of_singleton.
      by apply (Hworker_ne q Hin).
    + intros q [Hin| ->%list_elem_of_singleton]%elem_of_app.
      * destruct (Hquery q Hin) as (Ha & Hp & w' & Hw' & Hb & Hk).
        split; [done|]. split; [by rewrite lookup_app_l by eauto|].
        exists w'. rewrite list_lookup_insert_ne by (by apply not_eq_sym, Hworker_ne).
        done.
      * simpl. split; [done|]. split; [by rewrite list_lookup_middle|].
        exists (set_busy true w).
        rewrite list_lookup_insert_eq by (by eapply lookup_lt_Some).
        split; [done|]. split; [done|]. intros k Hk. lia.
    + intros i Hi. apply lookup_snoc_Some in Hi as [[Hlt Hi]|[-> _]].
      * destruct (Hpend i Hi) as (q & Hin & Hs). exists q.
        split; [|done]. apply elem_of_app. by left.
      * eexists. split; [apply elem_of_app; right; apply list_elem_of_singleton; done|done].
    + intros i v Hi. apply lookup_snoc_Some in Hi as [[Hlt Hi]|[_ ?]]; [|done].
      by apply Hres.
    + done.
    + done.
  - done.
Qed.

Lemma response_inv j s s' :
  response W j s = Some s' → pool_inv W input ws s → pool_inv W input ws s'.
Proof.
  intros Hstep [Htok Hq Hlen Hslots Hworkers Hquery Hpend Hres Hfound Hret].
  unfold response in Hstep.
  destruct (inflight s !! j) as [q|] eqn:Hj; [|done]. simpl in Hstep.
  assert (Hin : q ∈ inflight s) by (by eapply list_elem_of_lookup_2).
  destruct (Hquery q Hin) as (Ha & Hp & w & Hw & Hb & Hk).
  rewrite Hw in Hstep. simpl in Hstep.
  destruct (balanceOf_throws W (token w) (q_address q)) eqn:Hbuilt; [done|].
  destruct (call_balanceOf W (token w) (q_address q) (q_attempt q))
    as [balance|] eqn:Hcall; simplify_eq/=.
  - (* the call is fulfilled *)
    assert (Hother : ∀ q', q' ∈ delete j (inflight s) →
              q' ∈ inflight s ∧ q_slot q' ≠ q_slot q
              ∧ q_worker q' ≠ q_worker q).
    { intros q' Hq'. split; [by eapply list_elem_of_delete_inv|].
      split.
      - by apply (elem_of_delete_NoDup q_slot (inflight s) j q q').
      - by apply (elem_of_delete_NoDup q_worker (inflight s) j q q'). }
    constructor; simpl.
    + by rewrite set_busy_tokens.
    + by rewrite length_insert.
    + by rewrite length_insert.
    + rewrite list_fmap_delete.
      apply (sublist_NoDup _ _ Hslots), sublist_delete.
    + rewrite list_fmap_delete.
      apply (sublist_NoDup _ _ Hworkers), sublist_delete.
    + intros q' Hq'. destruct (Hother q' Hq') as (Hin' & Hs & Hwk).
      destruct (Hquery q' Hin') as (Ha' & Hp' & w' & Hw' & Hb' & Hk').
      split; [done|]. split; [by rewrite list_lookup_insert_ne|].
      exists w'. by rewrite list_lookup_insert_ne.
    + intros i Hi.
      apply list_lookup_insert_Some in Hi as [(_ & ? & _)|[Hne Hi]]; [done|].
      destruct (Hpend i Hi) as (q' & Hin' & Hs). exists q'. split; [|done].
      apply (elem_of_delete_NoDup q_slot (inflight s) j q q'); [done..|].
      split; [done|congruence].
    + intros i v Hi.
      apply list_lookup_insert_Some in Hi as [(<- & [= <-] & _)|[Hne Hi]];
        [|by apply Hres].
      exists (q_address q), (token w). split; [done|]. split.
      * rewrite <-Htok. apply list_elem_of_fmap_2'
          with w; [by eapply list_elem_of_lookup_2|done].
      * split; [done|]. by exists (q_attempt q).
    + intros i Hi. destruct (Hfound i Hi) as (Hne & w' & Hw' & Hidle).
      split; [done|]. destruct (decide (q_worker q = i)) as [<-|Hneq].
      * exists (set_busy false w).
        by rewrite list_lookup_insert_eq by (by eapply lookup_lt_Some).
      * exists w'. by rewrite list_lookup_insert_ne.
    + intros balances Hctl. destruct (Hret balances Hctl) as [Hall _].
      by destruct (Promise_all_resolved _ _ (q_slot q) Hall).
  - (* the call is rejected *)
    constructor; simpl; try done.
    + rewrite list_fmap_insert. simpl. rewrite list_insert_id; [done|].
      by rewrite list_lookup_fmap, Hj.
    + rewrite list_fmap_insert. simpl. rewrite list_insert_id; [done|].
      by rewrite list_lookup_fmap, Hj.
    + intros q' [->|Hin']%elem_of_insert_inv; [|by apply Hquery].
      simpl. split; [done|]. split; [done|]. exists w.
      split; [done|]. split; [done|]. intros k Hlt.
      destruct (decide (k = q_attempt q)) as [->|]; [done|].
      apply Hk. lia.
    + intros i Hi. destruct (Hpend i Hi) as (q' & Hin' & Hs).
      apply list_elem_of_lookup in Hin' as [j' Hj'].
      destruct (decide (j' = j)) as [->|Hne].
      * eexists. split; [apply list_elem_of_insert; by eapply lookup_lt_Some|].
        simpl. congruence.
      * exists q'. split; [|done].
        eapply list_elem_of_lookup_2. by rewrite list_lookup_insert_ne.
Qed.

Lemma step_inv t s s' :
  step W t s = Some s' → pool_inv W input ws s → pool_inv W input ws s'.
Proof. destruct t; [apply resume_inv|apply response_inv]. Qed.

Lemma run_inv schedule s :
  pool_inv W input ws s → pool_inv W input ws (run W schedule s).
Proof.
  revert s. induction schedule as [|t schedule IH]; intros s Hinv; [done|].
  simpl. apply IH. destruct (step W t s) as [s'|] eqn:Hstep; [|done].
  by eapply step_inv.
Qed.

Lemma step_busy_inv t s s' :
  step W t s = Some s' → pool_inv W input ws s → busy_inv s → busy_inv s'.
Proof.
  intros Hstep Hinv Hbusy i w' Hi Hb. destruct t as [|j]; simpl in Hstep.
  - unfold resume in Hstep. destruct (ctl s) as [|index|balances] eqn:Hctl.
    + destruct (heap s !!! taskQueue s) as [|task rest].
      * destruct (Promise_all (completedTasks s)); simplify_eq/=. eauto.
      * destruct (findIndex_idle (workers s)); simplify_eq/=; eauto.
    + destruct (heap s !!! taskQueue s) as [|task rest]; [done|].
      destruct (workers s !! index) as [w|] eqn:Hw; simplify_eq/=.
      destruct (decide (index = i)) as [->|Hne].
      * eexists. split; [apply elem_of_app; right;
                         by apply list_elem_of_singleton|done].
      * rewrite list_lookup_insert_ne in Hi by done.
        destruct (Hbusy i w' Hi Hb) as (q & Hin & Hq).
        exists q. split; [apply elem_of_app; by left|done].
    + done.
  - unfold response in Hstep.
    destruct (inflight s !! j) as [q|] eqn:Hj; [|done]. simpl in Hstep.
    destruct (workers s !! q_worker q) as [w|] eqn:Hw; [|done].
    simpl in Hstep.
    destruct (balanceOf_throws W (token w) (q_address q)); [done|].
    destruct (call_balanceOf W (token w) (q_address q) (q_attempt q));
      simplify_eq/=.
    + destruct (decide (q_worker q = i)) as [<-|Hne].
      * rewrite list_lookup_insert_eq in Hi by (by eapply lookup_lt_Some).
        by simplify_eq.
      * rewrite list_lookup_insert_ne in Hi by done.
        destruct (Hbusy i w' Hi Hb) as (q' & Hin & Hq).
        exists q'. split; [|done].
        apply (elem_of_delete_NoDup q_worker (inflight s) j q q');
          [apply Hinv|done|]. split; [done|congruence].
    + destruct (Hbusy i w' Hi Hb) as (q' & Hin & Hq).
      apply list_elem_of_lookup in Hin as [j' Hj'].
      destruct (decide (j' = j)) as [->|Hne].
      * eexists. split; [apply list_elem_of_insert; by eapply lookup_lt_Some|].
        simpl. congruence.
      * exists q'. split; [|done].
        eapply list_elem_of_lookup_2. by rewrite list_lookup_insert_ne.
Qed.

Lemma run_busy_inv schedule s :
  pool_inv W input ws s → busy_inv s →
  busy_inv (run W schedule s).
Proof.
  revert s. induction schedule as [|t schedule IH]; intros s Hinv Hbusy;
    [done|].
  simpl. destruct (step W t s) as [s'|] eqn:Hstep; simpl.
  - apply IH; [by eapply step_inv|by eapply step_busy_inv].
  - by apply IH.
Qed.

End pool.

Lemma run_app W schedule more s :
  run W (schedule ++ more) s = run W more (run W schedule s).
Proof. apply fold_left_app. Qed.

(** Only the private queue is changed in the heap. *)
Lemma step_heap W t s s' :
  step W t s = Some s' →
  taskQueue s' = taskQueue s
  ∧ ∀ l, l ≠ taskQueue s → heap s' !! l = heap s !! l.
Proof.
  intros Hstep. destruct t as [|j]; simpl in Hstep.
  - unfold resume in Hstep. destruct (ctl s) as [|index|balances].
    + destruct (heap s !!! taskQueue s).
      * destruct (Promise_all (completedTasks s)); by simplify_eq/=.
      * destruct (findIndex_idle (workers s)); by simplify_eq/=.
    + destruct (heap s !!! taskQueue s); [done|].
      destruct (workers s !! index); simplify_eq/=.
      split; [done|]. intros l Hl. by rewrite lookup_insert_ne.
    + done.
  - unfold response in Hstep.
    destruct (inflight s !! j) as [q|]; [|done]. simpl in Hstep.
    destruct (workers s !! q_worker q) as [w|]; [|done]. simpl in Hstep.
    destruct (balanceOf_throws W (token w) (q_address q)); [done|].
    by destruct (call_balanceOf W (token w) (q_address q) (q_attempt q));
      simplify_eq/=.
Qed.

Lemma run_heap W schedule s :
  taskQueue (run W schedule s) = taskQueue s
  ∧ ∀ l, l ≠ taskQueue s → heap (run W schedule s) !! l = heap s !! l.
Proof.
  revert s. induction schedule as [|t schedule IH]; intros s; [done|].
  simpl. destruct (step W t s) as [s'|] eqn:Hstep; simpl; [|apply IH].
  destruct (step_heap W t s s' Hstep) as [Htq Hframe].
  destruct (IH s') as [Htq' Hframe']. split; [congruence|].
  intros l Hl. rewrite Hframe' by congruence. by apply Hframe.
Qed.

Lemma distribute_init_inv W (h : Heap) ws contractList :
  pool_inv W (h !!! contractList) ws (distribute_init h ws contractList).
Proof.
  unfold distribute_init, spread.
  constructor; simpl; try done.
  - by rewrite lookup_total_insert_eq.
  - lia.
  - apply NoDup_nil_2.
  - apply NoDup_nil_2.
  - intros q Hq. by apply elem_of_nil in Hq.
Qed.

Lemma distribute_init_busy_inv (h : Heap) ws contractList :
  Forall (λ w, isBusy w = false) ws →
  busy_inv (distribute_init h ws contractList).
Proof.
  intros Hidle i w Hi Hb. unfold distribute_init, spread in Hi. simpl in Hi.
  rewrite Forall_lookup in Hidle. specialize (Hidle i w Hi). congruence.
Qed.

Lemma distributeTasks_inv W schedule (h : Heap) ws contractList :
  pool_inv W (h !!! contractList) ws
           (distributeTasks W schedule h ws contractList).
Proof. apply run_inv, distribute_init_inv. Qed.

Lemma NoDup_bounded_length (l : list nat) n :
  NoDup l → (∀ x, x ∈ l → (x < n)%nat) → (length l ≤ n)%nat.
Proof.
  intros Hnd Hlt.
  assert (Hle : (length l ≤ length (seq 0 n))%nat).
  { apply submseteq_length, NoDup_submseteq; [done|].
    intros x Hx. apply elem_of_seq. specialize (Hlt x Hx). lia. }
  by rewrite length_seq in Hle.
Qed.

(** C2. In every state of every run of [distributeTasks] over a pool of N
    workers, at most N balance queries are in flight and no two of them
    belong to the same worker; the worker of a query in flight has its
    [isBusy] flag set; the index the distributor is about to assign a
    task to is that of a worker whose flag is false; and, the workers
    being idle at the start as [findBalances] builds them, a flag is true
    exactly while a query of that worker is in flight. *)
Theorem pool_concurrency_bound W schedule (h : Heap) ws contractList :
  let s := distributeTasks W schedule h ws contractList in
  length (workers s) = length ws
  ∧ (length (inflight s) ≤ length ws)%nat
  ∧ NoDup (q_worker <$> inflight s)
  ∧ (∀ q, q ∈ inflight s →
          ∃ w, workers s !! q_worker q = Some w ∧ isBusy w = true)
  ∧ (∀ i, ctl s = Found i →
          ∃ w, workers s !! i = Some w ∧ isBusy w = false)
  ∧ (Forall (λ w, isBusy w = false) ws →
     ∀ i w, workers s !! i = Some w →
            isBusy w = true ↔ ∃ q, q ∈ inflight s ∧ q_worker q = i).
Proof.
  intros s.
  pose proof (distributeTasks_inv W schedule h ws contractList) as Hinv.
  fold s in Hinv.
  assert (Hlen : length (workers s) = length ws).
  { rewrite <-(length_fmap token (workers s)), <-(length_fmap token ws).
    by rewrite (inv_tokens _ _ _ _ Hinv). }
  assert (Hbusy : ∀ q, q ∈ inflight s →
            ∃ w, workers s !! q_worker q = Some w ∧ isBusy w = true).
  { intros q Hq.
    destruct (inv_query _ _ _ _ Hinv q Hq) as (_ & _ & w & Hw & Hb & _).
    eauto. }
  split; [done|]. split; [|split; [apply Hinv|split; [done|split]]].
  - rewrite <-(length_fmap q_worker (inflight s)), <-Hlen.
    apply NoDup_bounded_length; [apply Hinv|].
    intros x [q [-> Hq]]%list_elem_of_fmap_1.
    destruct (Hbusy q Hq) as (w & Hw & _). by eapply lookup_lt_Some.
  - intros i Hi. by destruct (inv_found _ _ _ _ Hinv i Hi).
  - intros Hidle i w Hw. split.
    + apply (run_busy_inv W (h !!! contractList) ws schedule);
        [apply distribute_init_inv|by apply distribute_init_busy_inv|done].
    + intros (q & Hq & <-). destruct (Hbusy q Hq) as (w' & Hw' & Hb).
      congruence.
Qed.

(** *** Every run can be carried on until distributeTasks returns *)

Section progress.
Context (W : World) (input : list string) (ws : list Worker).
Hypothesis Hresponsive : responsive W ws input.

Lemma responsive_query s q w :
  pool_inv W input ws s → q ∈ inflight s →
  workers s !! q_worker q = Some w →
  balanceOf_throws W (token w) (q_address q) = false
  ∧ ∃ d, is_Some (call_balanceOf W (token w) (q_address q) (q_attempt q + d)).
Proof.
  intros Hinv Hq Hw.
  destruct (inv_query _ _ _ _ Hinv q Hq) as (Ha & _ & w' & Hw' & _ & Hk).
  assert (w' = w) as -> by congruence.
  assert (Htok : token w ∈ token <$> ws).
  { rewrite <-(inv_tokens _ _ _ _ Hinv).
    eapply list_elem_of_fmap_2, list_elem_of_lookup_2, Hw. }
  apply list_elem_of_fmap_1 in Htok as (w0 & Htok & Hw0).
  destruct (Hresponsive w0 (q_address q) Hw0) as [Hbuilt [M HM]].
  { eapply list_elem_of_lookup_2, Ha. }
  rewrite <-Htok in HM, Hbuilt. split; [done|].
  exists (M - q_attempt q)%nat.
  destruct (decide (M < q_attempt q)%nat) as [Hlt|Hge].
  - rewrite (Hk M Hlt) in HM. by destruct HM.
  - by replace (q_attempt q + (M - q_attempt q))%nat with M by lia.
Qed.

(** The query at the head of the list is answered after finitely many
    responses. *)
Lemma settle_head d s q rest w :
  pool_inv W input ws s → inflight s = q :: rest →
  workers s !! q_worker q = Some w →
  balanceOf_throws W (token w) (q_address q) = false →
  is_Some (call_balanceOf W (token w) (q_address q) (q_attempt q + d)) →
  ∃ ticks, inflight (run W ticks s) = rest
           ∧ ctl (run W ticks s) = ctl s
           ∧ heap (run W ticks s) = heap s
           ∧ taskQueue (run W ticks s) = taskQueue s.
Proof.
  revert s q. induction d as [|d IH]; intros s q Hinv Hfl Hw Hbuilt Hsome.
  - destruct Hsome as [v Hv]. rewrite Nat.add_0_r in Hv.
    exists [Response 0]. simpl. unfold response.
    rewrite Hfl. simpl. rewrite Hw. simpl. by rewrite Hbuilt, Hv.
  - destruct (call_balanceOf W (token w) (q_address q) (q_attempt q))
      as [v|] eqn:Hcall.
    + exists [Response 0]. simpl. unfold response.
      rewrite Hfl. simpl. rewrite Hw. simpl. by rewrite Hbuilt, Hcall.
    + assert (Hstep : step W (Response 0) s
               = Some (mkState (heap s) (taskQueue s) (workers s)
                         (completedTasks s)
                         (mkQuery (q_worker q) (q_slot q) (q_address q)
                                  (S (q_attempt q)) :: rest)
                         (ctl s)
                         (trace s ++ [BalanceOf (token w) (q_address q)]))).
      { simpl. unfold response. rewrite Hfl. simpl. rewrite Hw. simpl.
        by rewrite Hbuilt, Hcall. }
      destruct (IH _ _ (step_inv W input ws _ _ _ Hstep Hinv)
                  eq_refl Hw) as (ticks & H1 & H2 & H3 & H4).
      { done. }
      { simpl. by rewrite <-Nat.add_succ_r. }
      exists (Response 0 :: ticks). simpl in *.
      unfold response. rewrite Hfl. simpl. rewrite Hw. simpl.
      rewrite Hbuilt, Hcall. simpl. done.
Qed.

(** All the queries in flight are answered after finitely many
    responses; the distributor does not run meanwhile. *)
Lemma drain n s :
  length (inflight s) = n → pool_inv W input ws s →
  ∃ ticks, inflight (run W ticks s) = []
           ∧ ctl (run W ticks s) = ctl s
           ∧ heap (run W ticks s) = heap s
           ∧ taskQueue (run W ticks s) = taskQueue s.
Proof.
  revert s. induction n as [|n IH]; intros s Hn Hinv.
  - exists []. simpl. by destruct (inflight s).
  - destruct (inflight s) as [|q rest] eqn:Hfl; [done|].
    assert (Hq : q ∈ inflight s) by (rewrite Hfl; apply elem_of_cons; by left).
    destruct (inv_query _ _ _ _ Hinv q Hq) as (_ & _ & w & Hw & _).
    destruct (responsive_query s q w Hinv Hq Hw) as [Hbuilt [d Hd]].
    destruct (settle_head d s q rest w Hinv Hfl Hw Hbuilt Hd)
      as (ticks & H1 & H2 & H3 & H4).
    destruct (IH (run W ticks s)) as (ticks' & H1' & H2' & H3' & H4').
    { rewrite H1. simpl in Hn. lia. }
    { by apply run_inv. }
    exists (ticks ++ ticks'). rewrite run_app.
    repeat split; congruence.
Qed.

Hypothesis Hpool : ws ≠ [].

Lemma run_cons t ticks s :
  run W (t :: ticks) s = run W ticks (default s (step W t s)).
Proof. done. Qed.

Lemma all_resolved s :
  pool_inv W input ws s → inflight s = [] →
  is_Some (Promise_all (completedTasks s)).
Proof.
  intros Hinv Hfl. apply mapM_is_Some_2, Forall_lookup.
  intros i [v|] Hi; [by eexists|].
  destruct (inv_pending _ _ _ _ Hinv i Hi) as (q & Hq & _).
  rewrite Hfl in Hq. by apply elem_of_nil in Hq.
Qed.

Lemma idle_worker_found s :
  pool_inv W input ws s → busy_inv s → inflight s = [] →
  is_Some (findIndex_idle (workers s)).
Proof.
  intros Hinv Hbusy Hfl. unfold findIndex_idle.
  destruct (list_find _ (workers s)) as [[i w]|] eqn:Hfind; [by eexists|].
  apply list_find_None in Hfind.
  assert (Hlen : length (workers s) = length ws).
  { rewrite <-(length_fmap token (workers s)), <-(length_fmap token ws).
    by rewrite (inv_tokens _ _ _ _ Hinv). }
  destruct (workers s) as [|w l] eqn:Hws.
  { destruct ws; [done|discriminate]. }
  apply Forall_cons_1 in Hfind as [Hw _].
  destruct (Hbusy 0%nat w) as (q & Hq & _).
  { by rewrite Hws. }
  { by destruct (isBusy w). }
  rewrite Hfl in Hq. by apply elem_of_nil in Hq.
Qed.

(** With nothing in flight, the distributor and the responses can be
    scheduled so that [distributeTasks] returns. *)
Lemma finish n s :
  length (heap s !!! taskQueue s) = n →
  pool_inv W input ws s → busy_inv s → inflight s = [] →
  ∃ ticks balances, returned (run W ticks s) = Some balances.
Proof.
  revert s. induction n as [n IH] using lt_wf_ind.
  intros s Hn Hinv Hbusy Hfl.
  assert (Hassign : ∀ s1 i, ctl s1 = Found i →
            length (heap s1 !!! taskQueue s1) = n →
            pool_inv W input ws s1 → busy_inv s1 →
            ∃ ticks balances, returned (run W ticks s1) = Some balances).
  { intros s1 i Hctl Hn1 Hinv1 Hbusy1.
    destruct (inv_found _ _ _ _ Hinv1 i Hctl) as (Hne & w & Hw & Hidle).
    destruct (heap s1 !!! taskQueue s1) as [|task rest] eqn:Hqueue; [done|].
    destruct (step W Resume s1) as [s2|] eqn:Hstep; last first.
    { simpl in Hstep. unfold resume in Hstep.
      by rewrite Hctl, Hqueue, Hw in Hstep. }
    assert (Hqueue2 : heap s2 !!! taskQueue s2 = rest).
    { simpl in Hstep. unfold resume in Hstep.
      rewrite Hctl, Hqueue, Hw in Hstep. simplify_eq/=.
      by rewrite lookup_total_insert_eq. }
    pose proof (step_inv W input ws _ _ _ Hstep Hinv1) as Hinv2.
    pose proof (step_busy_inv W input ws _ _ _ Hstep Hinv1 Hbusy1) as Hbusy2.
    destruct (drain _ s2 eq_refl Hinv2) as (ticks & H1 & H2 & H3 & H4).
    destruct (IH (length rest) ltac:(simpl in Hn1; lia) (run W ticks s2))
      as (ticks' & balances & Hret).
    { by rewrite H3, H4, Hqueue2. }
    { by apply run_inv. }
    { by apply (run_busy_inv W input ws). }
    { done. }
    exists (Resume :: ticks ++ ticks'), balances.
    by rewrite run_cons, Hstep, run_app. }
  destruct (ctl s) as [|i|balances] eqn:Hctl.
  - destruct (heap s !!! taskQueue s) as [|task rest] eqn:Hqueue.
    + destruct (all_resolved s Hinv Hfl) as [balances Hall].
      exists [Resume], balances. simpl. unfold resume.
      by rewrite Hctl, Hqueue, Hall.
    + destruct (idle_worker_found s Hinv Hbusy Hfl) as [i Hi].
      destruct (step W Resume s) as [s1|] eqn:Hstep; last first.
      { simpl in Hstep. unfold resume in Hstep.
        by rewrite Hctl, Hqueue, Hi in Hstep. }
      destruct (Hassign s1 i) as (ticks & balances & Hret).
      { simpl in Hstep. unfold resume in Hstep.
        rewrite Hctl, Hqueue, Hi in Hstep. by simplify_eq/=. }
      { simpl in Hstep. unfold resume in Hstep.
        rewrite Hctl, Hqueue, Hi in Hstep. simplify_eq/=.
        by rewrite Hqueue. }
      { by eapply step_inv. }
      { by eapply step_busy_inv. }
      exists (Resume :: ticks), balances. by rewrite run_cons, Hstep.
  - by apply (Hassign s i).
  - exists [], balances. simpl. unfold returned. by rewrite Hctl.
Qed.

End progress.



(** A run in which the second worker answers first. *)
Example distributeTasks_out_of_order :
  returned (distributeTasks Sample.flaky Sample.out_of_order
                            Sample.store Sample.pool 0%nat)
  = Some (map Sample.balance_of Sample.addresses).
Proof. by vm_compute. Qed.

Lemma pool_concurrency_witness :
  isBusy (mkWorker Sample.rpc1 true) = true
  ↔ ∃ q, q ∈ inflight (distributeTasks Sample.flaky [Resume; Resume]
                                      Sample.store Sample.pool 0%nat)
         ∧ q_worker q = 0%nat.
Proof.
  pose proof (pool_concurrency_bound Sample.flaky [Resume; Resume]
                Sample.store Sample.pool 0%nat) as (_ & _ & _ & _ & _ & H).
  apply H; [repeat constructor|reflexivity].
Defined.

(** ** processOneToken: what it leaves in the heap and asks of the outside *)

Lemma findBalances_heap cfg W schedule web3 (h : Heap) contractList tokenObject :
  (findBalances cfg W schedule web3 h contractList tokenObject).1.2
  = heap (distributeTasks W schedule h (make_workers cfg web3 tokenObject)
                          contractList).
Proof. unfold findBalances. by repeat case_match. Qed.

Lemma findBalances_trace cfg W schedule web3 (h : Heap) contractList tokenObject :
  (findBalances cfg W schedule web3 h contractList tokenObject).2
  = trace (distributeTasks W schedule h (make_workers cfg web3 tokenObject)
                           contractList).
Proof. unfold findBalances. by repeat case_match. Qed.

Lemma distributeTasks_frame W schedule (h : Heap) ws contractList l :
  is_Some (h !! l) →
  heap (distributeTasks W schedule h ws contractList) !! l = h !! l.
Proof.
  intros Hl. unfold distributeTasks.
  destruct (run_heap W schedule (distribute_init h ws contractList))
    as [_ Hframe].
  rewrite Hframe.
  - unfold distribute_init. apply (spread_frame h contractList l Hl).
  - unfold distribute_init, spread. simpl.
    intros ->. by apply (is_fresh (dom h)), elem_of_dom.
Qed.

Lemma processOneToken_heap cfg W schedule web3 (h : Heap) contractList T l :
  is_Some (h !! l) →
  (processOneToken cfg W schedule web3 h contractList T).1.2 !! l = h !! l.
Proof.
  intros Hl. unfold processOneToken.
  destruct (getTokenInfo cfg W T) as [[tokenObject| |] t1]; [|done|done].
  pose proof (working_list_frame cfg h contractList T l Hl) as Hwl.
  destruct (working_list cfg h contractList T) as [h2 localList].
  simpl in Hwl. destruct (not_valid tokenObject); [done|].
  pose proof (findBalances_heap cfg W schedule web3 h2 localList tokenObject)
    as Hfb.
  destruct (findBalances cfg W schedule web3 h2 localList tokenObject)
    as [[results h3] t2]. simpl in Hfb. subst h3.
  assert (heap (distributeTasks W schedule h2
                  (make_workers cfg web3 tokenObject) localList) !! l
          = h !! l) as Hgoal.
  { rewrite distributeTasks_frame; [done|]. by rewrite Hwl. }
  by destruct results.
Qed.

(** C10. The array the caller passes as [contractList] (as every array
    the caller holds) has after [processOneToken], for any token, valid or
    not, and any schedule, the elements it had before, in the same
    order: the removals and the shifts are made on copies. *)
Theorem processOneToken_preserves_contractList cfg W schedule web3 (h : Heap)
    contractList T :
  is_Some (h !! contractList) →
  let h' := (processOneToken cfg W schedule web3 h contractList T).1.2 in
  h' !! contractList = h !! contractList
  ∧ ∀ l, is_Some (h !! l) → h' !! l = h !! l.
Proof.
  intros Hcl h'. split; [by apply processOneToken_heap|].
  intros l Hl. by apply processOneToken_heap.
Qed.

Lemma processOneToken_preserves_witness :
  (processOneToken Sample.cfg Sample.flaky Sample.out_of_order "web3"
                   Sample.store 0%nat "0xT").1.2 !! 0%nat
  = Sample.store !! 0%nat.
Proof.
  assert (Hlist : is_Some (Sample.store !! 0%nat))
    by (exists Sample.addresses; reflexivity).
  exact (proj1 (processOneToken_preserves_contractList Sample.cfg Sample.flaky
                  Sample.out_of_order "web3" Sample.store 0%nat "0xT" Hlist)).
Defined.

Lemma getTokenInfo_no_balance_query cfg W T :
  Forall (λ e, is_balance_query e = false) (getTokenInfo cfg W T).2.
Proof.
  unfold getTokenInfo, read_ticker, read_price.
  repeat case_match; simplify_eq/=;
    rewrite ?Forall_app; repeat split; repeat constructor.
Qed.

(** C5. When [getTokenInfo] reports the token invalid, [processOneToken]
    fulfils with ticker null, price 0, decimals 18 and no records, and
    none of the requests it made is a balance query. *)
Theorem invalid_token_short_circuits cfg W schedule web3 (h : Heap)
    contractList T tokenObject :
  (getTokenInfo cfg W T).1 = Fulfilled tokenObject →
  not_valid tokenObject = true →
  (processOneToken cfg W schedule web3 h contractList T).1.1
  = Fulfilled (mkScanResult T None 18 (JS.Finite 0) [])
  ∧ Forall (λ e, is_balance_query e = false)
           (processOneToken cfg W schedule web3 h contractList T).2.
Proof.
  intros Hinfo Hinvalid. unfold processOneToken.
  pose proof (getTokenInfo_no_balance_query cfg W T) as Htrace.
  destruct (getTokenInfo cfg W T) as [tokenObject' t1]. simpl in *. subst.
  destruct (working_list cfg h contractList T) as [h2 localList].
  by rewrite Hinvalid.
Qed.

Lemma invalid_token_witness :
  (processOneToken Sample.cfg Sample.silent Sample.out_of_order "web3"
                   Sample.store 0%nat "0xT").1.1
  = Fulfilled (mkScanResult "0xT" None 18 (JS.Finite 0) []).
Proof.
  apply (invalid_token_short_circuits Sample.cfg Sample.silent
           Sample.out_of_order "web3" Sample.store 0%nat "0xT"
           (mkTokenInfo "0xT" (Some "unknown") (Some false) 6 (JS.Finite 0)));
    reflexivity.
Defined.

(** ** Numbers: agreement with the standard library's binary64 *)

Example ofBigInt_agrees :
  JS.to_spec (JS.ofBigInt 3000000000000000003)
  = binary_normalize 53 1024 3000000000000000003 0 false
  ∧ JS.to_spec (JS.ofBigInt 9007199254740993)
    = binary_normalize 53 1024 9007199254740993 0 false
  ∧ JS.to_spec (JS.parse_1e 23) = binary_normalize 53 1024 (10 ^ 23) 0 false.
Proof. split_and!; by vm_compute. Qed.

Example div_agrees :
  JS.to_spec (JS.div (JS.ofBigInt 3000000000000000003) (JS.parse_1e 18))
  = SFdiv 53 1024 (JS.to_spec (JS.ofBigInt 3000000000000000003))
          (JS.to_spec (JS.parse_1e 18))
  ∧ JS.to_spec JS.lit_1em6
    = SFdiv 53 1024 (JS.to_spec (JS.ofBigInt 1))
            (JS.to_spec (JS.ofBigInt 1000000))
  ∧ JS.to_spec (JS.div (JS.ofBigInt 1289999999999999999) (JS.parse_1e 18))
    = SFdiv 53 1024 (JS.to_spec (JS.ofBigInt 1289999999999999999))
            (JS.to_spec (JS.parse_1e 18)).
Proof. split_and!; by vm_compute. Qed.

Example mul_sub_agree :
  JS.to_spec (JS.mul (JS.ofBigInt 123456) (JS.div (JS.ofBigInt 3) (JS.ofBigInt 10)))
  = SFmul 53 1024 (JS.to_spec (JS.ofBigInt 123456))
          (JS.to_spec (JS.div (JS.ofBigInt 3) (JS.ofBigInt 10)))
  ∧ JS.to_spec (JS.sub (JS.div (JS.ofBigInt 3) (JS.ofBigInt 10))
                       (JS.div (JS.ofBigInt 1) (JS.ofBigInt 10)))
    = SFsub 53 1024 (JS.to_spec (JS.div (JS.ofBigInt 3) (JS.ofBigInt 10)))
            (JS.to_spec (JS.div (JS.ofBigInt 1) (JS.ofBigInt 10)))
  ∧ JS.ltb (JS.ofBigInt 0) JS.lit_1em6
    = SFltb (JS.to_spec (JS.ofBigInt 0)) (JS.to_spec JS.lit_1em6).
Proof. split_and!; by vm_compute. Qed.

Example toString_examples :
  JS.toString (JS.ofBigInt 3) = "3"
  ∧ JS.toString (JS.div (JS.ofBigInt 129) (JS.ofBigInt 100)) = "1.29"
  ∧ JS.toString (JS.div (JS.ofBigInt 1) (JS.ofBigInt 3)) = "0.3333333333333333"
  ∧ JS.toString (JS.parse_1e 21) = "1e+21"
  ∧ JS.toString (JS.div (JS.ofBigInt 1) (JS.parse_1e 7)) = "1e-7"
  ∧ JS.toString (JS.ofBigInt (2 ^ 64)) = "18446744073709552000"
  ∧ JS.toString (JS.Finite 1) = "5e-324".
Proof. split_and!; by vm_compute. Qed.

Example numberWithCommas_examples :
  numberWithCommas (JS.div (JS.ofBigInt 123456789125) (JS.ofBigInt 1000))
  = "123,456,789.12"
  ∧ numberWithCommas (JS.ofBigInt 1234567) = "1,234,567"
  ∧ numberWithCommas (JS.div (JS.ofBigInt 1) (JS.parse_1e 7)) = "0.00"
  ∧ numberWithCommas (JS.ofBigInt (-5)) = "0.00"
  ∧ numberWithCommas JS.NaN = "NaN".
Proof. split_and!; by vm_compute. Qed.

(** ** Numbers: rounding keeps the sign and the order of magnitude *)

Lemma rne_ge a d : 0 ≤ a → 0 < d → a / d ≤ JS.rne a d.
Proof.
  intros Ha Hd. unfold JS.rne.
  destruct (2 * (a mod d) <? d); [lia|].
  destruct (d <? 2 * (a mod d)); [lia|].
  destruct (Z.even (a / d)); lia.
Qed.

Lemma ulp_shift_le a : 0 < a → 0 < 2 ^ JS.ulp_shift a ≤ a.
Proof.
  intros Ha. unfold JS.ulp_shift.
  destruct (Z.max_spec 0 (Z.log2 a - 52)) as [[Hlt ->]|[Hle ->]].
  - split; [by apply Z.pow_pos_nonneg; lia|].
    etrans; [|apply Z.log2_spec, Ha].
    apply Z.pow_le_mono_r; lia.
  - simpl. lia.
Qed.

Lemma round_pos_lower a : 0 < a → a < 2 * JS.round_pos a 1.
Proof.
  intros Ha. unfold JS.round_pos. rewrite Z.div_1_r, Z.mul_1_l.
  destruct (ulp_shift_le a Ha) as [HP Hle].
  set (P := 2 ^ JS.ulp_shift a) in *.
  pose proof (rne_ge a P ltac:(lia) HP) as Hr.
  pose proof (Z.div_mod a P ltac:(lia)) as Hdm.
  pose proof (Z.mod_pos_bound a P HP) as Hm.
  assert (1 ≤ a / P) by (apply Z.div_le_lower_bound; lia).
  nia.
Qed.

Lemma round_pos_zero : JS.round_pos 0 1 = 0.
Proof. reflexivity. Qed.

Lemma round_q_sign n :
  JS.ltb (JS.Finite 0) (JS.round_q n 1) = (0 <? n).
Proof.
  unfold JS.round_q.
  destruct (Z.lt_trichotomy n 0) as [Hn|[->|Hn]].
  - pose proof (round_pos_lower (Z.abs n) ltac:(lia)) as Hk.
    destruct (JS.overflow_threshold <=? JS.round_pos (Z.abs n) 1); simpl.
    + destruct (Z.ltb_spec n 0), (Z.ltb_spec 0 n); simpl; lia.
    + destruct (Z.ltb_spec 0 (Z.sgn n * JS.round_pos (Z.abs n) 1)),
        (Z.ltb_spec 0 n); try done; nia.
  - reflexivity.
  - pose proof (round_pos_lower (Z.abs n) ltac:(lia)) as Hk.
    destruct (JS.overflow_threshold <=? JS.round_pos (Z.abs n) 1); simpl.
    + destruct (Z.ltb_spec n 0), (Z.ltb_spec 0 n); simpl; lia.
    + destruct (Z.ltb_spec 0 (Z.sgn n * JS.round_pos (Z.abs n) 1)),
        (Z.ltb_spec 0 n); try done; nia.
Qed.

(** The comparator's subtraction has the sign of the comparison. *)
Lemma sub_sign a b :
  JS.ltb (JS.Finite 0) (JS.sub (JS.Finite b) (JS.Finite a)) = (a <? b).
Proof.
  unfold JS.sub. rewrite round_q_sign.
  destruct (Z.ltb_spec 0 (b - a)), (Z.ltb_spec a b); lia.
Qed.

Lemma round_q_amount n : 0 ≤ n → is_amount (JS.round_q n 1).
Proof.
  intros Hn. unfold JS.round_q.
  destruct (JS.overflow_threshold <=? JS.round_pos (Z.abs n) 1); simpl.
  - destruct (Z.ltb_spec n 0); [lia|done].
  - destruct (Z.eq_dec n 0) as [->|Hne]; [done|].
    pose proof (round_pos_lower (Z.abs n) ltac:(lia)). nia.
Qed.

Lemma ofBigInt_amount q : 0 ≤ q → is_amount (JS.ofBigInt q).
Proof.
  intros Hq. apply round_q_amount.
  assert (0 < 2 ^ JS.quantum_bits) by (by apply Z.pow_pos_nonneg). nia.
Qed.

(** A BigInt whose Number is below 0.000001 is zero. *)
Lemma ofBigInt_negligible q :
  0 ≤ q → JS.ltb (JS.ofBigInt q) JS.lit_1em6 = true → JS.ofBigInt q = JS.Finite 0.
Proof.
  intros Hq Hlt. destruct (Z.eq_dec q 0) as [->|Hne]; [reflexivity|].
  exfalso. revert Hlt. unfold JS.ofBigInt, JS.round_q.
  assert (HQ : 2 ^ 1073 * 2 = 2 ^ JS.quantum_bits) by reflexivity.
  assert (0 < 2 ^ 1073) by (by apply Z.pow_pos_nonneg).
  set (n := q * 2 ^ JS.quantum_bits).
  assert (Hn : 2 ^ 1073 * 2 ≤ n) by (unfold n; nia).
  pose proof (round_pos_lower (Z.abs n) ltac:(lia)) as Hk.
  assert (Hlit : ∃ L, JS.lit_1em6 = JS.Finite L ∧ L < 2 ^ 1073).
  { eexists. split; [by vm_compute|by vm_compute]. }
  destruct Hlit as (L & -> & HL).
  destruct (JS.overflow_threshold <=? JS.round_pos (Z.abs n) 1); simpl.
  - destruct (n <? 0) eqn:Hneg; [|done].
    apply Z.ltb_lt in Hneg. lia.
  - intros Hlt%Z.ltb_lt. nia.
Qed.

Lemma mul_zero_finite p : JS.mul (JS.Finite 0) (JS.Finite p) = JS.Finite 0.
Proof. by vm_compute. Qed.

Lemma numberWithCommas_zero : numberWithCommas (JS.Finite 0) = "0.00".
Proof. by vm_compute. Qed.

(** ** The sort of the records *)

Lemma after_ltb a b :
  is_amount (roundedAmount a) → is_amount (roundedAmount b) →
  after a b = JS.ltb (roundedAmount a) (roundedAmount b).
Proof.
  unfold after, compare_records.
  destruct (roundedAmount a) as [|[]|ka], (roundedAmount b) as [|[]|kb];
    simpl is_amount; try done.
  intros _ _. apply sub_sign.
Qed.

Lemma descending_trans a b c :
  is_amount (roundedAmount a) → is_amount (roundedAmount b) →
  is_amount (roundedAmount c) →
  descending a b → descending b c → descending a c.
Proof.
  unfold descending.
  destruct (roundedAmount a) as [|[]|ka], (roundedAmount b) as [|[]|kb],
    (roundedAmount c) as [|[]|kc]; simpl; try done.
  intros _ _ _ H1%Z.ltb_ge H2%Z.ltb_ge. apply Z.ltb_ge. lia.
Qed.

Lemma ltb_descending a b :
  is_amount (roundedAmount a) → is_amount (roundedAmount b) →
  JS.ltb (roundedAmount a) (roundedAmount b) = true → descending b a.
Proof.
  unfold descending.
  destruct (roundedAmount a) as [|[]|ka], (roundedAmount b) as [|[]|kb];
    simpl; try done.
  intros _ _ H%Z.ltb_lt. apply Z.ltb_ge. lia.
Qed.

Lemma sort_insert_perm x l : sort_insert x l ≡ₚ x :: l.
Proof.
  induction l as [|y l IH]; simpl; [done|].
  destruct (after x y); [|done].
  rewrite IH. apply Permutation_swap.
Qed.

Lemma Array_sort_perm l : Array_sort l ≡ₚ l.
Proof.
  induction l as [|x l IH]; simpl; [done|].
  by rewrite sort_insert_perm, IH.
Qed.

Lemma sort_insert_sorted x l :
  is_amount (roundedAmount x) →
  Forall (λ r, is_amount (roundedAmount r)) l →
  StronglySorted descending l →
  StronglySorted descending (sort_insert x l).
Proof.
  intros Hx Hl Hsorted.
  induction Hsorted as [|y l Hsorted IH Hy]; simpl.
  { repeat constructor. }
  apply Forall_cons_1 in Hl as [Hya Hl].
  rewrite (after_ltb x y Hx Hya).
  destruct (JS.ltb (roundedAmount x) (roundedAmount y)) eqn:Hlt.
  - constructor; [by apply IH|].
    rewrite sort_insert_perm. constructor; [|done].
    by apply ltb_descending.
  - constructor; [by constructor|].
    constructor; [done|].
    rewrite Forall_forall in Hy, Hl. apply Forall_forall. intros z Hz.
    apply (descending_trans x y z); auto.
Qed.

Lemma Array_sort_sorted l :
  Forall (λ r, is_amount (roundedAmount r)) l →
  StronglySorted descending (Array_sort l).
Proof.
  induction 1 as [|x l Hx Hl IH]; simpl; [constructor|].
  apply sort_insert_sorted; [done| |done].
  by rewrite Array_sort_perm.
Qed.

(** ** Aggregation *)

Lemma parse_1e_divisor d D :
  JS.toBigInt (JS.parse_1e d) = Some D → 0 ≤ D.
Proof.
  unfold JS.parse_1e.
  assert (Hn : 0 ≤ 10 ^ Z.of_nat d * 2 ^ JS.quantum_bits).
  { apply Z.mul_nonneg_nonneg; apply Z.pow_nonneg; lia. }
  pose proof (round_q_amount _ Hn) as Ham.
  destruct (JS.round_q _ 1) as [| |k]; simpl in *; try done.
  destruct (k mod 2 ^ JS.quantum_bits =? 0); [|done].
  intros [= <-]. apply Z.div_pos; [done|by apply Z.pow_pos_nonneg].
Qed.

Lemma parse_1e_exact d :
  (d ≤ 22)%nat → JS.toBigInt (JS.parse_1e d) = Some (10 ^ Z.of_nat d).
Proof.
  intros Hd. do 23 (destruct d as [|d]; [by vm_compute|]). lia.
Qed.

(** What [format_balances] pushes, from index [i] on. *)
Lemma format_balances_spec tokenObject contractList i balances rs :
  format_balances tokenObject contractList i balances = Some rs →
  amount <$> rs = filter (λ b, 0 < b) balances
  ∧ Forall (λ r, 0 < amount r
                 ∧ (∃ q, 0 ≤ q ∧ roundedAmount r = JS.ofBigInt q)
                 ∧ dollarValue r
                   = numberWithCommas (JS.mul (roundedAmount r)
                                              (price tokenObject))) rs
  ∧ ∀ j b, balances !! j = Some b → 0 < b →
      ∃ r D, r ∈ rs ∧ amount r = b ∧ contract r = contractList !! (i + j)%nat
             ∧ JS.toBigInt (JS.parse_1e (decimals tokenObject)) = Some D
             ∧ roundedAmount r = JS.ofBigInt (Z.quot b D).
Proof.
  revert i rs. induction balances as [|b balances IH]; intros i rs Hrs.
  { simpl in Hrs. simplify_eq. split; [done|]. split; [constructor|].
    intros j b Hj. by rewrite lookup_nil in Hj. }
  simpl in Hrs.
  destruct (format_balance tokenObject contractList i b) as [r|] eqn:Hr;
    [|done]. simpl in Hrs.
  destruct (format_balances tokenObject contractList (S i) balances)
    as [rs'|] eqn:Hrs'; [|done]. simpl in Hrs.
  destruct (IH (S i) rs' Hrs') as (IH1 & IH2 & IH3).
  injection Hrs as <-. clear Hrs' IH.
  unfold format_balance in Hr. rewrite filter_cons.
  destruct (Z.ltb_spec 0 b) as [Hpos|Hneg].
  - destruct (JS.toBigInt (JS.parse_1e (decimals tokenObject)))
      as [D|] eqn:HD; [|done]. simpl in Hr.
    unfold bigint_div in Hr. destruct (Z.eqb_spec D 0) as [->|HD0]; [done|].
    simpl in Hr. simplify_eq.
    pose proof (parse_1e_divisor _ _ HD) as HDpos.
    rewrite decide_True by done. simpl. split; [by f_equal|].
    split.
    + constructor; [|done]. simpl. split; [done|]. split; [|done].
      eexists. split; [|done]. apply Z.quot_pos; lia.
    + intros [|j] b' Hj Hb'; simplify_eq/=.
      * eexists _, D. split; [apply elem_of_cons; by left|].
        by rewrite Nat.add_0_r.
      * destruct (IH3 j b' Hj Hb') as (r & D' & Hin & H1 & H2 & H3 & H4).
        exists r, D'. split; [apply elem_of_cons; by right|].
        by rewrite Nat.add_succ_r.
  - simplify_eq. rewrite decide_False by lia. simpl. split; [done|].
    split; [done|].
    intros [|j] b' Hj Hb'; simplify_eq/=; [lia|].
    destruct (IH3 j b' Hj Hb') as (r & D' & Hin & H1 & H2 & H3 & H4).
    exists r, D'. by rewrite Nat.add_succ_r.
Qed.

Lemma findBalances_aggregate cfg W schedule web3 (h : Heap) contractList
    tokenObject records :
  is_Some (h !! contractList) →
  (findBalances cfg W schedule web3 h contractList tokenObject).1.1
  = Fulfilled records →
  ∃ balances,
    returned (distributeTasks W schedule h
                (make_workers cfg web3 tokenObject) contractList)
    = Some balances
    ∧ aggregate tokenObject (h !!! contractList) balances = Some records.
Proof.
  intros Hcl. unfold findBalances.
  pose proof (distributeTasks_frame W schedule h
                (make_workers cfg web3 tokenObject) contractList
                contractList Hcl) as Hframe.
  set (s := distributeTasks W schedule h _ contractList) in *.
  assert (Hsame : heap s !!! contractList = h !!! contractList).
  { rewrite !lookup_total_alt. exact (f_equal (default inhabitant) Hframe). }
  destruct (returned s) as [balances|]; [|done]. rewrite Hsame.
  destruct (aggregate tokenObject (h !!! contractList) balances)
    as [rs|] eqn:Hag; simpl; [|done].
  intros [= <-]. by exists balances.
Qed.

Lemma aggregate_spec tokenObject contractList balances records :
  aggregate tokenObject contractList balances = Some records →
  ∃ rs, format_balances tokenObject contractList 0 balances = Some rs
        ∧ records = Array_sort rs ∧ records ≡ₚ rs.
Proof.
  unfold aggregate.
  destruct (format_balances tokenObject contractList 0 balances) as [rs|];
    [|done].
  intros [= <-]. exists rs. split; [done|]. split; [done|].
  apply Array_sort_perm.
Qed.

(** C6. The records [findBalances] returns are those of the strictly
    positive balances [distributeTasks] obtained, one each, and they are
    in descending order of roundedAmount; for the balances 5, 0, 100, 3
    of a token with 0 decimals and price 1 the records have the
    roundedAmounts 100, 5, 3 (and the raw amounts 100, 5, 3): none for the
    zero balance. *)
Theorem findBalances_positive_sorted :
  (∀ cfg W schedule web3 (h : Heap) contractList tokenObject records,
     is_Some (h !! contractList) →
     (findBalances cfg W schedule web3 h contractList tokenObject).1.1
     = Fulfilled records →
     ∃ balances,
       returned (distributeTasks W schedule h
                   (make_workers cfg web3 tokenObject) contractList)
       = Some balances
       ∧ amount <$> records ≡ₚ filter (λ b, 0 < b) balances
       ∧ Forall (λ r, 0 < amount r) records
       ∧ StronglySorted descending records)
  ∧ map roundedAmount Sample.ledger_records = map JS.ofBigInt [100; 5; 3]
  ∧ map amount Sample.ledger_records = [100; 5; 3]
  ∧ (findBalances Sample.clo Sample.ledger Sample.sequential
                  "web3" Sample.four 0%nat Sample.unit_token).1.1
    = Fulfilled Sample.ledger_records
  ∧ returned (distributeTasks Sample.ledger Sample.sequential Sample.four
                (make_workers Sample.clo "web3" Sample.unit_token) 0%nat)
    = Some [5; 0; 100; 3].
Proof.
  split; [|split_and!; by vm_compute].
  intros cfg W schedule web3 h contractList tokenObject records Hcl Hfb.
  destruct (findBalances_aggregate _ _ _ _ _ _ _ _ Hcl Hfb)
    as (balances & Hret & Hag).
  exists balances. split; [done|].
  destruct (aggregate_spec _ _ _ _ Hag) as (rs & Hrs & -> & Hperm).
  destruct (format_balances_spec _ _ _ _ _ Hrs) as (Hamounts & Hall & _).
  split; [by rewrite Hperm, Hamounts|]. split.
  - rewrite Hperm. eapply Forall_impl; [exact Hall|]. by intros r [? _].
  - apply Array_sort_sorted. eapply Forall_impl; [exact Hall|].
    intros r (_ & (q & Hq & ->) & _). by apply ofBigInt_amount.
Qed.

Lemma findBalances_sorted_witness :
  ∃ balances,
    returned (distributeTasks Sample.ledger Sample.sequential Sample.four
                (make_workers Sample.clo "web3" Sample.unit_token) 0%nat)
    = Some balances
    ∧ amount <$> Sample.ledger_records ≡ₚ filter (λ b, 0 < b) balances
    ∧ Forall (λ r, 0 < amount r) Sample.ledger_records
    ∧ StronglySorted descending Sample.ledger_records.
Proof.
  apply (proj1 findBalances_positive_sorted Sample.clo Sample.ledger
           Sample.sequential "web3" Sample.four 0%nat Sample.unit_token).
  - by eexists.
  - by vm_compute.
Defined.

(** The claim C8 as it is stated fails in two ways.  With the price
    Infinity (the JSON number 1e999), the records of the balances 5, 100
    and 3 of a token with 18 decimals have the roundedAmount 0, which is
    below 0.000001, and the dollar value "NaN".  With 23 decimals the
    divisor is BigInt(Number('1e23')) = 99999999999999991611392, and the
    balance 10^23 - 1, which is smaller than 10^23, has the roundedAmount 1
    and the dollar value "1". *)
Lemma negligible_amounts_not_always :
  (findBalances Sample.clo Sample.ledger Sample.sequential "web3" Sample.four
                0%nat Sample.unbounded).1.1
  = Fulfilled [mkRecord 5 (JS.Finite 0) "NaN" (Some "0xa");
               mkRecord 100 (JS.Finite 0) "NaN" (Some "0xc");
               mkRecord 3 (JS.Finite 0) "NaN" (Some "0xd")]
  ∧ JS.ltb (JS.Finite 0) JS.lit_1em6 = true
  ∧ 10 ^ 23 - 1 < 10 ^ Z.of_nat (decimals Sample.deep)
  ∧ JS.toBigInt (JS.parse_1e (decimals Sample.deep))
    = Some 99999999999999991611392
  ∧ (findBalances Sample.clo Sample.brim Sample.sequential "web3" Sample.four
                  0%nat Sample.deep).1.1
    = Fulfilled [mkRecord (10 ^ 23 - 1) (JS.ofBigInt 1) "1" (Some "0xa");
                 mkRecord (10 ^ 23 - 1) (JS.ofBigInt 1) "1" (Some "0xb");
                 mkRecord (10 ^ 23 - 1) (JS.ofBigInt 1) "1" (Some "0xc");
                 mkRecord (10 ^ 23 - 1) (JS.ofBigInt 1) "1" (Some "0xd")].
Proof. split_and!; by vm_compute. Qed.

(** C8. With a finite price, every strictly positive balance has its
    record in the list [findBalances] returns, with its address; a record
    whose roundedAmount is below 0.000001 has the dollar value "0.00"; such
    is the record of a balance smaller than the divisor
    BigInt(Number(`1e${decimals}`)), which is 10^decimals for the decimals
    up to 22, whose power of ten is a double: its roundedAmount is 0. *)
Theorem negligible_amounts_listed cfg W schedule web3 (h : Heap) contractList
    tokenObject records p :
  is_Some (h !! contractList) →
  price tokenObject = JS.Finite p →
  (findBalances cfg W schedule web3 h contractList tokenObject).1.1
  = Fulfilled records →
  ∃ balances,
    returned (distributeTasks W schedule h
                (make_workers cfg web3 tokenObject) contractList)
    = Some balances
    ∧ (∀ i b, balances !! i = Some b → 0 < b →
         ∃ r, r ∈ records ∧ amount r = b
              ∧ contract r = (h !!! contractList) !! i
              ∧ ((decimals tokenObject ≤ 22)%nat →
                 b < 10 ^ Z.of_nat (decimals tokenObject) →
                 roundedAmount r = JS.Finite 0 ∧ dollarValue r = "0.00")
              ∧ (∀ D, JS.toBigInt (JS.parse_1e (decimals tokenObject))
                      = Some D →
                      b < D →
                      roundedAmount r = JS.Finite 0
                      ∧ dollarValue r = "0.00"))
    ∧ (∀ r, r ∈ records →
         JS.ltb (roundedAmount r) JS.lit_1em6 = true →
         dollarValue r = "0.00").
Proof.
  intros Hcl Hprice Hfb.
  destruct (findBalances_aggregate _ _ _ _ _ _ _ _ Hcl Hfb)
    as (balances & Hret & Hag).
  exists balances. split; [done|].
  destruct (aggregate_spec _ _ _ _ Hag) as (rs & Hrs & _ & Hperm).
  destruct (format_balances_spec _ _ _ _ _ Hrs) as (_ & Hall & Hlisted).
  rewrite Forall_forall in Hall.
  assert (Hzero : ∀ r, r ∈ rs → roundedAmount r = JS.Finite 0 →
                        dollarValue r = "0.00").
  { intros r Hr H0. destruct (Hall r Hr) as (_ & _ & ->).
    by rewrite H0, Hprice, mul_zero_finite, numberWithCommas_zero. }
  split.
  - intros i b Hi Hb.
    destruct (Hlisted i b Hi Hb) as (r & D & Hr & Ham & Hc & HD & Hround).
    exists r. split; [by rewrite Hperm|]. split; [done|]. split; [done|].
    assert (Hsmall : b < D → roundedAmount r = JS.Finite 0
                             ∧ dollarValue r = "0.00").
    { intros Hlt.
      assert (roundedAmount r = JS.Finite 0) as H0.
      { rewrite Hround, Z.quot_small by lia. reflexivity. }
      split; [done|]. by apply Hzero. }
    split.
    + intros Hdec Hlt. rewrite (parse_1e_exact _ Hdec) in HD.
      simplify_eq. by apply Hsmall.
    + intros D' HD' Hlt. rewrite HD in HD'. simplify_eq. by apply Hsmall.
  - intros r Hr Hlt. rewrite Hperm in Hr. apply Hzero; [done|].
    destruct (Hall r Hr) as (_ & (q & Hq & Hrq) & _).
    rewrite Hrq in *. by apply ofBigInt_negligible.
Qed.

Lemma negligible_amounts_witness :
  ∃ balances,
    returned (distributeTasks Sample.flaky Sample.out_of_order Sample.store
                (make_workers Sample.cfg "web3" Sample.dust_token) 0%nat)
    = Some balances
    ∧ (∀ i b, balances !! i = Some b → 0 < b →
         ∃ r, r ∈ Sample.dust_records ∧ amount r = b
              ∧ contract r = (Sample.store !!! 0%nat) !! i
              ∧ ((decimals Sample.dust_token ≤ 22)%nat →
                 b < 10 ^ Z.of_nat (decimals Sample.dust_token) →
                 roundedAmount r = JS.Finite 0 ∧ dollarValue r = "0.00")
              ∧ (∀ D, JS.toBigInt (JS.parse_1e (decimals Sample.dust_token))
                      = Some D →
                      b < D →
                      roundedAmount r = JS.Finite 0
                      ∧ dollarValue r = "0.00"))
    ∧ (∀ r, r ∈ Sample.dust_records →
         JS.ltb (roundedAmount r) JS.lit_1em6 = true →
         dollarValue r = "0.00").
Proof.
  apply (negligible_amounts_listed Sample.cfg Sample.flaky Sample.out_of_order
           "web3" Sample.store 0%nat Sample.dust_token Sample.dust_records
           (3 * 2 ^ 1073)).
  - by eexists.
  - by vm_compute.
  - by vm_compute.
Defined.

(** ** getTokenInfo: what it resolves with *)

Lemma getTokenInfo_eq cfg W T :
  getTokenInfo cfg W T
  = let ticker := (read_ticker W T).1.1 in
    let validToken := (read_ticker W T).1.2 in
    let priced := read_price cfg W T ticker validToken in
    (match priced.1 with
     | None => Rejected
     | Some price =>
         Fulfilled (mkTokenInfo T ticker validToken
                      (match call_decimals W T with
                       | Some d => if (d =? 0)%nat then 18%nat else d
                       | None => 18%nat
                       end) price)
     end,
     (read_ticker W T).2 ++ [CallDecimals T] ++ priced.2).
Proof.
  unfold getTokenInfo. destruct (read_ticker W T) as [[tick validToken] t1].
  simpl. destruct (read_price cfg W T tick validToken) as [[price|] t2];
    simpl; [|done].
  by destruct (call_decimals W T) as [[|d]|].
Qed.

Lemma getTokenInfo_fulfilled cfg W T tokenObject :
  (getTokenInfo cfg W T).1 = Fulfilled tokenObject →
  address tokenObject = T
  ∧ ticker tokenObject = (read_ticker W T).1.1
  ∧ valid tokenObject = (read_ticker W T).1.2
  ∧ decimals tokenObject
    = match call_decimals W T with
      | Some d => if (d =? 0)%nat then 18%nat else d
      | None => 18%nat
      end
  ∧ (read_price cfg W T (ticker tokenObject) (valid tokenObject)).1
    = Some (price tokenObject).
Proof.
  rewrite getTokenInfo_eq. simpl.
  destruct (read_price cfg W T _ _).1 as [price|] eqn:Hprice; [|done].
  by intros [= <-].
Qed.

Lemma getTokenInfo_not_pending cfg W T : (getTokenInfo cfg W T).1 ≠ Pending.
Proof.
  rewrite getTokenInfo_eq. simpl. by destruct (read_price cfg W T _ _).1.
Qed.

Lemma read_ticker_valid W T :
  (read_ticker W T).1.2
  = if falsy (call_symbol W T) && falsy (call_ticker W T)
    then Some (bool_decide (is_Some (call_symbol32 W T)))
    else Some true.
Proof.
  unfold read_ticker.
  destruct (call_symbol W T) as [[|c s]|], (call_ticker W T) as [[|c' s']|],
    (call_symbol32 W T) as [s32|]; simpl; by repeat case_match.
Qed.

Lemma read_ticker_ticker W T :
  is_Some (read_ticker W T).1.1
  ∧ ((read_ticker W T).1.2 = Some false →
     (read_ticker W T).1.1 = Some "unknown").
Proof.
  unfold read_ticker.
  destruct (call_symbol W T) as [[|c s]|], (call_ticker W T) as [[|c' s']|],
    (call_symbol32 W T) as [s32|]; simpl;
    repeat case_match; simplify_eq/=; split; by eauto.
Qed.

Lemma read_price_invalid cfg W T tick validToken :
  validToken ≠ Some true →
  read_price cfg W T tick validToken = (Some (JS.Finite 0), []).
Proof. unfold read_price. by destruct validToken as [[]|]. Qed.

(** ** getTokenInfo: the decimals, and the price when no service answers *)

Lemma getTokenInfo_decimals cfg W T tokenObject :
  (getTokenInfo cfg W T).1 = Fulfilled tokenObject →
  decimals tokenObject
  = match call_decimals W T with
    | Some d => if (d =? 0)%nat then 18%nat else d
    | None => 18%nat
    end.
Proof. intros Hinfo. by apply (getTokenInfo_fulfilled cfg W T). Qed.

(** No price request is answered with a price: each one is rejected, or
    has a status other than 200, or a body that is not JSON, or a JSON
    value without the properties price and USD. *)
Lemma try_fetch_no_price W url priceObj :
  (∀ url body, fetch W url = Some (200%nat, Some body) →
               body = JsonValue (mkPriceObj None None)) →
  try_fetch W url priceObj = priceObj
  ∨ try_fetch W url priceObj = JsonValue (mkPriceObj None None).
Proof.
  intros Hnone. unfold try_fetch. specialize (Hnone url).
  destruct (fetch W url) as [[status [body|]]|]; try by left.
  destruct (Nat.eqb_spec status 200) as [->|]; [|by left].
  right. by apply Hnone.
Qed.

Lemma read_price_default cfg W T tick validToken :
  (∀ url body, fetch W url = Some (200%nat, Some body) →
               body = JsonValue (mkPriceObj None None)) →
  (read_price cfg W T tick validToken).1 = Some (JS.Finite 0).
Proof.
  intros Hnone. unfold read_price.
  destruct validToken as [[]|]; try done.
  destruct (try_fetch_no_price W (absolutewallet_url cfg T)
              (JsonValue (mkPriceObj (Some (JS.Finite 0)) (Some (JS.Finite 0))))
              Hnone) as [-> | ->]; simpl; [|done].
  by destruct (try_fetch_no_price W (cryptocompare_url tick)
              (JsonValue (mkPriceObj (Some (JS.Finite 0)) (Some (JS.Finite 0))))
              Hnone) as [-> | ->].
Qed.

Lemma getTokenInfo_price_default cfg W T :
  (∀ url body, fetch W url = Some (200%nat, Some body) →
               body = JsonValue (mkPriceObj None None)) →
  ∃ tokenObject, (getTokenInfo cfg W T).1 = Fulfilled tokenObject
                 ∧ price tokenObject = JS.Finite 0.
Proof.
  intros Hnone. rewrite getTokenInfo_eq. simpl.
  rewrite (read_price_default cfg W T _ _ Hnone). by eexists.
Qed.

Lemma parse_1e_divisor_pos d D :
  JS.toBigInt (JS.parse_1e d) = Some D → 0 < D.
Proof.
  unfold JS.parse_1e, JS.round_q.
  assert (HQ : 0 < 2 ^ JS.quantum_bits) by (by apply Z.pow_pos_nonneg).
  assert (0 < 10 ^ Z.of_nat d) by (apply Z.pow_pos_nonneg; lia).
  set (n := 10 ^ Z.of_nat d * 2 ^ JS.quantum_bits).
  assert (Hn : 0 < n) by (unfold n; nia).
  pose proof (round_pos_lower (Z.abs n) ltac:(lia)) as Hk.
  destruct (JS.overflow_threshold <=? JS.round_pos (Z.abs n) 1); [done|].
  simpl. set (k := Z.sgn n * JS.round_pos (Z.abs n) 1) in *.
  assert (0 < k) by (unfold k; nia).
  destruct (Z.eqb_spec (k mod 2 ^ JS.quantum_bits) 0) as [Hmod|]; [|done].
  intros [= <-].
  pose proof (Z.div_mod k (2 ^ JS.quantum_bits) ltac:(lia)). nia.
Qed.

Lemma format_balances_defined tokenObject contractList i balances D :
  JS.toBigInt (JS.parse_1e (decimals tokenObject)) = Some D →
  is_Some (format_balances tokenObject contractList i balances).
Proof.
  intros HD. pose proof (parse_1e_divisor_pos _ _ HD) as Hpos. revert i.
  induction balances as [|b balances IH]; intros i; simpl; [by eexists|].
  destruct (IH (S i)) as [rs ->]. unfold format_balance, bigint_div.
  rewrite HD. simpl. destruct (Z.eqb_spec D 0); [lia|].
  destruct (0 <? b); by eexists.
Qed.

Lemma processOneToken_outcome cfg W schedule web3 (h : Heap) contractList T
    tokenObject :
  (getTokenInfo cfg W T).1 = Fulfilled tokenObject →
  let outcome := (processOneToken cfg W schedule web3 h contractList T).1.1 in
  (outcome = Rejected →
     JS.toBigInt (JS.parse_1e (decimals tokenObject)) = None)
  ∧ ∀ res, outcome = Fulfilled res →
      (res_decimals res = 18%nat ∧ res_price res = JS.Finite 0)
      ∨ (res_decimals res = decimals tokenObject
         ∧ res_price res = price tokenObject).
Proof.
  intros Hinfo. unfold processOneToken.
  destruct (getTokenInfo cfg W T) as [tokenObject' t1]. simpl in Hinfo. subst.
  destruct (working_list cfg h contractList T) as [h2 localList].
  destruct (not_valid tokenObject); simpl.
  { split; [done|]. intros res [= <-]. by left. }
  unfold findBalances.
  destruct (returned _) as [balances|]; [|done].
  unfold aggregate.
  destruct (JS.toBigInt (JS.parse_1e (decimals tokenObject))) as [D|] eqn:HD.
  - match goal with
    | |- context [format_balances ?t ?l ?i ?b] =>
        destruct (format_balances_defined t l i b D HD) as [rs ->]
    end. simpl.
    split; [done|]. intros res [= <-]. by right.
  - split; [done|].
    destruct (format_balances _ _ _ _); simpl; [|done].
    intros res [= <-]. by right.
Qed.

(** ** formatTokenResult: the header total *)

Lemma format_loop_from tick rs localStr sum :
  snd (fold_left (format_step tick) rs (localStr, sum))
  = sum + total_amount rs.
Proof.
  revert localStr sum. induction rs as [|r rs IH]; intros localStr sum.
  { unfold total_amount. csimpl. lia. }
  simpl. rewrite IH. unfold total_amount. csimpl. lia.
Qed.

Lemma format_loop_sum tick rs : snd (format_loop tick rs) = total_amount rs.
Proof. unfold format_loop. by rewrite format_loop_from. Qed.

Lemma total_amount_perm rs rs' : rs ≡ₚ rs' → total_amount rs = total_amount rs'.
Proof.
  unfold total_amount.
  induction 1 as [|r rs rs' _ IH|r r' rs|rs rs' rs'' _ IH _ IH'];
    csimpl in *; lia.
Qed.

Lemma append_assoc (s1 s2 s3 : string) :
  (s1 +:+ s2) +:+ s3 = s1 +:+ s2 +:+ s3.
Proof.
  induction s1 as [|c s1 IH]; [done|].
  change (String c ((s1 +:+ s2) +:+ s3) = String c (s1 +:+ s2 +:+ s3)).
  by rewrite IH.
Qed.

Lemma header_total_eq res :
  header_total res
  = JS.div (JS.ofBigInt (total_amount (records res)))
           (JS.parse_1e (res_decimals res)).
Proof. unfold header_total. by rewrite format_loop_sum. Qed.

(** The header total of the claimed example is the double 3: not the
    exact quotient 3000000000000000003 / 10^18. *)
Lemma header_total_not_exact :
  total_amount (records Sample.wei_result) = 3000000000000000003
  ∧ ¬ exact_quotient (header_total Sample.wei_result)
                     (total_amount (records Sample.wei_result))
                     (10 ^ Z.of_nat (res_decimals Sample.wei_result)).
Proof.
  split; [by vm_compute|].
  intros (k & Hk & Hexact).
  vm_compute in Hk. injection Hk as <-. vm_compute in Hexact. done.
Qed.

(** C4 (amended). For a scan result with a ticker and a price other than
    -1, the header total of [formatTokenResult] is the double
    Number(S) / Number(`1e${decimals}`), where S is the exact integer sum
    of the records' raw amounts, whatever their order and their rounded
    amounts; the dollar total is that double times the price, and both
    are what the header line shows.  For the raw balances
    1000000000000000001 and 2000000000000000002 at 18 decimals the total
    is the double 3, shown as "3".  It is not the sum of the rounded
    amounts: for two balances of 1.5 tokens the total is 3, and the
    rounded amounts are 1 and 1.  It is the exact quotient only up to the
    rounding of doubles: for the balance 1289999999999999999 it is shown
    as "1.29". *)
Theorem header_total_from_exact_sum :
  (∀ res tick,
     res_ticker res = Some tick → tick ≠ "" →
     number_eqb (res_price res) minus_one = false →
     header_total res
     = JS.div (JS.ofBigInt (total_amount (records res)))
              (JS.parse_1e (res_decimals res))
     ∧ (∀ rs, rs ≡ₚ records res →
          header_total (mkScanResult (tokenAddress res) (res_ticker res)
                                     (res_decimals res) (res_price res) rs)
          = header_total res)
     ∧ asDollar (formatTokenResult res)
       = JS.mul (header_total res) (res_price res)
     ∧ ∃ lines,
         resStr (formatTokenResult res)
         = tick +:+ " [" +:+ tokenAddress res +:+ "]: "
           +:+ numberWithCommas (header_total res) +:+ " tokens lost / $"
           +:+ numberWithCommas (JS.mul (header_total res) (res_price res))
           +:+ divider +:+ lines)
  ∧ (header_total Sample.wei_result = JS.ofBigInt 3
     ∧ numberWithCommas (header_total Sample.wei_result) = "3")
  ∧ (header_total Sample.halves_result = JS.ofBigInt 3
     ∧ map roundedAmount (records Sample.halves_result)
       = map JS.ofBigInt [1; 1])
  ∧ (total_amount (records Sample.below_129_result) = 1289999999999999999
     ∧ numberWithCommas (header_total Sample.below_129_result) = "1.29").
Proof.
  split; [|split_and!; by vm_compute].
  intros res tick Htick Hne Hprice.
  split; [apply header_total_eq|]. split.
  { intros rs Hperm. rewrite !header_total_eq. simpl.
    by rewrite (total_amount_perm _ _ Hperm). }
  unfold formatTokenResult, header_total. rewrite Htick. simpl.
  destruct tick as [|c tick]; [done|]. rewrite Hprice.
  destruct (format_loop (String c tick) (records res)) as [localStr sum].
  simpl. split; [done|]. exists localStr.
  by rewrite !append_assoc.
Qed.

Lemma header_total_witness :
  asDollar (formatTokenResult Sample.halves_result)
  = JS.mul (header_total Sample.halves_result)
           (res_price Sample.halves_result).
Proof.
  apply (proj1 header_total_from_exact_sum Sample.halves_result "TKN").
  - reflexivity.
  - discriminate.
  - by vm_compute.
Defined.

(** ** parseAddress *)

Lemma String_split_cons sep s : ∃ p ps, String_split sep s = p :: ps.
Proof.
  induction s as [|c s (p & ps & IH)]; simpl; [by eexists _, _|].
  destruct (sep c); [by eexists _, _|]. rewrite IH. by eexists _, _.
Qed.

Lemma String_split_free sep s : Forall (free_of sep) (String_split sep s).
Proof.
  induction s as [|c s IH]; simpl; [by repeat constructor|].
  destruct (sep c) eqn:Hc; [by constructor|].
  destruct (String_split sep s) as [|p ps]; [by repeat constructor|].
  apply Forall_cons_1 in IH as [Hp Hps]. by constructor.
Qed.

Lemma trim_start_free p s : free_of p s → free_of p (trim_start s).
Proof.
  induction s as [|c s IH]; simpl; [done|].
  intros [Hc Hs]. destruct (is_whitespace c); [by apply IH|done].
Qed.

Lemma trim_end_free p s : free_of p s → free_of p (trim_end s).
Proof.
  induction s as [|c s IH]; simpl; [done|].
  intros [Hc Hs]. specialize (IH Hs).
  destruct (trim_end s) as [|c' r]; [|done].
  by destruct (is_whitespace c).
Qed.

Lemma String_trim_free p s : free_of p s → free_of p (String_trim s).
Proof. intros Hs. by apply trim_end_free, trim_start_free. Qed.

Lemma trim_end_idemp s : trim_end (trim_end s) = trim_end s.
Proof.
  induction s as [|c s IH]; simpl; [done|].
  destruct (trim_end s) as [|c' r] eqn:Hr.
  - destruct (is_whitespace c) eqn:Hc; simpl; [done|]. by rewrite Hc.
  - simpl in *. by rewrite IH.
Qed.

Lemma trim_start_trimmed s :
  trim_start (trim_end (trim_start s)) = trim_end (trim_start s).
Proof.
  induction s as [|c s IH]; simpl; [done|].
  destruct (is_whitespace c) eqn:Hc; [done|]. simpl.
  destruct (trim_end s) as [|c' r]; rewrite ?Hc; simpl; by rewrite Hc.
Qed.

Lemma String_trim_idemp s : String_trim (String_trim s) = String_trim s.
Proof.
  unfold String_trim. by rewrite trim_start_trimmed, trim_end_idemp.
Qed.

Lemma accepted_spec web3 pieces :
  Forall (free_of is_separator) pieces →
  Forall (λ name, checkEthAddress web3 name = true
                  ∧ String_trim name = name
                  ∧ free_of is_separator name)
         (accepted web3 pieces).
Proof.
  induction 1 as [|l pieces Hl _ IH]; simpl; [constructor|].
  destruct (checkEthAddress web3 (String_trim l)) eqn:Hcheck; [|done].
  constructor; [|done].
  split; [done|]. split; [apply String_trim_idemp|by apply String_trim_free].
Qed.

Lemma accepted_fixed web3 names :
  Forall (λ name, checkEthAddress web3 name = true
                  ∧ String_trim name = name
                  ∧ free_of is_separator name) names →
  accepted web3 names = names.
Proof.
  induction 1 as [|name names (Hcheck & Htrim & _) _ IH]; simpl; [done|].
  by rewrite Htrim, Hcheck, IH.
Qed.

Lemma String_split_free_piece sep x c rest :
  free_of sep x → sep c = true →
  String_split sep (x +:+ String c rest) = x :: String_split sep rest.
Proof.
  intros Hx Hc. induction x as [|d x IH].
  - change (String_split sep (String c rest) = "" :: String_split sep rest).
    simpl. by rewrite Hc.
  - destruct Hx as [Hd Hx].
    change (String_split sep (String d (x +:+ String c rest))
            = String d x :: String_split sep rest).
    simpl. by rewrite Hd, (IH Hx).
Qed.

Lemma String_split_free_whole sep x :
  free_of sep x → String_split sep x = [x].
Proof.
  induction x as [|d x IH]; simpl; [done|].
  intros [Hd Hx]. by rewrite Hd, (IH Hx).
Qed.

Lemma String_split_join names :
  names ≠ [] → Forall (free_of is_separator) names →
  String_split is_separator (join_lines names) = names.
Proof.
  intros Hne Hfree. induction Hfree as [|x names Hx Hnames IH]; [done|].
  destruct names as [|y names].
  - simpl. by apply String_split_free_whole.
  - change (String_split is_separator
              (x +:+ String (ascii_of_nat 10) (join_lines (y :: names)))
            = x :: y :: names).
    rewrite String_split_free_piece by done. by rewrite IH.
Qed.

Lemma accepted_filter web3 pieces :
  accepted web3 pieces
  = List.filter (checkEthAddress web3) (map String_trim pieces).
Proof.
  induction pieces as [|l pieces IH]; simpl; [done|].
  by destruct (checkEthAddress web3 (String_trim l)); rewrite IH.
Qed.

Lemma accepted_lines web3 address :
  let names := accepted web3 (String_split is_separator address) in
  Forall (λ name, checkEthAddress web3 name = true
                  ∧ String_trim name = name
                  ∧ free_of is_separator name) names
  ∧ (names = [] → parseAddress web3 address = "")
  ∧ (names ≠ [] →
     String_split is_separator (parseAddress web3 address) = names).
Proof.
  intros names.
  assert (Hnames := accepted_spec web3 _ (String_split_free is_separator address)).
  fold names in Hnames. split; [done|]. split.
  - intros Hnil. unfold parseAddress. fold names. by rewrite Hnil.
  - intros Hne. unfold parseAddress. fold names.
    apply String_split_join; [done|].
    eapply Forall_impl; [exact Hnames|]. by intros name (_ & _ & ?).
Qed.

(** X1. parseAddress keeps every entry of the input, cut at the
    separators and trimmed, that [checkEthAddress] accepts, and no other,
    in the order of the input: the result is these entries joined by line
    feeds; each of them is free of surrounding white space and of
    separators, so that the result, split at its separators again, gives
    back exactly these entries (when there is one; otherwise the result is
    the empty string). *)
Theorem parseAddress_lines web3 address :
  let kept := List.filter (checkEthAddress web3)
                (map String_trim (String_split is_separator address)) in
  parseAddress web3 address = join_lines kept
  ∧ Forall (λ name, String_trim name = name ∧ free_of is_separator name) kept
  ∧ (kept = [] → parseAddress web3 address = "")
  ∧ (kept ≠ [] →
     String_split is_separator (parseAddress web3 address) = kept).
Proof.
  intros kept. unfold kept. rewrite <-accepted_filter.
  destruct (accepted_lines web3 address) as (Hnames & Hnil & Hsplit).
  split; [done|]. split; [|done].
  eapply Forall_impl; [exact Hnames|]. by intros name (_ & ? & ?).
Qed.

Lemma parseAddress_lines_witness :
  String_split is_separator (parseAddress Sample.utils Sample.pasted)
  = ["0xa"; "0xb"; "0xc"].
Proof.
  pose proof (parseAddress_lines Sample.utils Sample.pasted)
    as (_ & _ & _ & Hsplit).
  etrans; [apply Hsplit; vm_compute; discriminate|by vm_compute].
Defined.

(** X2. parseAddress is idempotent: a list it produced is left as it is. *)
Theorem parseAddress_idempotent web3 address :
  parseAddress web3 (parseAddress web3 address) = parseAddress web3 address.
Proof.
  destruct (accepted_lines web3 address) as (Hnames & Hnil & Hsplit).
  destruct (accepted web3 (String_split is_separator address))
    as [|name names] eqn:Hacc.
  - rewrite (Hnil eq_refl). unfold parseAddress. simpl.
    by destruct (checkEthAddress web3 (String_trim "")).
  - unfold parseAddress at 1. rewrite Hsplit by done.
    rewrite (accepted_fixed web3 _ Hnames).
    unfold parseAddress. by rewrite Hacc.
Qed.

Lemma String_split_with_line_feeds address :
  String_split is_separator (with_line_feeds address)
  = String_split is_separator address.
Proof.
  induction address as [|c s IH]; simpl; [done|].
  destruct (is_separator c) eqn:Hc.
  - change (is_separator (ascii_of_nat 10)) with true. simpl. by rewrite IH.
  - by rewrite Hc, IH.
Qed.

(** X3. parseAddress does not distinguish its separators: commas and
    semicolons can be replaced by line feeds without changing the
    result. *)
Theorem parseAddress_separators web3 address :
  parseAddress web3 (with_line_feeds address) = parseAddress web3 address.
Proof. unfold parseAddress. by rewrite String_split_with_line_feeds. Qed.

(** ** The worker pool: what it asks, and when it cannot return *)

Lemma step_pool_event W input ws t s s' :
  step W t s = Some s' → pool_inv W input ws s →
  Forall (pool_event ws input) (trace s) →
  Forall (pool_event ws input) (trace s').
Proof.
  intros Hstep Hinv Htrace. destruct t as [|j]; simpl in Hstep.
  - unfold resume in Hstep. destruct (ctl s) as [|index|balances] eqn:Hctl.
    + destruct (heap s !!! taskQueue s) as [|task rest].
      * destruct (Promise_all (completedTasks s)); by simplify_eq/=.
      * destruct (findIndex_idle (workers s)); simplify_eq/=; [done|].
        apply Forall_app. split; [done|]. by repeat constructor.
    + destruct (heap s !!! taskQueue s) as [|task rest] eqn:Hqueue; [done|].
      destruct (workers s !! index) as [w|] eqn:Hw; simplify_eq/=.
      apply Forall_app. split; [done|].
      destruct (balanceOf_throws W (token w) task); [constructor|].
      repeat constructor.
      * rewrite <-(inv_tokens _ _ _ _ Hinv).
        eapply list_elem_of_fmap_2, list_elem_of_lookup_2, Hw.
      * pose proof (inv_queue _ _ _ _ Hinv) as Hq. rewrite Hqueue in Hq.
        symmetry in Hq. apply drop_cons_inv in Hq as (Htask & _).
        by eapply list_elem_of_lookup_2.
    + done.
  - unfold response in Hstep.
    destruct (inflight s !! j) as [q|] eqn:Hj; [|done]. simpl in Hstep.
    destruct (workers s !! q_worker q) as [w|] eqn:Hw; [|done].
    simpl in Hstep.
    destruct (balanceOf_throws W (token w) (q_address q)); [done|].
    destruct (call_balanceOf W (token w) (q_address q) (q_attempt q));
      simplify_eq/=; [done|].
    apply Forall_app. split; [done|]. repeat constructor.
    + rewrite <-(inv_tokens _ _ _ _ Hinv).
      eapply list_elem_of_fmap_2, list_elem_of_lookup_2, Hw.
    + destruct (inv_query _ _ _ _ Hinv q) as (Ha & _).
      { by eapply list_elem_of_lookup_2. }
      by eapply list_elem_of_lookup_2.
Qed.

Lemma run_pool_event W input ws schedule s :
  pool_inv W input ws s →
  Forall (pool_event ws input) (trace s) →
  Forall (pool_event ws input) (trace (run W schedule s)).
Proof.
  revert s. induction schedule as [|t schedule IH]; intros s Hinv Htrace;
    [done|].
  simpl. destruct (step W t s) as [s'|] eqn:Hstep; simpl.
  - apply IH; [by eapply step_inv|by eapply step_pool_event].
  - by apply IH.
Qed.

(** X9. distributeTasks asks nothing but the balances of addresses of its
    list, from contract handles of its pool, and 10 ms timers, whatever
    the schedule. *)
Theorem distributeTasks_requests W schedule (h : Heap) ws contractList :
  Forall (pool_event ws (h !!! contractList))
         (trace (distributeTasks W schedule h ws contractList)).
Proof.
  apply run_pool_event; [apply distribute_init_inv|].
  unfold distribute_init, spread. simpl. constructor.
Qed.

(** X10. An address whose balance query no handle of the pool ever answers
    keeps distributeTasks from returning: the result is withheld
    forever, whatever the other queries gave. *)
Theorem distributeTasks_stalls W schedule (h : Heap) ws contractList a :
  a ∈ h !!! contractList →
  (∀ c k, c ∈ token <$> ws → call_balanceOf W c a k = None) →
  returned (distributeTasks W schedule h ws contractList) = None.
Proof.
  intros Ha Hdead.
  pose proof (distributeTasks_inv W schedule h ws contractList) as Hinv.
  unfold returned.
  destruct (ctl (distributeTasks W schedule h ws contractList))
    as [| |balances] eqn:Hctl; [done|done|].
  exfalso. destruct (inv_returned _ _ _ _ Hinv balances Hctl) as [Hall Hlen].
  apply list_elem_of_lookup in Ha as [i Hi].
  assert (Hlt : (i < length (completedTasks
                   (distributeTasks W schedule h ws contractList)))%nat).
  { rewrite Hlen. by eapply lookup_lt_Some. }
  apply lookup_lt_is_Some in Hlt as [[v|] Hp].
  - destruct (inv_resolved _ _ _ _ Hinv i v Hp)
      as (a' & c & Ha' & Hc & _ & M & _ & HM).
    assert (a' = a) as -> by congruence.
    by rewrite (Hdead c M Hc) in HM.
  - by destruct (Promise_all_resolved _ _ i Hall).
Qed.

Lemma distributeTasks_stalls_witness :
  returned (distributeTasks Sample.deaf Sample.out_of_order Sample.store
                            Sample.pool 0%nat) = None.
Proof.
  apply (distributeTasks_stalls Sample.deaf Sample.out_of_order Sample.store
           Sample.pool 0%nat "0xc").
  - apply elem_of_cons; right. apply elem_of_cons; right.
    apply elem_of_cons; by left.
  - intros c k _. reflexivity.
Defined.

Lemma step_issued_event W t s s' :
  step W t s = Some s' →
  Forall (issued_event W) (trace s) → Forall (issued_event W) (trace s').
Proof.
  intros Hstep Htrace. destruct t as [|j]; simpl in Hstep.
  - unfold resume in Hstep. destruct (ctl s) as [|index|balances].
    + destruct (heap s !!! taskQueue s) as [|task rest].
      * destruct (Promise_all (completedTasks s)); by simplify_eq/=.
      * destruct (findIndex_idle (workers s)); simplify_eq/=; [done|].
        apply Forall_app. split; [done|]. by repeat constructor.
    + destruct (heap s !!! taskQueue s) as [|task rest]; [done|].
      destruct (workers s !! index) as [w|]; simplify_eq/=.
      apply Forall_app. split; [done|].
      destruct (balanceOf_throws W (token w) task) eqn:Hbuilt;
        by repeat constructor.
    + done.
  - unfold response in Hstep.
    destruct (inflight s !! j) as [q|]; [|done]. simpl in Hstep.
    destruct (workers s !! q_worker q) as [w|]; [|done]. simpl in Hstep.
    destruct (balanceOf_throws W (token w) (q_address q)) eqn:Hbuilt; [done|].
    destruct (call_balanceOf W (token w) (q_address q) (q_attempt q));
      simplify_eq/=; [done|].
    apply Forall_app. split; [done|]. by repeat constructor.
Qed.

Lemma run_issued_event W schedule s :
  Forall (issued_event W) (trace s) →
  Forall (issued_event W) (trace (run W schedule s)).
Proof.
  revert s. induction schedule as [|t schedule IH]; intros s Htrace; [done|].
  simpl. destruct (step W t s) as [s'|] eqn:Hstep; simpl.
  - apply IH. by eapply step_issued_event.
  - by apply IH.
Qed.

(** X27. distributeTasks makes no balance query with an address web3 does not
    accept; and an address of the list that web3 accepts on no handle of
    the pool keeps distributeTasks from returning, without a single query
    for it. *)
Theorem distributeTasks_refused_address W schedule (h : Heap) ws contractList :
  let s := distributeTasks W schedule h ws contractList in
  Forall (issued_event W) (trace s)
  ∧ ∀ a, a ∈ h !!! contractList →
         (∀ c, c ∈ token <$> ws → balanceOf_throws W c a = true) →
         returned s = None ∧ ∀ c, BalanceOf c a ∉ trace s.
Proof.
  intros s.
  assert (Hissued : Forall (issued_event W) (trace s)).
  { apply run_issued_event. unfold distribute_init, spread. simpl.
    constructor. }
  split; [done|]. intros a Ha Hrefused. split.
  - pose proof (distributeTasks_inv W schedule h ws contractList) as Hinv.
    fold s in Hinv. unfold returned.
    destruct (ctl s) as [| |balances] eqn:Hctl; [done|done|].
    exfalso.
    destruct (inv_returned _ _ _ _ Hinv balances Hctl) as [Hall Hlen].
    apply list_elem_of_lookup in Ha as [i Hi].
    assert (Hlt : (i < length (completedTasks s))%nat).
    { rewrite Hlen. by eapply lookup_lt_Some. }
    apply lookup_lt_is_Some in Hlt as [[v|] Hp].
    + destruct (inv_resolved _ _ _ _ Hinv i v Hp)
        as (a' & c & Ha' & Hc & Hbuilt & _).
      assert (a' = a) as -> by congruence.
      by rewrite (Hrefused c Hc) in Hbuilt.
    + by destruct (Promise_all_resolved _ _ i Hall).
  - intros c Hin.
    pose proof (run_pool_event W (h !!! contractList) ws schedule
                  (distribute_init h ws contractList)
                  (distribute_init_inv _ _ _ _)
                  ltac:(unfold distribute_init, spread; simpl; constructor))
      as Hpool.
    rewrite Forall_forall in Hpool, Hissued.
    destruct (Hpool _ Hin) as [Hc _]. specialize (Hissued _ Hin).
    simpl in Hissued. by rewrite (Hrefused c Hc) in Hissued.
Qed.

Lemma distributeTasks_refused_witness :
  returned (distributeTasks Sample.picky Sample.out_of_order Sample.mixed
                            Sample.pool 0%nat) = None
  ∧ ∀ c, BalanceOf c "0x"
         ∉ trace (distributeTasks Sample.picky Sample.out_of_order
                                  Sample.mixed Sample.pool 0%nat).
Proof.
  apply (distributeTasks_refused_address Sample.picky Sample.out_of_order
           Sample.mixed Sample.pool 0%nat).
  - apply elem_of_cons; right. apply elem_of_cons; by left.
  - intros c _. reflexivity.
Defined.

Lemma repeat_snoc {A} (x : A) n : repeat x n ++ [x] = repeat x (S n).
Proof. induction n as [|n IH]; simpl; [done|]. by rewrite IH. Qed.

Lemma empty_pool_step W t s s' :
  step W t s = Some s' →
  workers s = [] → ctl s = Polling → inflight s = [] →
  heap s !!! taskQueue s ≠ [] →
  workers s' = [] ∧ ctl s' = Polling ∧ inflight s' = []
  ∧ heap s' !!! taskQueue s' = heap s !!! taskQueue s
  ∧ trace s' = trace s ++ [SetTimeout 10].
Proof.
  intros Hstep Hws Hctl Hfl Hqueue. destruct t as [|j]; simpl in Hstep.
  - unfold resume in Hstep. rewrite Hctl in Hstep.
    destruct (heap s !!! taskQueue s) as [|task rest] eqn:Hq; [done|].
    rewrite Hws in Hstep. simpl in Hstep. simplify_eq/=.
    by rewrite Hq.
  - unfold response in Hstep. by rewrite Hfl in Hstep.
Qed.

(** X11. With an empty pool and a list that is not empty, distributeTasks
    never returns and never queries a balance: all it does is set its
    10 ms timer again. *)
Theorem distributeTasks_empty_pool W schedule (h : Heap) contractList :
  h !!! contractList ≠ [] →
  returned (distributeTasks W schedule h [] contractList) = None
  ∧ ∃ n, trace (distributeTasks W schedule h [] contractList)
         = repeat (SetTimeout 10) n.
Proof.
  intros Hne. unfold distributeTasks.
  assert (Hgen : ∀ s, workers s = [] → ctl s = Polling → inflight s = [] →
            heap s !!! taskQueue s ≠ [] →
            (∃ n, trace s = repeat (SetTimeout 10) n) →
            ctl (run W schedule s) = Polling
            ∧ ∃ n, trace (run W schedule s) = repeat (SetTimeout 10) n).
  { induction schedule as [|t schedule IH]; intros s Hws Hctl Hfl Hq Htr;
      [done|].
    simpl. destruct (step W t s) as [s'|] eqn:Hstep; simpl; [|by apply IH].
    destruct (empty_pool_step W t s s' Hstep Hws Hctl Hfl Hq)
      as (Hws' & Hctl' & Hfl' & Hq' & Htr').
    apply IH; try done; [by rewrite Hq'|].
    destruct Htr as [n Hn]. exists (S n). by rewrite Htr', Hn, repeat_snoc. }
  destruct (Hgen (distribute_init h [] contractList)) as [Hctl Htr].
  - done.
  - done.
  - done.
  - unfold distribute_init, spread. simpl. by rewrite lookup_total_insert_eq.
  - by exists 0%nat.
  - split; [|done]. unfold returned. by rewrite Hctl.
Qed.

Lemma distributeTasks_empty_pool_witness :
  returned (distributeTasks Sample.flaky Sample.out_of_order Sample.store []
                            0%nat) = None.
Proof.
  apply (distributeTasks_empty_pool Sample.flaky Sample.out_of_order
           Sample.store 0%nat).
  discriminate.
Defined.

(** X12. On an empty list distributeTasks returns the empty list the first
    time it runs, whatever the pool, without a query or a timer. *)
Theorem distributeTasks_empty_list W schedule (h : Heap) ws contractList :
  h !!! contractList = [] →
  trace (distributeTasks W schedule h ws contractList) = []
  ∧ (Resume ∈ schedule →
     returned (distributeTasks W schedule h ws contractList) = Some [])
  ∧ (Resume ∉ schedule →
     returned (distributeTasks W schedule h ws contractList) = None).
Proof.
  intros Hnil. unfold distributeTasks.
  assert (Hdone : ∀ schedule s, ctl s = Returned [] → inflight s = [] →
            run W schedule s = s).
  { clear. induction schedule as [|t schedule IH]; intros s Hctl Hfl; [done|].
    simpl. destruct t as [|j]; simpl.
    - unfold resume. rewrite Hctl. simpl. by apply IH.
    - unfold response. rewrite Hfl. simpl. by apply IH. }
  assert (Hgen : ∀ s, ctl s = Polling → inflight s = [] →
            heap s !!! taskQueue s = [] → completedTasks s = [] →
            trace (run W schedule s) = trace s
            ∧ (Resume ∈ schedule → returned (run W schedule s) = Some [])
            ∧ (Resume ∉ schedule → returned (run W schedule s) = None)).
  { induction schedule as [|t schedule IH]; intros s Hctl Hfl Hq Hc.
    - simpl. split; [done|]. split; [by intros ?%elem_of_nil|].
      intros _. unfold returned. by rewrite Hctl.
    - simpl. destruct t as [|j]; simpl.
      + unfold resume. rewrite Hctl, Hq, Hc. simpl.
        rewrite Hdone by done. simpl. split; [done|]. split; [done|].
        intros Hnot. destruct Hnot. apply elem_of_cons. by left.
      + unfold response. rewrite Hfl. simpl.
        destruct (IH s Hctl Hfl Hq Hc) as (H1 & H2 & H3).
        split; [done|]. split.
        * intros [?|?]%elem_of_cons; [done|]. by apply H2.
        * intros Hnot. apply H3. intros Hin. apply Hnot.
          apply elem_of_cons. by right. }
  destruct (Hgen (distribute_init h ws contractList)) as (H1 & H2 & H3);
    try done.
  unfold distribute_init, spread. simpl. by rewrite lookup_total_insert_eq.
Qed.

Lemma distributeTasks_empty_list_witness :
  returned (distributeTasks Sample.flaky [Response 0; Resume; Resume] ∅
                            Sample.pool 0%nat) = Some [].
Proof.
  apply (distributeTasks_empty_list Sample.flaky [Response 0; Resume; Resume]
           ∅ Sample.pool 0%nat).
  - reflexivity.
  - apply elem_of_cons; right. apply elem_of_cons; by left.
Defined.

Lemma omap_snoc {A B} (f : A → option B) l x :
  omap f (l ++ [x]) = omap f l ++ match f x with Some y => [y] | None => [] end.
Proof. rewrite omap_app. simpl. by destruct (f x). Qed.

Lemma lookup_same_token (l l' : list Worker) i w :
  token <$> l' = token <$> l → l !! i = Some w →
  ∃ w', l' !! i = Some w' ∧ token w' = token w.
Proof.
  intros Htok Hi.
  assert (Hl : (token <$> l') !! i = Some (token w)).
  { rewrite Htok, list_lookup_fmap, Hi. done. }
  rewrite list_lookup_fmap in Hl.
  destruct (l' !! i) as [w'|]; simplify_eq/=. eauto.
Qed.

(** A query that was not issued stays in flight for ever: if every query in
    flight after a step was issued, so was every one before. *)
Lemma step_issued W input ws t s s' :
  step W t s = Some s' → pool_inv W input ws s →
  issued W s' → issued W s.
Proof.
  intros Hstep Hinv Hclean q w Hq Hw.
  assert (Htok : token <$> workers s' = token <$> workers s).
  { rewrite (inv_tokens _ _ _ _ (step_inv W input ws t s s' Hstep Hinv)).
    by rewrite (inv_tokens _ _ _ _ Hinv). }
  destruct (lookup_same_token _ _ _ _ Htok Hw) as (w' & Hw' & Hsame).
  rewrite <-Hsame.
  destruct t as [|j]; simpl in Hstep.
  - apply (Hclean q w'); [|done].
    unfold resume in Hstep. destruct (ctl s) as [|index|balances].
    + destruct (heap s !!! taskQueue s) as [|task rest].
      * destruct (Promise_all (completedTasks s)); by simplify_eq/=.
      * destruct (findIndex_idle (workers s)); by simplify_eq/=.
    + destruct (heap s !!! taskQueue s) as [|task rest]; [done|].
      destruct (workers s !! index); simplify_eq/=.
      apply elem_of_app. by left.
    + done.
  - unfold response in Hstep.
    destruct (inflight s !! j) as [qj|] eqn:Hj; [|done]. simpl in Hstep.
    destruct (workers s !! q_worker qj) as [wj|] eqn:Hwj; [|done].
    simpl in Hstep.
    destruct (balanceOf_throws W (token wj) (q_address qj)) eqn:Hbuilt;
      [done|].
    apply list_elem_of_lookup in Hq as [i Hi].
    destruct (decide (i = j)) as [->|Hne].
    { rewrite Hsame. by simplify_eq. }
    apply (Hclean q w'); [|done].
    destruct (call_balanceOf W (token wj) (q_address qj) (q_attempt qj));
      simplify_eq/=.
    + assert (Hin : q ∈ inflight s) by (by eapply list_elem_of_lookup_2).
      apply (elem_of_delete_NoDup q_slot (inflight s) j qj q);
        [apply Hinv|done|]. split; [done|].
      intros Heq. apply Hne.
      eapply (NoDup_lookup (q_slot <$> inflight s)); [apply Hinv| |].
      * by rewrite list_lookup_fmap, Hi.
      * by rewrite list_lookup_fmap, Hj, Heq.
    + eapply list_elem_of_lookup_2. by rewrite list_lookup_insert_ne.
Qed.

Lemma run_issued W input ws schedule s :
  pool_inv W input ws s → issued W (run W schedule s) → issued W s.
Proof.
  revert s. induction schedule as [|t schedule IH]; intros s Hinv; [done|].
  rewrite run_cons. destruct (step W t s) as [s'|] eqn:Hstep; simpl;
    [|by apply IH].
  intros Hclean. eapply step_issued; [done..|].
  apply IH; [by eapply step_inv|done].
Qed.

Lemma first_try_step W input ws t s s' :
  (∀ c a, c ∈ token <$> ws → a ∈ input → is_Some (call_balanceOf W c a 0)) →
  step W t s = Some s' → pool_inv W input ws s →
  issued W s' →
  (∀ q, q ∈ inflight s → q_attempt q = 0%nat) →
  omap queried_address (trace s) = take (length (completedTasks s)) input →
  (∀ q, q ∈ inflight s' → q_attempt q = 0%nat)
  ∧ omap queried_address (trace s') = take (length (completedTasks s')) input.
Proof.
  intros Hfirst Hstep Hinv Hclean Hzero Htrace.
  destruct t as [|j]; simpl in Hstep.
  - unfold resume in Hstep. destruct (ctl s) as [|index|balances] eqn:Hctl.
    + destruct (heap s !!! taskQueue s) as [|task rest].
      * destruct (Promise_all (completedTasks s)); by simplify_eq/=.
      * destruct (findIndex_idle (workers s)); simplify_eq/=; [done|].
        split; [done|]. by rewrite omap_snoc, app_nil_r.
    + destruct (heap s !!! taskQueue s) as [|task rest] eqn:Hqueue; [done|].
      destruct (workers s !! index) as [w|] eqn:Hw; simplify_eq/=.
      pose proof (inv_queue _ _ _ _ Hinv) as Hq. rewrite Hqueue in Hq.
      symmetry in Hq. apply drop_cons_inv in Hq as (Htask & _).
      assert (Hbuilt : balanceOf_throws W (token w) task = false).
      { apply (Hclean (mkQuery index (length (completedTasks s)) task 0)
                      (set_busy true w)); simpl.
        - apply elem_of_app. right. by apply list_elem_of_singleton.
        - apply list_lookup_insert_eq. by eapply lookup_lt_Some. }
      rewrite Hbuilt. split.
      * intros q [Hq| ->%list_elem_of_singleton]%elem_of_app; [by apply Hzero|].
        done.
      * rewrite omap_snoc, length_app, Htrace. simpl.
        rewrite Nat.add_1_r. by erewrite take_S_r.
    + done.
  - unfold response in Hstep.
    destruct (inflight s !! j) as [q|] eqn:Hj; [|done]. simpl in Hstep.
    destruct (workers s !! q_worker q) as [w|] eqn:Hw; [|done].
    simpl in Hstep.
    destruct (balanceOf_throws W (token w) (q_address q)); [done|].
    assert (Hq : q ∈ inflight s) by (by eapply list_elem_of_lookup_2).
    destruct (inv_query _ _ _ _ Hinv q Hq) as (Ha & _).
    destruct (Hfirst (token w) (q_address q)) as [v Hv].
    { rewrite <-(inv_tokens _ _ _ _ Hinv).
      eapply list_elem_of_fmap_2, list_elem_of_lookup_2, Hw. }
    { by eapply list_elem_of_lookup_2. }
    rewrite (Hzero q Hq), Hv in Hstep. simplify_eq/=. split.
    + intros q' Hq'. apply Hzero. by eapply list_elem_of_delete_inv.
    + by rewrite length_insert.
Qed.

(** X13. When every first call is answered, distributeTasks has, by the time
    it returns, queried each address of the list exactly once, in the
    order of the list (strict FIFO assignment), whatever the schedule. *)
Theorem distributeTasks_fifo W schedule (h : Heap) ws contractList balances :
  (∀ c a, c ∈ token <$> ws → a ∈ h !!! contractList →
          is_Some (call_balanceOf W c a 0)) →
  returned (distributeTasks W schedule h ws contractList) = Some balances →
  omap queried_address (trace (distributeTasks W schedule h ws contractList))
  = h !!! contractList.
Proof.
  intros Hfirst Hret.
  pose proof (distributeTasks_inv W schedule h ws contractList) as Hinv.
  assert (Hgen : ∀ s, pool_inv W (h !!! contractList) ws s →
            issued W (run W schedule s) →
            (∀ q, q ∈ inflight s → q_attempt q = 0%nat) →
            omap queried_address (trace s)
            = take (length (completedTasks s)) (h !!! contractList) →
            omap queried_address (trace (run W schedule s))
            = take (length (completedTasks (run W schedule s)))
                   (h !!! contractList)).
  { clear Hret Hinv.
    induction schedule as [|t schedule IH]; intros s Hs Hclean Hzero Htrace;
      [done|].
    rewrite run_cons in Hclean |- *.
    destruct (step W t s) as [s'|] eqn:Hstep; simpl in *; [|by apply IH].
    assert (Hs' : pool_inv W (h !!! contractList) ws s')
      by (by eapply step_inv).
    destruct (first_try_step W _ ws t s s' Hfirst Hstep Hs) as [Hzero' Htrace'];
      [by eapply run_issued|done|done|].
    by apply IH. }
  unfold distributeTasks in *. unfold returned in Hret.
  destruct (ctl (run W schedule (distribute_init h ws contractList)))
    as [| |balances'] eqn:Hctl; simplify_eq.
  destruct (inv_returned _ _ _ _ Hinv balances Hctl) as [Hall Hlen].
  rewrite Hgen.
  - rewrite Hlen. apply firstn_all.
  - apply distribute_init_inv.
  - intros q w Hq _.
    destruct (inv_query _ _ _ _ Hinv q Hq) as (_ & Hpending & _).
    by destruct (Promise_all_resolved _ _ (q_slot q) Hall).
  - unfold distribute_init, spread. simpl. by intros q ?%elem_of_nil.
  - unfold distribute_init, spread. done.
Qed.

Lemma distributeTasks_fifo_witness :
  omap queried_address
       (trace (distributeTasks Sample.ledger Sample.sequential Sample.four
                 (make_workers Sample.clo "web3" Sample.unit_token) 0%nat))
  = Sample.four !!! 0%nat.
Proof.
  apply (distributeTasks_fifo Sample.ledger Sample.sequential Sample.four
           (make_workers Sample.clo "web3" Sample.unit_token) 0%nat
           [5; 0; 100; 3]).
  - intros c a _ _. simpl. repeat case_match; by eexists.
  - by vm_compute.
Defined.

(** ** processOneToken: which balances it asks for *)

Lemma getTokenInfo_address cfg W T tokenObject :
  (getTokenInfo cfg W T).1 = Fulfilled tokenObject → address tokenObject = T.
Proof. intros Hinfo. by apply (getTokenInfo_fulfilled cfg W T). Qed.

Lemma make_workers_tokens cfg web3 tokenObject c :
  c ∈ token <$> make_workers cfg web3 tokenObject →
  boundTo c = address tokenObject
  ∧ if String.eqb (chain cfg) "eth" then clientUrl c ∈ ethRpcArray cfg
    else clientUrl c = web3.
Proof.
  unfold make_workers. destruct (String.eqb (chain cfg) "eth").
  - rewrite <-list_fmap_compose.
    intros (rpc & -> & Hrpc)%list_elem_of_fmap_1. by simpl.
  - simpl. by intros ->%list_elem_of_singleton.
Qed.

Lemma processOneToken_trace cfg W schedule web3 (h : Heap) contractList T e :
  e ∈ (processOneToken cfg W schedule web3 h contractList T).2 →
  e ∈ (getTokenInfo cfg W T).2
  ∨ ∃ tokenObject,
      address tokenObject = T
      ∧ pool_event (make_workers cfg web3 tokenObject)
                   (working_array cfg h contractList T) e.
Proof.
  pose proof (getTokenInfo_address cfg W T) as Haddress.
  unfold processOneToken, working_array.
  destruct (getTokenInfo cfg W T) as [[tokenObject| |] t1]; simpl;
    [|by left|by left].
  specialize (Haddress tokenObject eq_refl).
  destruct (working_list cfg h contractList T) as [h2 localList]. simpl.
  destruct (not_valid tokenObject); [by left|].
  pose proof (findBalances_trace cfg W schedule web3 h2 localList tokenObject)
    as Htr.
  destruct (findBalances cfg W schedule web3 h2 localList tokenObject)
    as [[results h3] t2]. simpl in Htr. subst t2.
  assert (Hin : e ∈ t1 ++ trace (distributeTasks W schedule h2
                  (make_workers cfg web3 tokenObject) localList) →
                e ∈ t1 ∨ ∃ tokenObject',
                           address tokenObject' = T
                           ∧ pool_event (make_workers cfg web3 tokenObject')
                                        (h2 !!! localList) e).
  { intros [?|He]%elem_of_app; [by left|]. right.
    exists tokenObject. split; [done|].
    pose proof (distributeTasks_inv W schedule h2
                  (make_workers cfg web3 tokenObject) localList) as Hinv.
    assert (Hall := run_pool_event W (h2 !!! localList)
                      (make_workers cfg web3 tokenObject) schedule
                      (distribute_init h2 (make_workers cfg web3 tokenObject)
                                       localList)
                      (distribute_init_inv _ _ _ _)
                      ltac:(unfold distribute_init, spread; simpl; constructor)).
    rewrite Forall_forall in Hall. by apply Hall. }
  by destruct results.
Qed.

(** X20. Every balance query processOneToken makes is on a contract handle
    bound to the token it was called for, at an endpoint of ethRpcArray
    (on chain 'eth') or on the caller's connection (otherwise), and asks
    for an address of the working list, that is, of the caller's list
    after the exclusions. *)
Theorem processOneToken_queries cfg W schedule web3 (h : Heap) contractList T
    c a :
  BalanceOf c a ∈ (processOneToken cfg W schedule web3 h contractList T).2 →
  boundTo c = T
  ∧ (if String.eqb (chain cfg) "eth" then clientUrl c ∈ ethRpcArray cfg
     else clientUrl c = web3)
  ∧ a ∈ working_array cfg h contractList T
  ∧ a ∈ h !!! contractList.
Proof.
  intros [He|(tokenObject & Haddress & Hc & Ha)]%processOneToken_trace.
  - pose proof (getTokenInfo_no_balance_query cfg W T) as Hno.
    rewrite Forall_forall in Hno. by specialize (Hno _ He).
  - destruct (make_workers_tokens _ _ _ _ Hc) as [Hbound Hurl].
    rewrite Haddress in Hbound.
    split; [done|]. split; [done|]. split; [done|].
    rewrite working_array_eq in Ha.
    eapply elem_of_sublist; [exact Ha|apply exclude_all_sublist].
Qed.

Lemma processOneToken_queries_witness :
  boundTo Sample.rpc1 = "0xT"
  ∧ (if String.eqb (chain Sample.cfg) "eth"
     then clientUrl Sample.rpc1 ∈ ethRpcArray Sample.cfg
     else clientUrl Sample.rpc1 = "web3")
  ∧ "0xa" ∈ working_array Sample.cfg Sample.store 0%nat "0xT"
  ∧ "0xa" ∈ Sample.store !!! 0%nat.
Proof.
  apply (processOneToken_queries Sample.cfg Sample.flaky [Resume; Resume]
           "web3" Sample.store 0%nat "0xT").
  apply list_elem_of_In. vm_compute. do 4 right. by left.
Defined.



(** ** The exclusion loop does not depend on the order of the exclusions *)

Lemma exclude_one_cons y (l : list string) x :
  exclude_one (y :: l) x = if decide (y = x) then l else y :: exclude_one l x.
Proof.
  unfold exclude_one, Array_splice1. simpl.
  destruct (String.eqb_spec y x) as [->|Hne].
  - by rewrite decide_True.
  - rewrite decide_False by done. by destruct (Array_indexOf l x).
Qed.

Lemma exclude_one_comm (l : list string) a b :
  exclude_one (exclude_one l a) b = exclude_one (exclude_one l b) a.
Proof.
  induction l as [|y l IH]; [done|].
  rewrite !(exclude_one_cons y l).
  destruct (decide (y = a)) as [Ha|Ha], (decide (y = b)) as [Hb|Hb].
  - congruence.
  - by rewrite exclude_one_cons, decide_True.
  - by rewrite exclude_one_cons, decide_True.
  - rewrite !exclude_one_cons, !decide_False by done. by rewrite IH.
Qed.

Lemma exclude_all_perm excluded excluded' (l : list string) :
  excluded ≡ₚ excluded' →
  fold_left exclude_one excluded l = fold_left exclude_one excluded' l.
Proof.
  intros Hperm. revert l.
  induction Hperm as [|x ex ex' _ IH|x y ex|ex ex' ex'' _ IH _ IH'];
    intros l; simpl.
  - done.
  - apply IH.
  - by rewrite exclude_one_comm.
  - by rewrite IH, IH'.
Qed.

(** X23. The working list of a token does not depend on the order in which its
    exclusions are listed: two configurations whose exclusion lists for
    the token are permutations of each other give the same working list. *)
Theorem exclusion_order_irrelevant cfg cfg' (h : Heap) contractList T
    excluded excluded' :
  excludedMap cfg !! T = Some excluded →
  excludedMap cfg' !! T = Some excluded' →
  excluded ≡ₚ excluded' →
  working_array cfg h contractList T = working_array cfg' h contractList T.
Proof.
  intros HT HT' Hperm. rewrite !working_array_eq, HT, HT'. simpl.
  by apply exclude_all_perm.
Qed.

Lemma exclusion_order_witness :
  working_array Sample.cfg Sample.store 0%nat "0xT"
  = working_array Sample.cfg_swapped Sample.store 0%nat "0xT".
Proof.
  apply (exclusion_order_irrelevant Sample.cfg Sample.cfg_swapped Sample.store
           0%nat "0xT" ["0xb"; "0xd"] ["0xd"; "0xb"]).
  - reflexivity.
  - reflexivity.
  - apply Permutation_swap.
Defined.

(** ** getTokenInfo: validity, decimals and the price sources *)

Lemma getTokenInfo_valid cfg W T tokenObject :
  (getTokenInfo cfg W T).1 = Fulfilled tokenObject →
  valid tokenObject
  = if falsy (call_symbol W T) && falsy (call_ticker W T)
    then Some (bool_decide (is_Some (call_symbol32 W T)))
    else Some true.
Proof.
  intros (_ & _ & -> & _)%getTokenInfo_fulfilled. apply read_ticker_valid.
Qed.

Lemma getTokenInfo_ticker cfg W T tokenObject :
  (getTokenInfo cfg W T).1 = Fulfilled tokenObject →
  is_Some (ticker tokenObject)
  ∧ (valid tokenObject = Some false → ticker tokenObject = Some "unknown").
Proof.
  intros (_ & -> & -> & _)%getTokenInfo_fulfilled. apply read_ticker_ticker.
Qed.

Lemma read_ticker_no_fetch W T : omap fetched_url (read_ticker W T).2 = [].
Proof.
  unfold read_ticker.
  destruct (call_symbol W T) as [[|c s]|], (call_ticker W T) as [[|c' s']|],
    (call_symbol32 W T) as [s32|]; simpl; by repeat case_match.
Qed.

Lemma getTokenInfo_fetches cfg W T :
  omap fetched_url (getTokenInfo cfg W T).2
  = omap fetched_url
      (read_price cfg W T (read_ticker W T).1.1 (read_ticker W T).1.2).2.
Proof.
  rewrite getTokenInfo_eq. simpl.
  by rewrite !omap_app, read_ticker_no_fetch.
Qed.

Lemma getTokenInfo_invalid_price cfg W T tokenObject :
  (getTokenInfo cfg W T).1 = Fulfilled tokenObject →
  valid tokenObject = Some false →
  price tokenObject = JS.Finite 0
  ∧ omap fetched_url (getTokenInfo cfg W T).2 = [].
Proof.
  intros Hinfo Hinvalid. rewrite getTokenInfo_fetches.
  destruct (getTokenInfo_fulfilled _ _ _ _ Hinfo)
    as (_ & Htick & Hvalid & _ & Hprice).
  rewrite <-Htick, <-Hvalid, Hinvalid in *.
  rewrite read_price_invalid in * by done. simpl in *. by simplify_eq.
Qed.

Lemma getTokenInfo_invalid_fulfilled cfg W T :
  (read_ticker W T).1.2 ≠ Some true →
  ∃ tokenObject, (getTokenInfo cfg W T).1 = Fulfilled tokenObject.
Proof.
  intros Hinvalid. rewrite getTokenInfo_eq. simpl.
  rewrite read_price_invalid by done. by eexists.
Qed.

(** X6. getTokenInfo, whenever it is fulfilled, has decided validity and
    set a ticker.  The token is invalid exactly when symbol() and ticker()
    both fail or give an empty string and the bytes32 symbol() fails; it
    then has the ticker 'unknown' and the price 0, and no price request is
    made for it; and for such a token getTokenInfo is fulfilled. *)
Theorem getTokenInfo_validity cfg W T :
  (falsy (call_symbol W T) = true ∧ falsy (call_ticker W T) = true
   ∧ call_symbol32 W T = None →
   ∃ tokenObject, (getTokenInfo cfg W T).1 = Fulfilled tokenObject)
  ∧ ∀ tokenObject,
      (getTokenInfo cfg W T).1 = Fulfilled tokenObject →
      (valid tokenObject = Some true ∨ valid tokenObject = Some false)
      ∧ is_Some (ticker tokenObject)
      ∧ (valid tokenObject = Some false
         ↔ falsy (call_symbol W T) = true ∧ falsy (call_ticker W T) = true
           ∧ call_symbol32 W T = None)
      ∧ (valid tokenObject = Some false →
         ticker tokenObject = Some "unknown"
         ∧ price tokenObject = JS.Finite 0
         ∧ omap fetched_url (getTokenInfo cfg W T).2 = []).
Proof.
  split.
  - intros (Hs & Ht & H32). apply getTokenInfo_invalid_fulfilled.
    by rewrite read_ticker_valid, Hs, Ht, H32.
  - intros tokenObject Hinfo.
    pose proof (getTokenInfo_valid cfg W T tokenObject Hinfo) as Hv.
    destruct (getTokenInfo_ticker cfg W T tokenObject Hinfo)
      as [Htick Hunknown].
    split; [|split; [done|split]].
    + rewrite Hv.
      destruct (falsy (call_symbol W T) && falsy (call_ticker W T));
        [|by left]. destruct (call_symbol32 W T); [by left|by right].
    + rewrite Hv.
      destruct (falsy (call_symbol W T)), (falsy (call_ticker W T)),
        (call_symbol32 W T); simpl; split; try done; by intros (?&?&?).
    + intros Hinvalid. split; [by apply Hunknown|].
      by apply getTokenInfo_invalid_price.
Qed.

Lemma getTokenInfo_validity_witness :
  ∃ tokenObject,
    (getTokenInfo Sample.cfg Sample.silent "0xT").1 = Fulfilled tokenObject
    ∧ ticker tokenObject = Some "unknown"
    ∧ price tokenObject = JS.Finite 0
    ∧ omap fetched_url (getTokenInfo Sample.cfg Sample.silent "0xT").2 = [].
Proof.
  destruct (getTokenInfo_validity Sample.cfg Sample.silent "0xT")
    as [Hfulfilled Hvalidity].
  destruct Hfulfilled as [tokenObject Hinfo]; [by split_and!|].
  exists tokenObject. split; [done|].
  destruct (Hvalidity tokenObject Hinfo) as (_ & _ & Hiff & Hinvalid).
  apply Hinvalid, Hiff. by split_and!.
Defined.

(** X7. getTokenInfo never reports 0 decimals: a contract whose decimals()
    answers 0 is given 18, any other answer is kept, and no fulfilled scan
    carries 0 decimals. *)
Theorem zero_decimals_become_18 cfg W schedule web3 (h : Heap) contractList T :
  let outcome := (processOneToken cfg W schedule web3 h contractList T).1.1 in
  (∀ tokenObject,
     (getTokenInfo cfg W T).1 = Fulfilled tokenObject →
     decimals tokenObject ≠ 0%nat
     ∧ (call_decimals W T = Some 0%nat → decimals tokenObject = 18%nat)
     ∧ (∀ d, call_decimals W T = Some d → d ≠ 0%nat →
             decimals tokenObject = d))
  ∧ (∀ res, outcome = Fulfilled res → res_decimals res ≠ 0%nat).
Proof.
  intros outcome.
  assert (Hnz : ∀ tokenObject,
            (getTokenInfo cfg W T).1 = Fulfilled tokenObject →
            decimals tokenObject ≠ 0%nat).
  { intros tokenObject Hinfo.
    rewrite (getTokenInfo_decimals cfg W T tokenObject Hinfo).
    destruct (call_decimals W T) as [d|]; [|done].
    by destruct (Nat.eqb_spec d 0). }
  split.
  - intros tokenObject Hinfo.
    pose proof (getTokenInfo_decimals cfg W T tokenObject Hinfo) as Hd.
    split; [by apply Hnz|]. split.
    + intros Hz. by rewrite Hd, Hz.
    + intros d Hcall Hne. rewrite Hd, Hcall. by destruct (Nat.eqb_spec d 0).
  - intros res Hres. unfold outcome in Hres.
    destruct (getTokenInfo cfg W T).1 as [tokenObject| |] eqn:Hinfo.
    + destruct (processOneToken_outcome cfg W schedule web3 h contractList T
                  tokenObject Hinfo) as [_ Hful].
      destruct (Hful res Hres) as [[-> _]|[-> _]]; [done|by apply Hnz].
    + unfold processOneToken in Hres.
      destruct (getTokenInfo cfg W T) as [o t1]. simpl in Hinfo. by subst.
    + unfold processOneToken in Hres.
      destruct (getTokenInfo cfg W T) as [o t1]. simpl in Hinfo. by subst.
Qed.

Lemma zero_decimals_witness :
  ∃ tokenObject,
    (getTokenInfo Sample.cfg Sample.priced "0xT").1 = Fulfilled tokenObject
    ∧ decimals tokenObject = 18%nat.
Proof.
  assert (Hinfo : (getTokenInfo Sample.cfg Sample.priced "0xT").1
                  = Fulfilled (mkTokenInfo "0xT" (Some "TKN") (Some true) 18
                                           (JS.ofBigInt 2)))
    by (by vm_compute).
  eexists. split; [exact Hinfo|].
  exact (proj1 (proj2 (proj1 (zero_decimals_become_18 Sample.cfg Sample.priced
                                [] "web3" Sample.store 0%nat "0xT")
                             _ Hinfo)) eq_refl).
Defined.

Lemma read_ticker_symbol W T tick :
  call_symbol W T = Some tick → tick ≠ "" →
  (read_ticker W T).1 = (Some tick, Some true).
Proof.
  intros Hsym Hne. unfold read_ticker. rewrite Hsym.
  by destruct tick as [|c tick].
Qed.

(** X8. For a token whose symbol() answers, the first price service is
    always asked.  When its answer is a status 200 with the body null,
    getTokenInfo is rejected.  Otherwise the second service is asked
    exactly when the price is still 0 after the first; when the answer of
    the second is a status 200 with the body null, getTokenInfo is
    rejected, and otherwise it is fulfilled with price ?? USD ?? 0 of the
    last body obtained. *)
Theorem getTokenInfo_price_sources cfg W T tick :
  call_symbol W T = Some tick → tick ≠ "" →
  let url1 := absolutewallet_url cfg T in
  let url2 := cryptocompare_url (Some tick) in
  let priceObj0 :=
    JsonValue (mkPriceObj (Some (JS.Finite 0)) (Some (JS.Finite 0))) in
  let outcome := (getTokenInfo cfg W T).1 in
  let urls := omap fetched_url (getTokenInfo cfg W T).2 in
  (try_fetch W url1 priceObj0 = JsonNull →
     outcome = Rejected ∧ urls = [url1])
  ∧ (∀ o1, try_fetch W url1 priceObj0 = JsonValue o1 →
       is_zero (po_price o1) = false →
       urls = [url1]
       ∧ ∃ tokenObject, outcome = Fulfilled tokenObject
                        ∧ price tokenObject = price_of o1)
  ∧ (∀ o1, try_fetch W url1 priceObj0 = JsonValue o1 →
       is_zero (po_price o1) = true →
       urls = [url1; url2]
       ∧ (try_fetch W url2 (JsonValue o1) = JsonNull → outcome = Rejected)
       ∧ (∀ o2, try_fetch W url2 (JsonValue o1) = JsonValue o2 →
            ∃ tokenObject, outcome = Fulfilled tokenObject
                           ∧ price tokenObject = price_of o2)).
Proof.
  intros Hsym Hne url1 url2 priceObj0 outcome urls.
  unfold outcome, urls. rewrite getTokenInfo_fetches, getTokenInfo_eq.
  rewrite (read_ticker_symbol W T tick Hsym Hne). simpl.
  unfold read_price. fold url1 url2 priceObj0.
  split; [|split].
  - by intros ->.
  - intros o1 -> Hprice. rewrite Hprice. simpl. split; [done|]. by eexists.
  - intros o1 -> Hprice. rewrite Hprice. simpl.
    destruct (try_fetch W url2 (JsonValue o1)) as [|o2']; simpl;
      (split; [done|]); (split; [done|]); intros o2 [= <-]. by eexists.
Qed.

Lemma getTokenInfo_price_witness :
  omap fetched_url (getTokenInfo Sample.cfg Sample.priced "0xT").2
  = [absolutewallet_url Sample.cfg "0xT"]
  ∧ ∃ tokenObject,
      (getTokenInfo Sample.cfg Sample.priced "0xT").1 = Fulfilled tokenObject
      ∧ price tokenObject
        = price_of (mkPriceObj (Some (JS.ofBigInt 2)) None).
Proof.
  apply (proj1 (proj2 (getTokenInfo_price_sources Sample.cfg Sample.priced
                         "0xT" "TKN" eq_refl ltac:(discriminate)))).
  - by vm_compute.
  - by vm_compute.
Defined.

(** ** The divisor of aggregation exists up to 308 decimals *)

Lemma rne_le a d : 0 ≤ a → 0 < d → JS.rne a d ≤ a / d + 1.
Proof.
  intros Ha Hd. unfold JS.rne.
  destruct (2 * (a mod d) <? d); [lia|].
  destruct (d <? 2 * (a mod d)); [lia|].
  destruct (Z.even (a / d)); lia.
Qed.

Lemma round_pos_upper a : 0 < a → JS.round_pos a 1 ≤ a + 2 ^ JS.ulp_shift a.
Proof.
  intros Ha. unfold JS.round_pos. rewrite Z.div_1_r, Z.mul_1_l.
  destruct (ulp_shift_le a Ha) as [HP Hle].
  set (P := 2 ^ JS.ulp_shift a) in *.
  pose proof (rne_le a P ltac:(lia) HP) as Hr.
  pose proof (Z.div_mod a P ltac:(lia)) as Hdm.
  pose proof (Z.mod_pos_bound a P HP) as Hm.
  assert (0 ≤ a / P) by (apply Z.div_pos; lia).
  nia.
Qed.

Lemma round_pos_ge_pow a : 0 < a → 2 ^ Z.log2 a ≤ JS.round_pos a 1.
Proof.
  intros Ha. unfold JS.round_pos. rewrite Z.div_1_r, Z.mul_1_l.
  pose proof (Z.log2_spec a Ha) as [Hlo _].
  pose proof (Z.log2_nonneg a) as Hlog.
  unfold JS.ulp_shift.
  destruct (Z.max_spec 0 (Z.log2 a - 52)) as [[Hlt ->]|[Hle ->]].
  - set (P := 2 ^ (Z.log2 a - 52)).
    assert (HP : 0 < P) by (apply Z.pow_pos_nonneg; lia).
    assert (Hsplit : 2 ^ Z.log2 a = 2 ^ 52 * P).
    { unfold P. rewrite <-Z.pow_add_r by lia. f_equal. lia. }
    pose proof (rne_ge a P ltac:(lia) HP) as Hr.
    assert (2 ^ 52 ≤ a / P) by (apply Z.div_le_lower_bound; lia).
    nia.
  - change (2 ^ 0) with 1.
    pose proof (rne_ge a 1 ltac:(lia) ltac:(lia)) as Hr.
    rewrite Z.div_1_r in Hr. lia.
Qed.

Lemma round_pos_multiple a :
  0 < a → a mod 2 ^ JS.quantum_bits = 0 →
  JS.round_pos a 1 mod 2 ^ JS.quantum_bits = 0.
Proof.
  intros Ha Hmod. unfold JS.round_pos. rewrite Z.div_1_r, Z.mul_1_l.
  assert (Hs : 0 ≤ JS.ulp_shift a) by (unfold JS.ulp_shift; lia).
  destruct (Z.le_gt_cases (JS.ulp_shift a) JS.quantum_bits) as [Hle|Hgt].
  - set (P := 2 ^ JS.ulp_shift a).
    assert (HP : 0 < P) by (by apply Z.pow_pos_nonneg).
    assert (HQ : 2 ^ JS.quantum_bits = 2 ^ (JS.quantum_bits - JS.ulp_shift a) * P).
    { unfold P. rewrite <-Z.pow_add_r by lia. f_equal. lia. }
    assert (HaP : a mod P = 0).
    { apply Z.mod_divide in Hmod as [n Hn]; [|lia].
      apply Z.mod_divide; [lia|].
      exists (n * 2 ^ (JS.quantum_bits - JS.ulp_shift a)).
      trans (n * (2 ^ (JS.quantum_bits - JS.ulp_shift a) * P));
        [by rewrite <-HQ|ring]. }
    assert (Hrne : JS.rne a P = a / P).
    { unfold JS.rne. rewrite HaP.
      destruct (Z.ltb_spec (2 * 0) P); [done|lia]. }
    rewrite Hrne.
    replace (a / P * P) with a; [done|].
    pose proof (Z.div_mod a P ltac:(lia)). lia.
  - apply Z.mod_divide; [by apply Z.pow_nonzero|].
    exists (JS.rne a (2 ^ JS.ulp_shift a)
            * 2 ^ (JS.ulp_shift a - JS.quantum_bits)).
    rewrite <-Z.mul_assoc, <-Z.pow_add_r by (unfold JS.quantum_bits in *; lia).
    do 2 f_equal. lia.
Qed.

Lemma below_threshold (x X Q U T P r : Z) :
  0 < Q → x ≤ X → X * Q + U < T → P ≤ U → r ≤ x * Q + P → r < T.
Proof. intros HQ Hle Hnum HP Hr. nia. Qed.

Lemma parse_1e_finite d :
  (d ≤ 308)%nat → is_Some (JS.toBigInt (JS.parse_1e d)).
Proof.
  intros Hd. unfold JS.parse_1e, JS.round_q.
  assert (HQ : 0 < 2 ^ JS.quantum_bits) by (by apply Z.pow_pos_nonneg).
  assert (H10 : 0 < 10 ^ Z.of_nat d) by (apply Z.pow_pos_nonneg; lia).
  assert (Hle : 10 ^ Z.of_nat d ≤ 10 ^ 308) by (apply Z.pow_le_mono_r; lia).
  set (a := 10 ^ Z.of_nat d * 2 ^ JS.quantum_bits).
  assert (Ha : 0 < a) by (by apply Z.mul_pos_pos).
  assert (Hnum : 10 ^ 308 * 2 ^ JS.quantum_bits + 2 ^ 2045 < 2 ^ 2098)
    by (by vm_compute).
  assert (Hlt : a < 2 ^ 2098).
  { apply (below_threshold _ _ _ _ _ 0 a HQ Hle Hnum).
    - by apply Z.pow_nonneg.
    - by rewrite Z.add_0_r. }
  assert (Hlog : Z.log2 a < 2098) by (by apply Z.log2_lt_pow2).
  assert (Hshift : 2 ^ JS.ulp_shift a ≤ 2 ^ 2045).
  { apply Z.pow_le_mono_r; [done|]. clear -Hlog. unfold JS.ulp_shift. lia. }
  pose proof (round_pos_upper a Ha) as Hup.
  assert (Hmult : JS.round_pos a 1 mod 2 ^ JS.quantum_bits = 0).
  { apply round_pos_multiple; [done|]. unfold a. apply Z.mod_mul.
    clear -HQ. lia. }
  rewrite (Z.abs_eq a) by (by apply Z.lt_le_incl).
  destruct (Z.leb_spec JS.overflow_threshold (JS.round_pos a 1)) as [Hov|_].
  { unfold JS.overflow_threshold in Hov. exfalso.
    apply (Z.lt_irrefl (2 ^ 2098)). eapply Z.le_lt_trans; [exact Hov|].
    exact (below_threshold _ _ _ _ _ _ _ HQ Hle Hnum Hshift Hup). }
  simpl. rewrite (Z.sgn_pos a Ha), Z.mul_1_l, Hmult. simpl. by eexists.
Qed.

Lemma overflow_core (x X Q T a : Z) :
  0 < Q → X ≤ x → T ≤ X * Q → a = x * Q → T ≤ a.
Proof. intros HQ Hle Hnum ->. nia. Qed.

Lemma parse_1e_infinite d :
  (308 < d)%nat → JS.toBigInt (JS.parse_1e d) = None.
Proof.
  intros Hd. unfold JS.parse_1e, JS.round_q.
  assert (HQ : 0 < 2 ^ JS.quantum_bits) by (by apply Z.pow_pos_nonneg).
  assert (Hle : 10 ^ 309 ≤ 10 ^ Z.of_nat d) by (apply Z.pow_le_mono_r; lia).
  set (a := 10 ^ Z.of_nat d * 2 ^ JS.quantum_bits).
  assert (Hnum : 2 ^ 2098 ≤ 10 ^ 309 * 2 ^ JS.quantum_bits) by (by vm_compute).
  assert (Ha : 2 ^ 2098 ≤ a)
    by (exact (overflow_core _ _ _ _ a HQ Hle Hnum eq_refl)).
  assert (HT : 0 < 2 ^ 2098) by (by apply Z.pow_pos_nonneg).
  assert (Hpos : 0 < a) by (eapply Z.lt_le_trans; [exact HT|exact Ha]).
  assert (Hlog : 2098 ≤ Z.log2 a).
  { rewrite <-(Z.log2_pow2 2098) by lia. by apply Z.log2_le_mono. }
  pose proof (round_pos_ge_pow a Hpos) as Hge.
  assert (Hpow : 2 ^ 2098 ≤ 2 ^ Z.log2 a) by (apply Z.pow_le_mono_r; lia).
  rewrite (Z.abs_eq a) by (by apply Z.lt_le_incl).
  destruct (Z.leb_spec JS.overflow_threshold (JS.round_pos a 1)) as [_|Hov];
    [done|].
  unfold JS.overflow_threshold in Hov.
  exfalso. apply (Z.lt_irrefl (2 ^ 2098)).
  eapply Z.le_lt_trans; [|exact Hov]. by etrans.
Qed.

Lemma format_balances_none tokenObject contractList i balances :
  JS.toBigInt (JS.parse_1e (decimals tokenObject)) = None →
  format_balances tokenObject contractList i balances = None
  ↔ Exists (λ b, 0 < b) balances.
Proof.
  intros HD. revert i.
  induction balances as [|b balances IH]; intros i; simpl.
  { split; [done|]. by intros ?%Exists_nil. }
  rewrite Exists_cons, <-(IH (S i)). unfold format_balance. rewrite HD. simpl.
  destruct (Z.ltb_spec 0 b) as [Hpos|Hneg]; simpl.
  - split; [by left|done].
  - destruct (format_balances tokenObject contractList (S i) balances);
      simpl; split.
    + done.
    + intros [?|?]; [lia|done].
    + by right.
    + done.
Qed.

(** X16. findBalances is rejected (the RangeError of BigInt(Infinity)) exactly
    when the token has more than 308 decimals and one of the balances
    obtained is strictly positive; with the decimals of an ERC-20 token,
    at most 255, it never is. *)
Theorem findBalances_rejected_iff cfg W schedule web3 (h : Heap) contractList
    tokenObject :
  (findBalances cfg W schedule web3 h contractList tokenObject).1.1 = Rejected
  ↔ (308 < decimals tokenObject)%nat
    ∧ ∃ balances,
        returned (distributeTasks W schedule h
                    (make_workers cfg web3 tokenObject) contractList)
        = Some balances
        ∧ Exists (λ b, 0 < b) balances.
Proof.
  unfold findBalances.
  destruct (returned _) as [balances|] eqn:Hret; simpl.
  2: { split; [done|]. by intros (_ & ? & ? & _). }
  unfold aggregate.
  destruct (le_gt_dec (decimals tokenObject) 308) as [Hle|Hgt].
  - destruct (parse_1e_finite _ Hle) as [D HD].
    match goal with
    | |- context [format_balances ?t ?l ?i ?b] =>
        destruct (format_balances_defined t l i b D HD) as [rs ->]
    end. simpl. split; [done|]. intros [? _]. lia.
  - pose proof (parse_1e_infinite _ Hgt) as HD.
    match goal with
    | |- context [format_balances ?t ?l ?i ?b] =>
        pose proof (format_balances_none t l i b HD) as Hnone;
        destruct (format_balances t l i b) as [rs|]
    end; simpl.
    + split; [done|]. intros (_ & balances' & [= <-] & Hex).
      by apply Hnone in Hex.
    + split; [|done]. intros _. split; [lia|].
      exists balances. split; [done|]. by apply Hnone.
Qed.

Lemma findBalances_rejected_witness :
  (308 < decimals Sample.huge_decimals)%nat
  ∧ ∃ balances,
      returned (distributeTasks Sample.ledger Sample.sequential Sample.four
                  (make_workers Sample.clo "web3" Sample.huge_decimals) 0%nat)
      = Some balances
      ∧ Exists (λ b, 0 < b) balances.
Proof.
  apply (findBalances_rejected_iff Sample.clo Sample.ledger Sample.sequential
           "web3" Sample.four 0%nat Sample.huge_decimals).
  by vm_compute.
Defined.

(** ** The records of findBalances *)

Lemma format_balances_origin tokenObject contractList i balances rs r :
  format_balances tokenObject contractList i balances = Some rs →
  r ∈ rs →
  ∃ j D, balances !! j = Some (amount r) ∧ 0 < amount r
         ∧ contract r = contractList !! (i + j)%nat
         ∧ JS.toBigInt (JS.parse_1e (decimals tokenObject)) = Some D
         ∧ roundedAmount r = JS.ofBigInt (Z.quot (amount r) D)
         ∧ dollarValue r
           = numberWithCommas (JS.mul (roundedAmount r) (price tokenObject)).
Proof.
  revert i rs. induction balances as [|b balances IH]; intros i rs Hrs Hr.
  { simpl in Hrs. simplify_eq. by apply elem_of_nil in Hr. }
  simpl in Hrs.
  destruct (format_balance tokenObject contractList i b) as [r0|] eqn:Hr0;
    [|done]. simpl in Hrs.
  destruct (format_balances tokenObject contractList (S i) balances)
    as [rs'|] eqn:Hrs'; [|done]. simpl in Hrs. injection Hrs as <-.
  apply elem_of_app in Hr as [Hr|Hr].
  - unfold format_balance in Hr0.
    destruct (Z.ltb_spec 0 b) as [Hpos|Hneg].
    + destruct (JS.toBigInt (JS.parse_1e (decimals tokenObject)))
        as [D|] eqn:HD; [|done]. simpl in Hr0.
      unfold bigint_div in Hr0. destruct (D =? 0); [done|].
      simpl in Hr0. simplify_eq. apply list_elem_of_singleton in Hr as ->.
      exists 0%nat, D. simpl. by rewrite Nat.add_0_r.
    + simplify_eq. by apply elem_of_nil in Hr.
  - destruct (IH (S i) rs' Hrs' Hr) as (j & D & H1 & H2 & H3 & H4).
    exists (S j), D. simpl. by rewrite Nat.add_succ_r.
Qed.

Lemma returned_length W schedule (h : Heap) ws contractList balances :
  returned (distributeTasks W schedule h ws contractList) = Some balances →
  length balances = length (h !!! contractList).
Proof.
  intros Hret.
  pose proof (distributeTasks_inv W schedule h ws contractList) as Hinv.
  unfold returned in Hret.
  destruct (ctl (distributeTasks W schedule h ws contractList))
    as [| |balances'] eqn:Hctl; simplify_eq.
  destruct (inv_returned _ _ _ _ Hinv balances Hctl) as [Hall Hlen].
  apply mapM_Some_1, Forall2_length in Hall. congruence.
Qed.

(** X17. Every record findBalances returns is the record of one balance
    distributeTasks obtained: that balance is strictly positive and is the
    record's amount, the record's contract is the address at the same
    position of the list (never undefined), its roundedAmount is the
    Number of the integer quotient of the amount by
    BigInt(Number(`1e${decimals}`)), and its dollar value is that number
    times the price, formatted by numberWithCommas. *)
Theorem findBalances_records cfg W schedule web3 (h : Heap) contractList
    tokenObject records :
  is_Some (h !! contractList) →
  (findBalances cfg W schedule web3 h contractList tokenObject).1.1
  = Fulfilled records →
  ∃ balances,
    returned (distributeTasks W schedule h
                (make_workers cfg web3 tokenObject) contractList)
    = Some balances
    ∧ ∀ r, r ∈ records →
        ∃ i a D,
          balances !! i = Some (amount r) ∧ 0 < amount r
          ∧ (h !!! contractList) !! i = Some a ∧ contract r = Some a
          ∧ JS.toBigInt (JS.parse_1e (decimals tokenObject)) = Some D
          ∧ roundedAmount r = JS.ofBigInt (Z.quot (amount r) D)
          ∧ dollarValue r
            = numberWithCommas (JS.mul (roundedAmount r) (price tokenObject)).
Proof.
  intros Hcl Hfb.
  destruct (findBalances_aggregate _ _ _ _ _ _ _ _ Hcl Hfb)
    as (balances & Hret & Hag).
  exists balances. split; [done|]. intros r Hr.
  destruct (aggregate_spec _ _ _ _ Hag) as (rs & Hrs & _ & Hperm).
  rewrite Hperm in Hr.
  destruct (format_balances_origin _ _ _ _ _ _ Hrs Hr)
    as (i & D & Hi & Hpos & Hc & HD & Hround & Hdollar).
  simpl in Hc.
  assert (Hlt : (i < length (h !!! contractList))%nat).
  { rewrite <-(returned_length _ _ _ _ _ _ Hret). by eapply lookup_lt_Some. }
  apply lookup_lt_is_Some in Hlt as [a Ha].
  exists i, a, D. by rewrite Hc.
Qed.

Lemma findBalances_records_witness :
  ∃ balances,
    returned (distributeTasks Sample.ledger Sample.sequential Sample.four
                (make_workers Sample.clo "web3" Sample.unit_token) 0%nat)
    = Some balances
    ∧ ∀ r, r ∈ Sample.ledger_records →
        ∃ i a D,
          balances !! i = Some (amount r) ∧ 0 < amount r
          ∧ (Sample.four !!! 0%nat) !! i = Some a ∧ contract r = Some a
          ∧ JS.toBigInt (JS.parse_1e (decimals Sample.unit_token)) = Some D
          ∧ roundedAmount r = JS.ofBigInt (Z.quot (amount r) D)
          ∧ dollarValue r
            = numberWithCommas (JS.mul (roundedAmount r)
                                       (price Sample.unit_token)).
Proof.
  apply (findBalances_records Sample.clo Sample.ledger Sample.sequential
           "web3" Sample.four 0%nat Sample.unit_token).
  - by eexists.
  - by vm_compute.
Defined.

(** *** Ties keep the order of the list *)

Lemma number_eqb_eq x y : number_eqb x y = true → x = y.
Proof.
  destruct x as [|s|a], y as [|t|b]; simpl; try done.
  - intros ?%eqb_prop. by subst.
  - intros ?%Z.eqb_eq. by subst.
Qed.

Lemma after_distinct x y v :
  after x y = true →
  number_eqb (roundedAmount x) v && number_eqb (roundedAmount y) v = false.
Proof.
  intros Hafter.
  destruct (number_eqb (roundedAmount x) v) eqn:Hx; [|done].
  destruct (number_eqb (roundedAmount y) v) eqn:Hy; [|done].
  apply number_eqb_eq in Hx, Hy. exfalso. revert Hafter.
  unfold after, compare_records. rewrite Hx, Hy.
  destruct v as [|s|k]; simpl.
  - done.
  - by rewrite eqb_reflx.
  - rewrite Z.sub_diag. by vm_compute.
Qed.

Lemma sort_insert_filter x l v :
  List.filter (λ r, number_eqb (roundedAmount r) v) (sort_insert x l)
  = List.filter (λ r, number_eqb (roundedAmount r) v) (x :: l).
Proof.
  induction l as [|y l IH]; [done|].
  cbn [sort_insert]. destruct (after x y) eqn:Hafter; [|done].
  pose proof (after_distinct x y v Hafter) as Hxy.
  cbn [List.filter] in *. rewrite IH.
  destruct (number_eqb (roundedAmount x) v),
    (number_eqb (roundedAmount y) v); done.
Qed.

Lemma Array_sort_filter l v :
  List.filter (λ r, number_eqb (roundedAmount r) v) (Array_sort l)
  = List.filter (λ r, number_eqb (roundedAmount r) v) l.
Proof.
  induction l as [|x l IH]; [done|].
  cbn [Array_sort foldr]. fold (Array_sort l).
  rewrite sort_insert_filter. cbn [List.filter]. by rewrite IH.
Qed.

(** X18. The records of findBalances that have the same roundedAmount are in
    the order of their addresses in the list: the sort keeps, for every
    value, the order in which the loop over the balances pushed the
    records of that value. *)
Theorem findBalances_ties_keep_order cfg W schedule web3 (h : Heap)
    contractList tokenObject records :
  is_Some (h !! contractList) →
  (findBalances cfg W schedule web3 h contractList tokenObject).1.1
  = Fulfilled records →
  ∃ balances pushed,
    returned (distributeTasks W schedule h
                (make_workers cfg web3 tokenObject) contractList)
    = Some balances
    ∧ format_balances tokenObject (h !!! contractList) 0 balances = Some pushed
    ∧ amount <$> pushed = filter (λ b, 0 < b) balances
    ∧ ∀ v, List.filter (λ r, number_eqb (roundedAmount r) v) records
           = List.filter (λ r, number_eqb (roundedAmount r) v) pushed.
Proof.
  intros Hcl Hfb.
  destruct (findBalances_aggregate _ _ _ _ _ _ _ _ Hcl Hfb)
    as (balances & Hret & Hag).
  destruct (aggregate_spec _ _ _ _ Hag) as (rs & Hrs & -> & _).
  exists balances, rs. split; [done|]. split; [done|].
  split; [by destruct (format_balances_spec _ _ _ _ _ Hrs)|].
  intros v. apply Array_sort_filter.
Qed.

Lemma findBalances_ties_witness :
  ∃ balances pushed,
    returned (distributeTasks Sample.flaky Sample.out_of_order Sample.store
                (make_workers Sample.cfg "web3" Sample.dust_token) 0%nat)
    = Some balances
    ∧ format_balances Sample.dust_token (Sample.store !!! 0%nat) 0 balances
      = Some pushed
    ∧ amount <$> pushed = filter (λ b, 0 < b) balances
    ∧ ∀ v, List.filter (λ r, number_eqb (roundedAmount r) v)
                       Sample.dust_records
           = List.filter (λ r, number_eqb (roundedAmount r) v) pushed.
Proof.
  apply (findBalances_ties_keep_order Sample.cfg Sample.flaky
           Sample.out_of_order "web3" Sample.store 0%nat Sample.dust_token).
  - by eexists.
  - by vm_compute.
Defined.

(** ** numberWithCommas shows at most two decimals *)

Lemma split_dot_eq s : Str.split_dot s = String_split is_dot s.
Proof.
  induction s as [|c s IH]; simpl; [done|]. unfold is_dot at 1.
  destruct (Ascii.eqb c "."); [by rewrite IH|]. by rewrite IH.
Qed.

Lemma String_split_join_dot parts :
  parts ≠ [] → Forall (free_of is_dot) parts →
  String_split is_dot (Str.join_dot parts) = parts.
Proof.
  intros Hne Hfree. induction Hfree as [|x parts Hx Hparts IH]; [done|].
  destruct parts as [|y parts].
  - simpl. by apply String_split_free_whole.
  - change (String_split is_dot
              (x +:+ String "." (Str.join_dot (y :: parts)))
            = x :: y :: parts).
    rewrite String_split_free_piece by done. by rewrite IH.
Qed.

Lemma insert_commas_free prev s :
  free_of is_dot s → free_of is_dot (Str.insert_commas prev s).
Proof.
  revert prev. induction s as [|c s IH]; intros prev; simpl; [done|].
  intros [Hc Hs].
  destruct (Str.not_word_boundary prev (Some c)
            && Str.groups_of_three_ahead (String c s)); simpl; auto.
Qed.

Lemma take_str_free p n s : free_of p s → free_of p (JS.take_str n s).
Proof.
  revert s. induction n as [|n IH]; intros [|c s]; simpl; try done.
  intros [Hc Hs]. auto.
Qed.

Lemma take_str_length n s : (String.length (JS.take_str n s) ≤ n)%nat.
Proof.
  revert s. induction n as [|n IH]; intros [|c s]; simpl; try lia.
  specialize (IH s). lia.
Qed.



(** ** A token without a price *)

Lemma pow_split_2098 : 2 ^ 2098 = 2 * (2 ^ 1023 * 2 ^ JS.quantum_bits).
Proof. by vm_compute. Qed.

Lemma below_threshold_bigint (q B Q P r : Z) :
  0 < Q → 0 < q < B → 0 < P ≤ q * Q → r ≤ q * Q + P → r < 2 * (B * Q).
Proof. intros HQ Hq HP Hr. nia. Qed.

Lemma ofBigInt_finite q :
  0 ≤ q < 2 ^ 1023 → ∃ k, JS.ofBigInt q = JS.Finite k.
Proof.
  intros [Hq Hlt]. unfold JS.ofBigInt, JS.round_q.
  destruct (Z.eq_dec q 0) as [->|Hne]; [by eexists|].
  assert (Hpos : 0 < q) by (clear -Hq Hne; lia).
  assert (HQ : 0 < 2 ^ JS.quantum_bits) by (by apply Z.pow_pos_nonneg).
  set (a := q * 2 ^ JS.quantum_bits).
  assert (Ha : 0 < a) by (by apply Z.mul_pos_pos).
  pose proof (round_pos_upper a Ha) as Hup.
  pose proof (ulp_shift_le a Ha) as Hshift.
  rewrite (Z.abs_eq a) by (by apply Z.lt_le_incl).
  destruct (Z.leb_spec JS.overflow_threshold (JS.round_pos a 1)) as [Hov|_].
  { unfold JS.overflow_threshold in Hov. exfalso.
    apply (Z.lt_irrefl (2 ^ 2098)). eapply Z.le_lt_trans; [exact Hov|].
    rewrite pow_split_2098.
    exact (below_threshold_bigint q _ _ _ _ HQ (conj Hpos Hlt) Hshift Hup). }
  by eexists.
Qed.

Lemma mul_finite_zero k : JS.mul (JS.Finite k) (JS.Finite 0) = JS.Finite 0.
Proof. unfold JS.mul. rewrite Z.mul_0_r. by vm_compute. Qed.

(** X19. When the price is 0 (no price was found), every record of
    findBalances shows the dollar value "0.00", for balances below 2^256
    as a contract returns them. *)
Theorem no_price_shows_zero_dollars cfg W schedule web3 (h : Heap)
    contractList tokenObject records :
  is_Some (h !! contractList) →
  price tokenObject = JS.Finite 0 →
  (findBalances cfg W schedule web3 h contractList tokenObject).1.1
  = Fulfilled records →
  ∃ balances,
    returned (distributeTasks W schedule h
                (make_workers cfg web3 tokenObject) contractList)
    = Some balances
    ∧ (Forall (λ b, b < 2 ^ 256) balances →
       Forall (λ r, dollarValue r = "0.00") records).
Proof.
  intros Hcl Hprice Hfb.
  destruct (findBalances_aggregate _ _ _ _ _ _ _ _ Hcl Hfb)
    as (balances & Hret & Hag).
  exists balances. split; [done|]. intros Hbound.
  destruct (aggregate_spec _ _ _ _ Hag) as (rs & Hrs & _ & Hperm).
  apply Forall_forall. intros r Hr. rewrite Hperm in Hr.
  destruct (format_balances_origin _ _ _ _ _ _ Hrs Hr)
    as (i & D & Hi & Hpos & _ & HD & Hround & ->).
  rewrite Forall_lookup in Hbound. specialize (Hbound i _ Hi).
  pose proof (parse_1e_divisor_pos _ _ HD) as HDpos.
  destruct (ofBigInt_finite (Z.quot (amount r) D)) as [k Hk].
  { split; [apply Z.quot_pos; lia|].
    assert (Z.quot (amount r) D ≤ amount r).
    { rewrite Z.quot_div_nonneg by lia.
      apply Z.div_le_upper_bound; [lia|]. nia. }
    assert (2 ^ 256 < 2 ^ 1023) by (by apply Z.pow_lt_mono_r).
    lia. }
  by rewrite Hround, Hk, Hprice, mul_finite_zero, numberWithCommas_zero.
Qed.

Lemma no_price_witness :
  ∃ balances,
    returned (distributeTasks Sample.ledger Sample.sequential Sample.four
                (make_workers Sample.clo "web3" Sample.unpriced) 0%nat)
    = Some balances
    ∧ (Forall (λ b, b < 2 ^ 256) balances →
       Forall (λ r, dollarValue r = "0.00") Sample.unpriced_records).
Proof.
  apply (no_price_shows_zero_dollars Sample.clo Sample.ledger
           Sample.sequential "web3" Sample.four 0%nat Sample.unpriced).
  - by eexists.
  - reflexivity.
  - by vm_compute.
Defined.

(** ** Reports *)

(** X24. The report of a token getTokenInfo finds invalid is the line of the
    unknown token, with a dollar total of 0, whatever the list and the
    schedule. *)
Theorem invalid_token_report cfg W schedule web3 (h : Heap) contractList T
    tokenObject :
  (getTokenInfo cfg W T).1 = Fulfilled tokenObject →
  not_valid tokenObject = true →
  ∃ res,
    (processOneToken cfg W schedule web3 h contractList T).1.1 = Fulfilled res
    ∧ formatTokenResult res
      = mkReport ("??? [" +:+ T +:+ "] - unknown token" +:+ nl) (JS.Finite 0).
Proof.
  intros Hinfo Hinvalid. unfold processOneToken.
  destruct (getTokenInfo cfg W T) as [tokenObject' t1]. simpl in *. subst.
  destruct (working_list cfg h contractList T) as [h2 localList].
  rewrite Hinvalid. by eexists.
Qed.

Lemma invalid_token_report_witness :
  ∃ res,
    (processOneToken Sample.cfg Sample.silent Sample.out_of_order "web3"
                     Sample.store 0%nat "0xT").1.1 = Fulfilled res
    ∧ formatTokenResult res
      = mkReport ("??? [" +:+ "0xT" +:+ "] - unknown token" +:+ nl)
                 (JS.Finite 0).
Proof.
  apply (invalid_token_report Sample.cfg Sample.silent Sample.out_of_order
           "web3" Sample.store 0%nat "0xT"
           (mkTokenInfo "0xT" (Some "unknown") (Some false) 6 (JS.Finite 0)));
    reflexivity.
Defined.

Lemma format_loop_lines tick rs localStr sum :
  fst (fold_left (format_step tick) rs (localStr, sum))
  = localStr +:+ record_lines tick rs.
Proof.
  revert localStr sum. induction rs as [|r rs IH]; intros localStr sum.
  { simpl. clear. induction localStr as [|c s IH]; [done|].
    change (String c s = String c (s +:+ "")). by rewrite <-IH. }
  simpl. rewrite IH. cbn [record_lines]. by rewrite !append_assoc.
Qed.

(** X26. The report of a result with a ticker and a price other than -1 is
    its header, the divider, and one line per record, each followed by a
    line feed, in the order of the records. *)
Theorem formatTokenResult_lines res tick :
  res_ticker res = Some tick → tick ≠ "" →
  number_eqb (res_price res) minus_one = false →
  resStr (formatTokenResult res)
  = tick +:+ " [" +:+ tokenAddress res +:+ "]: "
    +:+ numberWithCommas (header_total res) +:+ " tokens lost / $"
    +:+ numberWithCommas (asDollar (formatTokenResult res))
    +:+ divider +:+ record_lines tick (records res).
Proof.
  intros Htick Hne Hprice.
  unfold formatTokenResult, header_total. rewrite Htick. simpl.
  destruct tick as [|c tick]; [done|]. rewrite Hprice.
  pose proof (format_loop_lines (String c tick) (records res) "" 0) as Hlines.
  unfold format_loop.
  destruct (fold_left (format_step (String c tick)) (records res) ("", 0))
    as [localStr sum]. simpl in *. subst localStr.
  by rewrite !append_assoc.
Qed.

Lemma formatTokenResult_lines_witness :
  resStr (formatTokenResult Sample.halves_result)
  = "TKN" +:+ " [" +:+ tokenAddress Sample.halves_result +:+ "]: "
    +:+ numberWithCommas (header_total Sample.halves_result)
    +:+ " tokens lost / $"
    +:+ numberWithCommas (asDollar (formatTokenResult Sample.halves_result))
    +:+ divider +:+ record_lines "TKN" (records Sample.halves_result).
Proof.
  apply (formatTokenResult_lines Sample.halves_result "TKN").
  - reflexivity.
  - discriminate.
  - by vm_compute.
Defined.

(** ** The result of distributeTasks and getBalanceOf *)

Lemma returned_settles W schedule (h : Heap) ws contractList balances :
  returned (distributeTasks W schedule h ws contractList) = Some balances →
  Forall2 (λ a v, ∃ c, c ∈ token <$> ws ∧ settles W c a v)
          (h !!! contractList) balances.
Proof.
  intros Hret.
  pose proof (distributeTasks_inv W schedule h ws contractList) as Hinv.
  unfold returned in Hret.
  destruct (ctl (distributeTasks W schedule h ws contractList))
    as [| |balances'] eqn:Hctl; simplify_eq.
  destruct (inv_returned _ _ _ _ Hinv balances Hctl) as [Hall Hlen].
  apply mapM_Some_1 in Hall.
  pose proof (Forall2_length _ _ _ Hall) as Hlen'.
  apply Forall2_same_length_lookup_2; [congruence|].
  intros i a v Ha Hv.
  destruct (Forall2_lookup_r _ _ _ _ _ Hall Hv) as (p & Hp & Hpv).
  simpl in Hpv. subst p.
  destruct (inv_resolved _ _ _ _ Hinv i v Hp) as (a' & c & Ha' & Hc & Hs).
  exists c. split; [done|]. congruence.
Qed.

Lemma settles_functional W c a v v' :
  settles W c a v → settles W c a v' → v = v'.
Proof.
  intros (_ & M & Hfail & HM) (_ & M' & Hfail' & HM').
  destruct (Nat.lt_trichotomy M M') as [Hlt|[->|Hlt]].
  - rewrite (Hfail' M Hlt) in HM. done.
  - congruence.
  - rewrite (Hfail M' Hlt) in HM'. done.
Qed.

(** X14. Each balance distributeTasks returns is the one getBalanceOf
    fulfils with, given enough calls, for the address at that position on
    one of the pool's contract handles. *)
Theorem distributeTasks_returns_getBalanceOf W schedule (h : Heap) ws
    contractList balances :
  returned (distributeTasks W schedule h ws contractList) = Some balances →
  Forall2 (λ a v, ∃ c fuel, c ∈ token <$> ws
                            ∧ ∀ more, (getBalanceOf W (fuel + more) c a 0).1
                                      = Fulfilled v)
          (h !!! contractList) balances.
Proof.
  intros Hret%returned_settles. eapply Forall2_impl; [exact Hret|].
  intros a v (c & Hc & Hbuilt & M & Hfail & HM). exists c, (S M).
  split; [done|]. intros more.
  rewrite (getBalanceOf_succeeds W c a M v (S M + more) 0);
    [done|done| |done|lia].
  intros k Hk. apply Hfail. lia.
Qed.

Lemma distributeTasks_returns_witness :
  Forall2 (λ a v, ∃ c fuel, c ∈ token <$> Sample.pool
                            ∧ ∀ more, (getBalanceOf Sample.flaky (fuel + more)
                                                    c a 0).1
                                      = Fulfilled v)
          (Sample.store !!! 0%nat) (map Sample.balance_of Sample.addresses).
Proof.
  apply (distributeTasks_returns_getBalanceOf Sample.flaky Sample.out_of_order
           Sample.store Sample.pool 0%nat).
  by vm_compute.
Defined.

(** X15. When the endpoints of the pool give the same answers, the result of
    distributeTasks does not depend on the schedule: two runs that both
    return, return the same balances. *)
Theorem distributeTasks_schedule_independent W schedule schedule' (h : Heap)
    ws contractList :
  (∀ c c' a k, c ∈ token <$> ws → c' ∈ token <$> ws →
               call_balanceOf W c a k = call_balanceOf W c' a k) →
  is_Some (returned (distributeTasks W schedule h ws contractList)) →
  is_Some (returned (distributeTasks W schedule' h ws contractList)) →
  returned (distributeTasks W schedule h ws contractList)
  = returned (distributeTasks W schedule' h ws contractList).
Proof.
  intros Hagree [balances Hret] [balances' Hret']. rewrite Hret, Hret'.
  f_equal. apply returned_settles in Hret, Hret'.
  revert balances' Hret'.
  induction Hret as [|a v input balances (c & Hc & Hs) _ IH];
    intros balances' Hret'.
  - by apply Forall2_nil_inv_l in Hret'.
  - apply Forall2_cons_inv_l in Hret'
      as (v' & rest & (c' & Hc' & Hs') & Hrest & ->).
    f_equal; [|by apply IH].
    apply (settles_functional W c a); [done|].
    destruct Hs as (Hbuilt & _).
    destruct Hs' as (_ & M & Hfail & HM). split; [done|]. exists M. split.
    + intros k Hk. rewrite (Hagree c c' a k Hc Hc'). by apply Hfail.
    + by rewrite (Hagree c c' a M Hc Hc').
Qed.

Lemma distributeTasks_schedule_witness :
  returned (distributeTasks Sample.flaky Sample.out_of_order Sample.store
                            Sample.pool 0%nat)
  = returned (distributeTasks Sample.flaky Sample.in_order Sample.store
                              Sample.pool 0%nat).
Proof.
  apply (distributeTasks_schedule_independent Sample.flaky
           Sample.out_of_order Sample.in_order Sample.store Sample.pool 0%nat).
  - reflexivity.
  - vm_compute. by eexists.
  - vm_compute. by eexists.
Defined.

(** ** Excluded addresses and the report *)

Lemma exclude_in_place_defined excluded localList (h : Heap) :
  is_Some (h !! localList) →
  is_Some (fold_left (exclude_in_place localList) excluded h !! localList).
Proof.
  revert h. induction excluded as [|ex excluded IH]; intros h Hl; [done|].
  simpl. apply IH. unfold exclude_in_place. by rewrite lookup_insert_eq.
Qed.

Lemma working_list_defined cfg (h : Heap) contractList T :
  is_Some ((working_list cfg h contractList T).1
             !! (working_list cfg h contractList T).2).
Proof.
  unfold working_list, spread.
  destruct (excludedMap cfg !! T) as [excluded|]; simpl.
  - apply exclude_in_place_defined. by rewrite lookup_insert_eq.
  - by rewrite lookup_insert_eq.
Qed.



(** ** A symbol that reads as the empty string *)

(** X25. When symbol() and ticker() fail or give the empty string and the
    bytes32 symbol() gives a string of NUL characters only, the token is
    valid with an empty ticker: it is scanned, and whatever the scan
    finds, the report is the line of the unknown token with a dollar total
    of 0. *)
Theorem empty_symbol_reported_unknown cfg W schedule web3 (h : Heap)
    contractList T :
  falsy (call_symbol W T) = true →
  falsy (call_ticker W T) = true →
  call_symbol32 W T = Some "" →
  (∀ tokenObject,
     (getTokenInfo cfg W T).1 = Fulfilled tokenObject →
     valid tokenObject = Some true ∧ ticker tokenObject = Some "")
  ∧ ∀ res,
      (processOneToken cfg W schedule web3 h contractList T).1.1
      = Fulfilled res →
      formatTokenResult res
      = mkReport ("??? [" +:+ T +:+ "] - unknown token" +:+ nl) (JS.Finite 0).
Proof.
  intros Hs Ht H32.
  assert (Hempty : ∀ tokenObject,
            (getTokenInfo cfg W T).1 = Fulfilled tokenObject →
            valid tokenObject = Some true ∧ ticker tokenObject = Some "").
  { intros tokenObject Hinfo. split.
    - by rewrite (getTokenInfo_valid cfg W T tokenObject Hinfo), Hs, Ht, H32.
    - destruct (getTokenInfo_fulfilled _ _ _ _ Hinfo) as (_ & -> & _).
      unfold read_ticker.
      destruct (call_symbol W T) as [[|c s]|],
        (call_ticker W T) as [[|c' s']|];
        try done; rewrite H32; simpl; by repeat case_match. }
  split; [done|]. intros res. unfold processOneToken.
  destruct (getTokenInfo cfg W T) as [[tokenObject| |] t1]; [|done|done].
  destruct (Hempty tokenObject eq_refl) as [Hvalid Hticker].
  destruct (working_list cfg h contractList T) as [h2 localList].
  unfold not_valid. rewrite Hvalid.
  destruct (findBalances cfg W schedule web3 h2 localList tokenObject)
    as [[[results| |] h3] t2]; simpl; intros [= <-]; try done.
  unfold formatTokenResult. simpl. by rewrite Hticker.
Qed.

Lemma empty_symbol_witness :
  (∀ tokenObject,
     (getTokenInfo Sample.clo Sample.nameless "0xT").1 = Fulfilled tokenObject →
     valid tokenObject = Some true ∧ ticker tokenObject = Some "")
  ∧ ∀ res,
      (processOneToken Sample.clo Sample.nameless Sample.sequential "web3"
                       Sample.four 0%nat "0xT").1.1 = Fulfilled res →
      formatTokenResult res
      = mkReport ("??? [" +:+ "0xT" +:+ "] - unknown token" +:+ nl)
                 (JS.Finite 0).
Proof.
  apply (empty_symbol_reported_unknown Sample.clo Sample.nameless
           Sample.sequential "web3" Sample.four 0%nat "0xT"); reflexivity.
Defined.

(** ** The commas numberWithCommas inserts *)

Lemma digit_run_digits s :
  digits_only s = true → Str.digit_run s = String.length s.
Proof.
  induction s as [|c s IH]; [done|]. simpl.
  intros [Hc Hs]%andb_true_iff. rewrite Hc. by rewrite IH.
Qed.

Lemma is_digit_word c : Str.is_digit c = true → Str.is_word c = true.
Proof. intros Hc. unfold Str.is_word. by rewrite Hc. Qed.

Lemma is_digit_not_comma c : Str.is_digit c = true → is_comma c = false.
Proof.
  destruct c as [[] [] [] [] [] [] [] []]; vm_compute; congruence.
Qed.

Lemma insert_commas_groups_after c0 s :
  Str.is_word c0 = true → digits_only s = true →
  ∃ first groups,
    String_split is_comma (Str.insert_commas (Some c0) s) = first :: groups
    ∧ String.length first = (String.length s mod 3)%nat
    ∧ Forall (λ g, String.length g = 3%nat) groups
    ∧ foldr String.append "" (first :: groups) = s.
Proof.
  intros Hc0 Hs. revert c0 Hc0.
  induction s as [|c s IH]; intros c0 Hc0.
  { exists "", []. by split_and!. }
  pose proof (digit_run_digits _ Hs) as Hrun.
  simpl in Hs. apply andb_true_iff in Hs as [Hc Hs].
  destruct (IH Hs c (is_digit_word c Hc)) as (f & g & Hsplit & Hlen & Hg & Hcat).
  cbn [Str.insert_commas]. unfold Str.not_word_boundary, Str.groups_of_three_ahead.
  rewrite Hrun. cbn [from_option String.length].
  rewrite Hc0, (is_digit_word c Hc). cbn [eqb andb].
  set (n := String.length s) in *.
  pose proof (Nat.div_mod_eq n 3) as Hn.
  pose proof (Nat.div_mod_eq (S n) 3) as HSn.
  pose proof (Nat.mod_upper_bound n 3) as Hlt.
  pose proof (Nat.mod_upper_bound (S n) 3) as HSlt.
  destruct ((0 <? S n)%nat && (S n mod 3 =? 0)%nat) eqn:Hgrp.
  - apply andb_true_iff in Hgrp as [_ Hmod%Nat.eqb_eq].
    cbn [String_split]. change (is_comma ",") with true. cbv iota.
    rewrite (is_digit_not_comma c Hc), Hsplit.
    exists "", (String c f :: g). split_and!; [done|by rewrite Hmod| |].
    + constructor; [|done]. cbn [String.length]. rewrite Hlen. lia.
    + change (String c (foldr String.append "" (f :: g)) = String c s).
      by rewrite Hcat.
  - apply andb_false_iff in Hgrp as [Hz%Nat.ltb_ge|Hmod%Nat.eqb_neq]; [lia|].
    cbn [String_split]. rewrite (is_digit_not_comma c Hc), Hsplit.
    exists (String c f), g. split_and!; [done| |done|].
    + cbn [String.length]. rewrite Hlen. lia.
    + change (String c (foldr String.append "" (f :: g)) = String c s).
      by rewrite Hcat.
Qed.

(** X5. The commas that line 44 inserts into a string of digits cut it into
    groups of exactly three digits after a first group of one to three
    digits, which holds what is left over; removing the commas gives the
    digits back. *)
Theorem insert_commas_groups s :
  digits_only s = true → s ≠ "" →
  ∃ first groups,
    String_split is_comma (Str.insert_commas None s) = first :: groups
    ∧ String.length first = S ((String.length s - 1) mod 3)
    ∧ Forall (λ g, String.length g = 3%nat) groups
    ∧ foldr String.append "" (first :: groups) = s.
Proof.
  intros Hs Hne. destruct s as [|c s]; [done|].
  simpl in Hs. apply andb_true_iff in Hs as [Hc Hs].
  destruct (insert_commas_groups_after c s (is_digit_word c Hc) Hs)
    as (f & g & Hsplit & Hlen & Hg & Hcat).
  cbn [Str.insert_commas]. unfold Str.not_word_boundary.
  cbn [from_option]. rewrite (is_digit_word c Hc). cbn [eqb andb].
  cbn [String_split]. rewrite (is_digit_not_comma c Hc), Hsplit.
  exists (String c f), g. split_and!; [done| |done|].
  - cbn [String.length]. by rewrite Nat.sub_succ, Nat.sub_0_r, Hlen.
  - change (String c (foldr String.append "" (f :: g)) = String c s).
    by rewrite Hcat.
Qed.

Lemma insert_commas_groups_witness :
  ∃ first groups,
    String_split is_comma (Str.insert_commas None "1234567") = first :: groups
    ∧ String.length first = S ((String.length "1234567" - 1) mod 3)
    ∧ Forall (λ g, String.length g = 3%nat) groups
    ∧ foldr String.append "" (first :: groups) = "1234567".
Proof.
  apply (insert_commas_groups "1234567"); [reflexivity|discriminate].
Defined.

(** ** Defaults of the metadata *)

Lemma findBalances_rejected_decimals cfg W schedule web3 (h : Heap)
    contractList tokenObject :
  (findBalances cfg W schedule web3 h contractList tokenObject).1.1 = Rejected →
  (308 < decimals tokenObject)%nat.
Proof.
  unfold findBalances. destruct (returned _) as [balances|]; [|done].
  unfold aggregate.
  destruct (decide (decimals tokenObject ≤ 308)%nat) as [Hle|]; [|lia].
  destruct (parse_1e_finite _ Hle) as [D HD].
  match goal with
  | |- context [format_balances ?t ?l ?i ?b] =>
      destruct (format_balances_defined t l i b D HD) as [rs ->]
  end. done.
Qed.

(** The claim C9 as it is stated fails in two ways.  When the first price
    service answers with the status 200 and the body null, reading
    [priceObj.price] throws outside the [try] blocks: getTokenInfo and
    processOneToken are rejected, and no balance is asked for.  When
    decimals() answers 23 and no price request is answered, the price is
    0 and the scan goes on, but its divisor BigInt(Number('1e23')) is
    99999999999999991611392 and not 10^23: the balance 10^23 - 1 has the
    roundedAmount 1. *)
Lemma metadata_defaults_not_always :
  fetch Sample.void (absolutewallet_url Sample.clo "0xT")
  = Some (200%nat, Some JsonNull)
  ∧ getTokenInfo Sample.clo Sample.void "0xT"
    = (Rejected, [CallSymbol "0xT"; CallDecimals "0xT";
                  Fetch (absolutewallet_url Sample.clo "0xT")])
  ∧ (processOneToken Sample.clo Sample.void Sample.sequential "web3"
                     Sample.four 0%nat "0xT").1.1 = Rejected
  ∧ (processOneToken Sample.clo Sample.void Sample.sequential "web3"
                     Sample.four 0%nat "0xT").2
    = [CallSymbol "0xT"; CallDecimals "0xT";
       Fetch (absolutewallet_url Sample.clo "0xT")]
  ∧ (getTokenInfo Sample.clo Sample.brim "0xT").1
    = Fulfilled (mkTokenInfo "0xT" (Some "TKN") (Some true) 23 (JS.Finite 0))
  ∧ JS.toBigInt (JS.parse_1e 23) = Some 99999999999999991611392
  ∧ 99999999999999991611392 ≠ 10 ^ 23
  ∧ (processOneToken Sample.clo Sample.brim Sample.sequential "web3"
                     Sample.four 0%nat "0xT").1.1
    = Fulfilled
        (mkScanResult "0xT" (Some "TKN") 23 (JS.Finite 0)
           [mkRecord (10 ^ 23 - 1) (JS.ofBigInt 1) "0.00" (Some "0xa");
            mkRecord (10 ^ 23 - 1) (JS.ofBigInt 1) "0.00" (Some "0xb");
            mkRecord (10 ^ 23 - 1) (JS.ofBigInt 1) "0.00" (Some "0xc");
            mkRecord (10 ^ 23 - 1) (JS.ofBigInt 1) "0.00" (Some "0xd")]).
Proof. split_and!; by vm_compute. Qed.

(** C9. When the decimals call fails, a fulfilled [getTokenInfo] reports
    18 decimals, the divisor aggregation builds from them is 10^18, the
    scan is not rejected, and its result carries 18 decimals.  When no
    price request is answered with a price (each one is rejected, or has a
    status other than 200, or a body that is not JSON, or a JSON value
    without price and USD), [getTokenInfo] is fulfilled with the price 0
    and the validity the symbol lookups decide; a fulfilled scan carries
    that price; and for a valid token the scan goes on: [processOneToken]
    asks what [getTokenInfo] and then [findBalances] over the working list
    ask, its outcome is that of [findBalances], which is rejected only
    above 308 decimals, and every record has as roundedAmount the integer
    quotient of its amount by BigInt(Number(`1e${decimals}`)), which is
    10^decimals up to 22 decimals. *)
Theorem metadata_defaults cfg W schedule web3 (h : Heap) contractList T :
  let outcome := (processOneToken cfg W schedule web3 h contractList T).1.1 in
  let h2 := (working_list cfg h contractList T).1 in
  let localList := (working_list cfg h contractList T).2 in
  (∀ tokenObject,
     (getTokenInfo cfg W T).1 = Fulfilled tokenObject →
     call_decimals W T = None →
     decimals tokenObject = 18%nat
     ∧ JS.toBigInt (JS.parse_1e (decimals tokenObject)) = Some (10 ^ 18)
     ∧ outcome ≠ Rejected
     ∧ ∀ res, outcome = Fulfilled res → res_decimals res = 18%nat)
  ∧ ((∀ url body, fetch W url = Some (200%nat, Some body) →
                  body = JsonValue (mkPriceObj None None)) →
     ∃ tokenObject,
       (getTokenInfo cfg W T).1 = Fulfilled tokenObject
       ∧ price tokenObject = JS.Finite 0
       ∧ valid tokenObject
         = (if falsy (call_symbol W T) && falsy (call_ticker W T)
            then Some (bool_decide (is_Some (call_symbol32 W T)))
            else Some true)
       ∧ (∀ res, outcome = Fulfilled res → res_price res = JS.Finite 0)
       ∧ (valid tokenObject = Some true →
          let scan := findBalances cfg W schedule web3 h2 localList
                                   tokenObject in
          (processOneToken cfg W schedule web3 h contractList T).2
          = (getTokenInfo cfg W T).2 ++ scan.2
          ∧ outcome
            = match scan.1.1 with
              | Fulfilled records =>
                  Fulfilled (mkScanResult T (ticker tokenObject)
                               (decimals tokenObject) (JS.Finite 0) records)
              | Rejected => Rejected
              | Pending => Pending
              end
          ∧ (scan.1.1 = Rejected → (308 < decimals tokenObject)%nat)
          ∧ ∀ records r,
              scan.1.1 = Fulfilled records → r ∈ records →
              ∃ D, JS.toBigInt (JS.parse_1e (decimals tokenObject)) = Some D
                   ∧ ((decimals tokenObject ≤ 22)%nat →
                      D = 10 ^ Z.of_nat (decimals tokenObject))
                   ∧ roundedAmount r = JS.ofBigInt (Z.quot (amount r) D))).
Proof.
  intros outcome h2 localList. split.
  - intros tokenObject Hinfo Hdec.
    destruct (processOneToken_outcome cfg W schedule web3 h contractList T
                tokenObject Hinfo) as [Hrej Hful].
    fold outcome in Hrej, Hful.
    assert (H18 : decimals tokenObject = 18%nat).
    { by rewrite (getTokenInfo_decimals cfg W T tokenObject Hinfo), Hdec. }
    assert (HD : JS.toBigInt (JS.parse_1e (decimals tokenObject))
                 = Some (10 ^ 18)).
    { rewrite H18. by vm_compute. }
    split; [done|]. split; [done|]. split.
    + intros Hr. specialize (Hrej Hr). congruence.
    + intros res Hres. destruct (Hful res Hres) as [[? _]|[? _]]; congruence.
  - intros Hnone.
    destruct (getTokenInfo_price_default cfg W T Hnone)
      as (tokenObject & Hinfo & Hprice).
    exists tokenObject. split; [done|]. split; [done|].
    split; [by apply (getTokenInfo_valid cfg W T)|]. split.
    { intros res Hres.
      destruct (processOneToken_outcome cfg W schedule web3 h contractList T
                  tokenObject Hinfo) as [_ Hful].
      destruct (Hful res Hres) as [[_ ?]|[_ ?]]; congruence. }
    intros Hvalid scan.
    pose proof (working_list_defined cfg h contractList T) as Hdef.
    fold h2 localList in Hdef.
    assert (Hrun : processOneToken cfg W schedule web3 h contractList T
                   = match scan.1.1 with
                     | Fulfilled records =>
                         (Fulfilled (mkScanResult T (ticker tokenObject)
                                       (decimals tokenObject) (JS.Finite 0)
                                       records),
                          scan.1.2, (getTokenInfo cfg W T).2 ++ scan.2)
                     | Rejected =>
                         (Rejected, scan.1.2, (getTokenInfo cfg W T).2 ++ scan.2)
                     | Pending =>
                         (Pending, scan.1.2, (getTokenInfo cfg W T).2 ++ scan.2)
                     end).
    { unfold processOneToken, scan, h2, localList.
      destruct (getTokenInfo cfg W T) as [o t1]. simpl in Hinfo. subst o.
      destruct (working_list cfg h contractList T) as [h2' localList'].
      unfold not_valid. rewrite Hvalid, Hprice. simpl.
      by destruct (findBalances cfg W schedule web3 h2' localList' tokenObject)
        as [[[records| |] h3] t2]. }
    unfold outcome. rewrite Hrun. split_and!.
    + by destruct scan.1.1.
    + by destruct scan.1.1.
    + apply findBalances_rejected_decimals.
    + intros records r Hscan Hr.
      destruct (findBalances_aggregate _ _ _ _ _ _ _ _ Hdef Hscan)
        as (balances & Hret & Hag).
      destruct (aggregate_spec _ _ _ _ Hag) as (rs & Hrs & _ & Hperm).
      rewrite Hperm in Hr.
      destruct (format_balances_origin _ _ _ _ _ _ Hrs Hr)
        as (i & D & _ & _ & _ & HD & Hround & _).
      exists D. split; [done|]. split; [|done].
      intros Hdec. rewrite (parse_1e_exact _ Hdec) in HD. by simplify_eq.
Qed.

Lemma metadata_defaults_witness :
  ∃ tokenObject,
    (getTokenInfo Sample.cfg Sample.flaky "0xT").1 = Fulfilled tokenObject
    ∧ decimals tokenObject = 18%nat
    ∧ price tokenObject = JS.Finite 0
    ∧ (processOneToken Sample.cfg Sample.flaky Sample.out_of_order "web3"
                       Sample.store 0%nat "0xT").2
      = (getTokenInfo Sample.cfg Sample.flaky "0xT").2
        ++ (findBalances Sample.cfg Sample.flaky Sample.out_of_order "web3"
              (working_list Sample.cfg Sample.store 0%nat "0xT").1
              (working_list Sample.cfg Sample.store 0%nat "0xT").2
              tokenObject).2.
Proof.
  pose proof (metadata_defaults Sample.cfg Sample.flaky Sample.out_of_order
                "web3" Sample.store 0%nat "0xT") as [Hdec Hprice].
  destruct Hprice as (tokenObject & Hinfo & Hzero & Hvalid & _ & Hscan).
  { intros url body. discriminate. }
  exists tokenObject. split; [done|]. split; [|split; [done|]].
  - by apply (Hdec tokenObject Hinfo).
  - by apply Hscan.
Defined.
